(** * XenaManager session, chassis and module orchestration

    A shallow embedding of [xenamanager/xena_app.py]: the session object
    ([XenaSession]), the chassis object ([XenaChassis]) and the module object
    ([XenaModule]), over an explicit state made of the object tree and of the
    chronological log of every exchange with the hardware.

    Python exceptions are the [Err] results of a state-and-error monad whose
    state survives an error, as the object tree and the hardware do when a
    Python exception unwinds the stack. *)

From Stdlib Require Import String Ascii List ZArith Bool Lia Arith PeanoNat.
From Stdlib Require Import DecimalString DecimalNat Permutation.
Import ListNotations.
Local Open Scope string_scope.
Local Open Scope list_scope.
Local Open Scope nat_scope.

Set Implicit Arguments.

(** ** Python strings *)

Module PyStr.

Definition slash : ascii := "/"%char.
Definition blank : ascii := " "%char.
Definition dquote : ascii := ascii_of_nat 34.

(** The characters [str.split()] and [int()] treat as white space. *)
Definition is_space (c : ascii) : bool :=
  let n := nat_of_ascii c in
  ((9 <=? n) && (n <=? 13)) || ((28 <=? n) && (n <=? 32)).

(** [s.split(sep)] for a separator of one character: never empty. *)
Fixpoint split (sep : ascii) (s : string) : list string :=
  match s with
  | EmptyString => [EmptyString]
  | String c s' =>
      if Ascii.eqb c sep then EmptyString :: split sep s'
      else match split sep s' with
           | [] => [String c EmptyString]
           | h :: t => String c h :: t
           end
  end.

(** [s.split()] : the maximal runs of characters that are not white space. *)
Fixpoint split_ws_from (cur : string) (s : string) : list string :=
  match s with
  | EmptyString => match cur with EmptyString => [] | _ => [cur] end
  | String c s' =>
      if is_space c then
        match cur with
        | EmptyString => split_ws_from EmptyString s'
        | _ => cur :: split_ws_from EmptyString s'
        end
      else split_ws_from (cur ++ String c EmptyString)%string s'
  end.

Definition split_ws (s : string) : list string := split_ws_from EmptyString s.

(** [s.replace(a, b)] for single characters. *)
Fixpoint replace (a b : ascii) (s : string) : string :=
  match s with
  | EmptyString => EmptyString
  | String c s' => String (if Ascii.eqb c a then b else c) (replace a b s')
  end.

(** [sep.join(l)]. *)
Definition join (sep : string) (l : list string) : string := String.concat sep l.

(** [sub in s]. *)
Fixpoint contains (sub s : string) : bool :=
  String.prefix sub s
  || match s with
     | EmptyString => false
     | String _ s' => contains sub s'
     end.

Definition digit_of (c : ascii) : option Z :=
  let n := nat_of_ascii c in
  if (48 <=? n) && (n <=? 57) then Some (Z.of_nat (n - 48)) else None.

(** Decimal digits, single underscores allowed between two digits. *)
Fixpoint int_digits (acc : Z) (after_digit : bool) (s : string) : option Z :=
  match s with
  | EmptyString => if after_digit then Some acc else None
  | String c s' =>
      match digit_of c with
      | Some d => int_digits (10 * acc + d) true s'
      | None =>
          if Ascii.eqb c "_"%char && after_digit
          then int_digits acc false s'
          else None
      end
  end.

Definition int_signed (s : string) : option Z :=
  match s with
  | String c s' =>
      if Ascii.eqb c "-"%char then option_map Z.opp (int_digits 0 false s')
      else if Ascii.eqb c "+"%char then int_digits 0 false s'
      else int_digits 0 false s
  | EmptyString => None
  end.

(** [int(s)] on a string: surrounding white space is stripped, an optional
    sign and decimal digits follow; [None] stands for [ValueError]. *)
Definition int (s : string) : option Z :=
  match split_ws s with
  | [t] => int_signed t
  | _ => None
  end.

(** ['{}'.format(n)] for a natural number. *)
Definition of_nat (n : nat) : string := NilZero.string_of_uint (Nat.to_uint n).

(** The character [c] does not occur in [s]. *)
Fixpoint lacks (c : ascii) (s : string) : bool :=
  match s with
  | EmptyString => true
  | String x s' => negb (Ascii.eqb x c) && lacks c s'
  end.

Definition no_slash (s : string) : Prop := lacks slash s = true.

End PyStr.

(** ** Python dictionaries

    Insertion-ordered association lists without repeated keys: assigning to a
    key that is present replaces its value in place. *)

Section Dict.
Variables K V : Type.
Variable keq : K -> K -> bool.

Definition dict := list (K * V).

Fixpoint dict_get (k : K) (d : dict) : option V :=
  match d with
  | [] => None
  | (k', v) :: d' => if keq k' k then Some v else dict_get k d'
  end.

Definition dict_mem (k : K) (d : dict) : bool :=
  match dict_get k d with Some _ => true | None => false end.

Fixpoint dict_set (k : K) (v : V) (d : dict) : dict :=
  match d with
  | [] => [(k, v)]
  | (k', v') :: d' =>
      if keq k' k then (k', v) :: d' else (k', v') :: dict_set k v d'
  end.

(** [d.update(items)], and with [d = {}] the dictionary comprehension. *)
Definition dict_update (d : dict) (items : list (K * V)) : dict :=
  fold_left (fun acc kv => dict_set (fst kv) (snd kv) acc) items d.

Definition dict_keys (d : dict) : list K := map fst d.
Definition dict_values (d : dict) : list V := map snd d.
End Dict.

(** ** Errors, requests and the log *)

Inductive Error : Type :=
| ProtocolError
| ReservationConflict
| Timeout
| NotFound
| KeyError (key : string)
| ValueError
| IndexError
| AttributeError
| Detached.

Inductive PortOp : Type :=
| Reserve (force : bool)
| Release
| Reset
| ClearStats
| PortInventory.

Inductive Request : Type :=
| Connect (ip : string) (tcp : Z)
| Disconnect (ip : string)
| Command (ip ref cmd : string) (args : list string)
| GetAttribute (ip ref attr : string)
| GetAttributes (ip ref attr : string)
| PortCommand (ip ref : string) (op : PortOp).

Inductive Response : Type :=
| Ack
| Value (v : string)
| Mapping (m : list (string * string))
| Fail (e : Error).

Definition Event : Type := (Request * Response)%type.

(** The hardware answers a request from the history of the exchanges so far. *)
Definition Hardware : Type := list Event -> Request -> Response.

(** ** The object tree *)

Record XenaPort : Type := mkPort {
  p_id : nat;
  p_chassis : string;
  p_ref : string
}.

Record XenaModule : Type := mkModule {
  m_id : nat;
  m_chassis : string;
  m_index : nat;
  m_info : option (list (string * string));
  m_children : list XenaPort
}.

Inductive Child : Type :=
| ChildModule (m : XenaModule)
| ChildPort (p : XenaPort).

Record XenaChassis : Type := mkChassis {
  c_id : nat;
  c_name : string;
  c_info : option (list (string * string));
  c_children : list Child
}.

Record State : Type := mkState {
  s_owner : string;
  s_chassis : list XenaChassis;
  s_next : nat;
  s_log : list Event
}.

Inductive Obj : Type :=
| OChassis (c : XenaChassis)
| OModule (m : XenaModule)
| OPort (p : XenaPort).

(** ** The monad *)

Inductive Result (A : Type) : Type :=
| Ok (a : A)
| Err (e : Error).
Arguments Ok {A} a.
Arguments Err {A} e.

Definition M (A : Type) : Type := State -> Result A * State.

Definition ret {A} (a : A) : M A := fun s => (Ok a, s).
Definition raise {A} (e : Error) : M A := fun s => (Err e, s).
Definition bind {A B} (m : M A) (f : A -> M B) : M B :=
  fun s => match m s with
           | (Ok a, s') => f a s'
           | (Err e, s') => (Err e, s')
           end.

Declare Scope xena_scope.
Delimit Scope xena_scope with xena.
Notation "x <- m ;; k" := (bind m (fun x => k))
  (at level 61, m at next level, right associativity) : xena_scope.
Notation "m ;; k" := (bind m (fun _ => k))
  (at level 61, right associativity) : xena_scope.
Local Open Scope xena_scope.

(** [for x in l: body(x)]. *)
Fixpoint for_each {A} (l : list A) (body : A -> M unit) : M unit :=
  match l with
  | [] => ret tt
  | x :: l' => body x ;; for_each l' body
  end.

Definition of_option {A} (e : Error) (o : option A) : M A :=
  match o with Some a => ret a | None => raise e end.

Definition get_state : M State := fun s => (Ok s, s).

Definition set_log (s : State) (l : list Event) : State :=
  mkState (s_owner s) (s_chassis s) (s_next s) l.

Definition set_chassis (s : State) (cs : list XenaChassis) : State :=
  mkState (s_owner s) cs (s_next s) (s_log s).

(** A new object identity, as Python gives to each constructed object. *)
Definition fresh : M nat :=
  fun s => (Ok (s_next s), mkState (s_owner s) (s_chassis s) (S (s_next s)) (s_log s)).

(** ** Names and views of the tree *)

Definition port_name (p : XenaPort) : string :=
  (p_chassis p ++ "/" ++ p_ref p)%string.

Definition module_ref (m : XenaModule) : string := PyStr.of_nat (m_index m).

Definition module_name (m : XenaModule) : string :=
  (m_chassis m ++ "/" ++ module_ref m)%string.

Definition obj_id (o : Obj) : nat :=
  match o with
  | OChassis c => c_id c
  | OModule m => m_id m
  | OPort p => p_id p
  end.

(** [str(o)] and [o.name]. *)
Definition obj_name (o : Obj) : string :=
  match o with
  | OChassis c => c_name c
  | OModule m => module_name m
  | OPort p => port_name p
  end.

(** Two references are the same dictionary key when they are the same object. *)
Definition obj_eqb (a b : Obj) : bool := Nat.eqb (obj_id a) (obj_id b).

Definition module_descendants (m : XenaModule) : list Obj :=
  map OPort (m_children m).

Definition child_descendants (ch : Child) : list Obj :=
  match ch with
  | ChildModule m => OModule m :: module_descendants m
  | ChildPort p => [OPort p]
  end.

Definition chassis_descendants (c : XenaChassis) : list Obj :=
  flat_map child_descendants (c_children c).

Definition session_descendants (s : State) : list Obj :=
  flat_map (fun c => OChassis c :: chassis_descendants c) (s_chassis s).

Definition only_chassis (l : list Obj) : list XenaChassis :=
  flat_map (fun o => match o with OChassis c => [c] | _ => [] end) l.

Definition only_modules (l : list Obj) : list XenaModule :=
  flat_map (fun o => match o with OModule m => [m] | _ => [] end) l.

Definition only_ports (l : list Obj) : list XenaPort :=
  flat_map (fun o => match o with OPort p => [p] | _ => [] end) l.

(** Modelled from the spec: [get_objects_by_type(kind)] of the node base
    class, which is not in the source file: all descendants of the given
    kind, in tree order.  One definition per receiver and kind in use. *)
Definition session_get_chassis (s : State) : list XenaChassis :=
  only_chassis (session_descendants s).

Definition chassis_get_ports (c : XenaChassis) : list XenaPort :=
  only_ports (chassis_descendants c).

Definition chassis_get_modules (c : XenaChassis) : list XenaModule :=
  only_modules (chassis_descendants c).

Definition module_get_ports (m : XenaModule) : list XenaPort :=
  only_ports (module_descendants m).

(** Modelled from the spec: [get_object_by_name(name)] of the node base
    class: the single descendant with exactly that name, [NotFound] when
    there is none. *)
Definition get_object_by_name (name : string) : M Obj :=
  fun s =>
    match find (fun o => String.eqb (obj_name o) name) (session_descendants s) with
    | Some o => (Ok o, s)
    | None => (Err NotFound, s)
    end.

(** [XenaChassis.ports]. *)
Definition chassis_ports (c : XenaChassis) : dict string XenaPort :=
  dict_update String.eqb [] (map (fun p => (port_name p, p)) (chassis_get_ports c)).

(** [XenaChassis.modules]; the key is [int(c.ref)]. *)
Definition chassis_modules (c : XenaChassis) : dict nat XenaModule :=
  dict_update Nat.eqb [] (map (fun m => (m_index m, m)) (chassis_get_modules c)).

(** [XenaSession.chassis_list]. *)
Definition chassis_list (s : State) : dict string XenaChassis :=
  dict_update String.eqb [] (map (fun c => (c_name c, c)) (session_get_chassis s)).

(** [XenaSession.ports]. *)
Definition session_ports (s : State) : dict string XenaPort :=
  fold_left (fun ports c => dict_update String.eqb ports (chassis_ports c))
            (dict_values (chassis_list s)) [].

(** ** Updates of the tree *)

Definition update_chassis (cid : nat) (f : XenaChassis -> XenaChassis) : M unit :=
  fun s =>
    (Ok tt,
     set_chassis s (map (fun c => if Nat.eqb (c_id c) cid then f c else c) (s_chassis s))).

Definition update_child_module (mid : nat) (f : XenaModule -> XenaModule)
    (ch : Child) : Child :=
  match ch with
  | ChildModule m => if Nat.eqb (m_id m) mid then ChildModule (f m) else ch
  | ChildPort _ => ch
  end.

Definition update_module (mid : nat) (f : XenaModule -> XenaModule) : M unit :=
  fun s =>
    (Ok tt,
     set_chassis s
       (map (fun c => mkChassis (c_id c) (c_name c) (c_info c)
                        (map (update_child_module mid f) (c_children c)))
            (s_chassis s))).

Definition add_child (ch : Child) (c : XenaChassis) : XenaChassis :=
  mkChassis (c_id c) (c_name c) (c_info c) (c_children c ++ [ch]).

Definition set_c_info (i : list (string * string)) (c : XenaChassis) : XenaChassis :=
  mkChassis (c_id c) (c_name c) (Some i) (c_children c).

Definition add_port (p : XenaPort) (m : XenaModule) : XenaModule :=
  mkModule (m_id m) (m_chassis m) (m_index m) (m_info m) (m_children m ++ [p]).

Definition set_m_info (i : list (string * string)) (m : XenaModule) : XenaModule :=
  mkModule (m_id m) (m_chassis m) (m_index m) (Some i) (m_children m).

Definition find_chassis (cid : nat) (s : State) : option XenaChassis :=
  find (fun c => Nat.eqb (c_id c) cid) (s_chassis s).

(** The chassis object behind a reference, as it stands now. *)
Definition live_chassis (cid : nat) : M XenaChassis :=
  fun s => match find_chassis cid s with
           | Some c => (Ok c, s)
           | None => (Err Detached, s)
           end.

Section Xena.

Variable hw : Hardware.

(** One request and its answer, appended to the log. *)
Definition exchange (r : Request) : M Response :=
  fun s => let a := hw (s_log s) r in (Ok a, set_log s (s_log s ++ [(r, a)])).

Definition acknowledged (a : Response) : M unit :=
  match a with
  | Fail e => raise e
  | _ => ret tt
  end.

(** Modelled from the spec: [send_command(cmd, *args)] of the node base
    class: the command and its arguments go to the transport of the owning
    chassis, addressed by the reference of the sending node; a rejected
    command is an error. *)
Definition send_command (ip ref cmd : string) (args : list string) : M unit :=
  a <- exchange (Command ip ref cmd args) ;; acknowledged a.

(** Modelled from the spec: [get_attribute(name)] of the node base class: a
    query answered by one value, [ProtocolError] on a malformed answer. *)
Definition get_attribute (ip ref attr : string) : M string :=
  a <- exchange (GetAttribute ip ref attr) ;;
  match a with
  | Value v => ret v
  | Fail e => raise e
  | _ => raise ProtocolError
  end.

(** Modelled from the spec: [get_attributes(prefix)] of the node base class:
    a query answered by a mapping. *)
Definition get_attributes (ip ref attr : string) : M (list (string * string)) :=
  a <- exchange (GetAttributes ip ref attr) ;;
  match a with
  | Mapping m => ret m
  | Fail e => raise e
  | _ => raise ProtocolError
  end.

(** [mapping[key]]. *)
Definition subscript (m : list (string * string)) (key : string) : M string :=
  of_option (KeyError key) (dict_get String.eqb key m).

(** ** Ports *)

(** Modelled from the spec: the port class is not in the source file; its
    [reserve(force)], [release()], [reset()], [clear_stats()] and
    [inventory()] are direct command wrappers, each one exchange with the
    chassis of the port, rejected by the hardware or acknowledged. *)
Definition port_command (p : XenaPort) (op : PortOp) : M unit :=
  a <- exchange (PortCommand (p_chassis p) (p_ref p) op) ;; acknowledged a.

Definition port_reserve (p : XenaPort) (force : bool) : M unit :=
  port_command p (Reserve force).
Definition port_release (p : XenaPort) : M unit := port_command p Release.
Definition port_reset (p : XenaPort) : M unit := port_command p Reset.
Definition port_clear_stats (p : XenaPort) : M unit := port_command p ClearStats.
Definition port_inventory (p : XenaPort) : M unit := port_command p PortInventory.

(** Modelled from the spec: the state poller
    [wait_for_states(attribute, timeout, *expected)]: the attribute is
    queried again and again, one query for each unit of the timeout, until
    its value is one of the expected values; [Timeout] when the budget is
    spent. *)
Fixpoint poll (p : XenaPort) (attr : string) (expected : list string)
    (budget : nat) : M unit :=
  match budget with
  | 0 => raise Timeout
  | S budget' =>
      v <- get_attribute (p_chassis p) (p_ref p) attr ;;
      if existsb (String.eqb v) expected then ret tt
      else poll p attr expected budget'
  end.

Definition wait_for_states (p : XenaPort) (attr : string) (timeout : Z)
    (expected : list string) : M unit :=
  poll p attr expected (Z.to_nat timeout).

(** Modelled from the spec: the constructor of a node registers it as the
    last child of its parent; a port takes the chassis of its parent and
    its index as reference.  Here the parent is a chassis. *)
Definition XenaPort_under_chassis (parent : XenaChassis) (index : string)
  : M XenaPort :=
  i <- fresh ;;
  let p := mkPort i (c_name parent) index in
  update_chassis (c_id parent) (add_child (ChildPort p)) ;;
  ret p.

(** The same constructor with a module as parent. *)
Definition XenaPort_under_module (parent : XenaModule) (index : string)
  : M XenaPort :=
  i <- fresh ;;
  let p := mkPort i (m_chassis parent) index in
  update_module (m_id parent) (add_port p) ;;
  ret p.

(** ** [XenaModule] *)

Definition XenaModule_init (parent : XenaChassis) (index : nat) : M XenaModule :=
  i <- fresh ;;
  let m := mkModule i (c_name parent) index None [] in
  update_chassis (c_id parent) (add_child (ChildModule m)) ;;
  ret m.

(** [range(n)] for a Python integer. *)
Definition range (n : Z) : list nat := seq 0 (Z.to_nat n).

Definition module_port_count (self : XenaModule)
    (info : list (string * string)) : M Z :=
  cfptype <- subscript info "m_cfptype" ;;
  if PyStr.contains "NOTCFP" cfptype then
    a <- get_attribute (m_chassis self) (module_ref self) "m_portcount" ;;
    of_option ValueError (PyStr.int a)
  else
    v <- get_attribute (m_chassis self) (module_ref self) "m_cfpconfig" ;;
    first <- of_option IndexError (hd_error (PyStr.split_ws v)) ;;
    of_option ValueError (PyStr.int first).

(** [XenaModule.inventory]. *)
Definition module_inventory (self : XenaModule) : M unit :=
  info <- get_attributes (m_chassis self) (module_ref self) "m_info" ;;
  update_module (m_id self) (set_m_info info) ;;
  m_portcount <- module_port_count self info ;;
  for_each (range m_portcount) (fun p_index =>
    p <- XenaPort_under_module self
           (module_ref self ++ "/" ++ PyStr.of_nat p_index)%string ;;
    port_inventory p).

(** ** [XenaChassis]

    A reference to a chassis is the record of the chassis as it stood when
    the reference was taken.  Its identity and its address never change, so
    the methods that change the tree address the live object by its identity;
    the methods that only read take their receiver from the tree right before
    they run, nothing changing the tree in between. *)

Definition quoted (s : string) : string :=
  (String PyStr.dquote s ++ String PyStr.dquote EmptyString)%string.

(** [XenaChassis.__init__]: the node is registered under the session, then
    the transport is opened.  The keep-alive thread is outside the model. *)
Definition XenaChassis_init (ip : string) (tcp : Z) : M XenaChassis :=
  i <- fresh ;;
  let c := mkChassis i ip None [] in
  (fun s => (Ok tt, set_chassis s (s_chassis s ++ [c]))) ;;
  a <- exchange (Connect ip tcp) ;;
  acknowledged a ;;
  ret c.

(** [XenaChassis.logon]. *)
Definition chassis_logon (self : XenaChassis) (password owner : string) : M unit :=
  send_command (c_name self) EmptyString "c_logon" [quoted password] ;;
  send_command (c_name self) EmptyString "c_owner" [quoted owner].

(** [XenaChassis.disconnect]. *)
Definition chassis_disconnect (self : XenaChassis) : M unit :=
  a <- exchange (Disconnect (c_name self)) ;; acknowledged a.

(** [enumerate(l)]. *)
Definition enumerate {A} (l : list A) : list (nat * A) :=
  combine (seq 0 (length l)) l.

(** [XenaChassis.inventory]. *)
Definition chassis_inventory (self : XenaChassis) : M unit :=
  info <- get_attributes (c_name self) EmptyString "c_info" ;;
  update_chassis (c_id self) (set_c_info info) ;;
  portcounts <- subscript info "c_portcounts" ;;
  for_each (enumerate (PyStr.split_ws portcounts)) (fun im =>
    n <- of_option ValueError (PyStr.int (snd im)) ;;
    if Z.eqb n 0 then ret tt
    else m <- XenaModule_init self (fst im) ;; module_inventory m).

(** [XenaChassis.reserve_ports]. *)
Definition chassis_reserve_ports (self : XenaChassis) (locations : list string)
    (force : bool) : M (dict string XenaPort) :=
  for_each locations (fun location =>
    port <- XenaPort_under_chassis self location ;;
    port_reserve port force ;;
    port_reset port) ;;
  c <- live_chassis (c_id self) ;;
  ret (chassis_ports c).

(** [XenaChassis.release_ports]. *)
Definition chassis_release_ports (self : XenaChassis) : M unit :=
  for_each (dict_values (chassis_ports self)) port_release.

(** [XenaChassis._get_operation_ports]. *)
Definition chassis_get_operation_ports (self : XenaChassis)
    (ports : list XenaPort) : list XenaPort :=
  match ports with
  | [] => dict_values (chassis_ports self)
  | _ => ports
  end.

(** [' '.join([p.ref.replace('/', ' ') for p in ports])]. *)
Definition ports_str (ports : list XenaPort) : string :=
  PyStr.join " "
    (map (fun p => PyStr.replace PyStr.slash PyStr.blank (p_ref p)) ports).

(** [XenaChassis._traffic_command]. *)
Definition chassis_traffic_command (self : XenaChassis) (command : string)
    (ports : list XenaPort) : M unit :=
  let ports := chassis_get_operation_ports self ports in
  send_command (c_name self) EmptyString "c_traffic" [command; ports_str ports] ;;
  for_each ports (fun port => wait_for_states port "p_traffic" 40 [command]).

(** [XenaChassis.wait_traffic]; [int(2.628e+6)] is 2628000. *)
Definition chassis_wait_traffic (self : XenaChassis) (ports : list XenaPort)
  : M unit :=
  for_each ports (fun port => wait_for_states port "p_traffic" 2628000 ["off"]).

(** [XenaChassis.start_traffic]. *)
Definition chassis_start_traffic (self : XenaChassis) (blocking : bool)
    (ports : list XenaPort) : M unit :=
  chassis_traffic_command self "on" ports ;;
  if blocking then chassis_wait_traffic self ports else ret tt.

(** [XenaChassis.stop_traffic]. *)
Definition chassis_stop_traffic (self : XenaChassis) (ports : list XenaPort)
  : M unit :=
  chassis_traffic_command self "off" ports.

(** [XenaChassis.clear_stats]. *)
Definition chassis_clear_stats (self : XenaChassis) (ports : list XenaPort)
  : M unit :=
  for_each ports port_clear_stats.

(** ** [XenaSession] *)

(** [XenaSession._get_operation_ports]. *)
Definition session_get_operation_ports (ports : list XenaPort)
  : M (list XenaPort) :=
  fun s =>
    (Ok (match ports with
         | [] => dict_values (session_ports s)
         | _ => ports
         end), s).

(** [XenaSession._per_chassis_ports]: the loop, from the dictionary built
    so far. *)
Fixpoint per_chassis_ports_from (acc : dict Obj (list XenaPort))
    (ports : list XenaPort) : M (dict Obj (list XenaPort)) :=
  match ports with
  | [] => ret acc
  | port :: rest =>
      chassis <- get_object_by_name
                   (hd EmptyString (PyStr.split PyStr.slash (port_name port))) ;;
      let acc1 :=
        if dict_mem obj_eqb chassis acc then acc
        else dict_set obj_eqb chassis [] acc in
      let l := match dict_get obj_eqb chassis acc1 with
               | Some l => l
               | None => []
               end in
      per_chassis_ports_from (dict_set obj_eqb chassis (l ++ [port]) acc1) rest
  end.

Definition per_chassis_ports (ports : list XenaPort)
  : M (dict Obj (list XenaPort)) :=
  per_chassis_ports_from [] ports.

(** The chassis methods exist on chassis objects only. *)
Definition as_chassis (o : Obj) : M XenaChassis :=
  match o with
  | OChassis c => ret c
  | _ => raise AttributeError
  end.

(** [XenaSession.add_chassis]. *)
Definition add_chassis (chassis : string) (port : Z) (password : string)
  : M unit :=
  fun s =>
    if dict_mem String.eqb chassis (chassis_list s) then (Ok tt, s)
    else (c <- XenaChassis_init chassis port ;;
          chassis_logon c password (s_owner s)) s.

(** [XenaSession.reserve_ports]. *)
Definition session_reserve_location (force : bool) (location : string)
  : M unit :=
  match PyStr.split PyStr.slash location with
  | [ip; module; port] =>
      chassis <- (fun s => of_option (KeyError ip)
                             (dict_get String.eqb ip (chassis_list s)) s) ;;
      chassis_reserve_ports chassis [(module ++ "/" ++ port)%string] force ;;
      ret tt
  | _ => raise ValueError
  end.

Definition session_reserve_ports (locations : list string) (force : bool)
  : M (dict string XenaPort) :=
  for_each locations (session_reserve_location force) ;;
  (fun s => (Ok (session_ports s), s)).

(** [XenaSession.release_ports]. *)
Definition session_release_ports : M unit :=
  ports <- session_get_operation_ports [] ;;
  d <- per_chassis_ports ports ;;
  for_each (dict_keys d) (fun chassis =>
    c <- as_chassis chassis ;; chassis_release_ports c).

(** [XenaSession.clear_stats]. *)
Definition session_clear_stats (ports : list XenaPort) : M unit :=
  ps <- session_get_operation_ports ports ;;
  d <- per_chassis_ports ps ;;
  for_each d (fun kv =>
    c <- as_chassis (fst kv) ;; chassis_clear_stats c (snd kv)).

(** [XenaSession.start_traffic]. *)
Definition session_start_traffic (blocking : bool) (ports : list XenaPort)
  : M unit :=
  ps <- session_get_operation_ports ports ;;
  d <- per_chassis_ports ps ;;
  for_each d (fun kv =>
    c <- as_chassis (fst kv) ;; chassis_start_traffic c false (snd kv)) ;;
  if blocking then
    ps' <- session_get_operation_ports ports ;;
    d' <- per_chassis_ports ps' ;;
    for_each d' (fun kv =>
      c <- as_chassis (fst kv) ;; chassis_wait_traffic c (snd kv))
  else ret tt.

(** [XenaSession.stop_traffic]. *)
Definition session_stop_traffic (ports : list XenaPort) : M unit :=
  ps <- session_get_operation_ports ports ;;
  d <- per_chassis_ports ps ;;
  for_each d (fun kv =>
    c <- as_chassis (fst kv) ;; chassis_stop_traffic c (snd kv)).

(** [XenaSession.inventory]. *)
Definition session_inventory : M unit :=
  cs <- (fun s => (Ok (session_get_chassis s), s)) ;;
  for_each cs chassis_inventory.

(** [XenaSession.disconnect]. *)
Definition session_disconnect : M unit :=
  session_release_ports ;;
  cs <- (fun s => (Ok (session_get_chassis s), s)) ;;
  for_each cs chassis_disconnect.

End Xena.

(** [XenaSession.__init__]. *)
Definition XenaSession_init (owner : string) : State := mkState owner [] 0 [].


(** * Properties *)

(** ** The monad and its loops *)

Lemma bind_ok {A B} (m : M A) (f : A -> M B) s a s1 :
  m s = (Ok a, s1) -> bind m f s = f a s1.
Proof. intros H. unfold bind. rewrite H. reflexivity. Qed.

Lemma bind_err {A B} (m : M A) (f : A -> M B) s e s1 :
  m s = (Err e, s1) -> bind m f s = (Err e, s1).
Proof. intros H. unfold bind. rewrite H. reflexivity. Qed.

Lemma bind_inv {A B} (m : M A) (f : A -> M B) s r s' :
  bind m f s = (r, s') ->
  (exists a s1, m s = (Ok a, s1) /\ f a s1 = (r, s'))
  \/ (exists e, m s = (Err e, s') /\ r = Err e).
Proof.
  unfold bind. destruct (m s) as [[a | e] s1]; intros H.
  - left. eauto.
  - right. inversion H; subst. eauto.
Qed.

Lemma for_each_app {A} (l1 l2 : list A) (body : A -> M unit) s :
  for_each (l1 ++ l2) body s =
  match for_each l1 body s with
  | (Ok _, s1) => for_each l2 body s1
  | (Err e, s1) => (Err e, s1)
  end.
Proof.
  revert s. induction l1 as [| x l1 IH]; intros s; simpl.
  - reflexivity.
  - unfold bind. destruct (body x s) as [[[] | e] s1]; [apply IH | reflexivity].
Qed.

(** A loop keeps whatever every one of its iterations keeps. *)
Lemma for_each_invariant {A} (body : A -> M unit) (R : State -> State -> Prop) :
  (forall s, R s s) ->
  (forall s1 s2 s3, R s1 s2 -> R s2 s3 -> R s1 s3) ->
  (forall x s, R s (snd (body x s))) ->
  forall l s, R s (snd (for_each l body s)).
Proof.
  intros Hrefl Htrans Hbody l. induction l as [| x l IH]; intros s; simpl.
  - apply Hrefl.
  - unfold bind. specialize (Hbody x s).
    destruct (body x s) as [[[] | e] s1]; simpl in *.
    + eapply Htrans; [exact Hbody | apply IH].
    + exact Hbody.
Qed.

(** The trace of a loop: the traces of its iterations one after the other,
    cut at the first iteration that raises. *)
Inductive each_trace {A} (T : A -> Result unit -> list Event -> Prop)
  : list A -> Result unit -> list Event -> Prop :=
| each_done : each_trace T [] (Ok tt) []
| each_next x l r L1 L2 :
    T x (Ok tt) L1 -> each_trace T l r L2 -> each_trace T (x :: l) r (L1 ++ L2)
| each_stop x l e L1 :
    T x (Err e) L1 -> each_trace T (x :: l) (Err e) L1.

Lemma for_each_log {A} (body : A -> M unit)
    (T : A -> Result unit -> list Event -> Prop) :
  (forall x s r s', body x s = (r, s') ->
     exists L, s_log s' = s_log s ++ L /\ T x r L) ->
  forall l s r s', for_each l body s = (r, s') ->
     exists L, s_log s' = s_log s ++ L /\ each_trace T l r L.
Proof.
  intros Hbody l. induction l as [| x l IH]; intros s r s' H; simpl in H.
  - inversion H; subst. exists []. rewrite app_nil_r. split; [reflexivity | constructor].
  - apply bind_inv in H. destruct H as [([] & s1 & H1 & H2) | (e & H1 & ->)].
    + apply Hbody in H1. destruct H1 as (L1 & E1 & T1).
      apply IH in H2. destruct H2 as (L2 & E2 & T2).
      exists (L1 ++ L2). rewrite E2, E1, app_assoc. split; [reflexivity |].
      now constructor.
    + apply Hbody in H1. destruct H1 as (L1 & E1 & T1).
      exists L1. split; [exact E1 | now constructor].
Qed.

(** An operation that only talks to the hardware: the tree, the owner and
    the identity counter are left as they are. *)
Definition keeps_tree (s s' : State) : Prop :=
  s_owner s' = s_owner s /\ s_chassis s' = s_chassis s /\ s_next s' = s_next s.

Lemma keeps_tree_refl s : keeps_tree s s.
Proof. repeat split. Qed.

Lemma keeps_tree_trans s1 s2 s3 :
  keeps_tree s1 s2 -> keeps_tree s2 s3 -> keeps_tree s1 s3.
Proof. unfold keeps_tree. intros (?&?&?) (?&?&?). repeat split; congruence. Qed.

Lemma keeps_tree_set_log s s' L :
  keeps_tree s s' -> s_log s' = s_log s ++ L -> s' = set_log s (s_log s ++ L).
Proof.
  destruct s, s'. unfold keeps_tree, set_log. simpl.
  intros (-> & -> & ->) ->. reflexivity.
Qed.

(** An answer that is not a rejection. *)
Definition accepted (a : Response) : Prop := forall e, a <> Fail e.

(** How an answer that is not the expected kind of answer raises: the error
    of the hardware, or [ProtocolError] for an answer of another shape. *)
Definition answer_error (a : Response) (e : Error) : Prop :=
  a = Fail e \/ (e = ProtocolError /\ accepted a).

Section Primitives.
Variable hw : Hardware.

Lemma exchange_run r s :
  exchange hw r s = (Ok (hw (s_log s) r), set_log s (s_log s ++ [(r, hw (s_log s) r)])).
Proof. reflexivity. Qed.

Lemma acknowledged_inv a s r s' :
  acknowledged a s = (r, s') ->
  s' = s /\ ((r = Ok tt /\ forall e, a <> Fail e) \/ (exists e, a = Fail e /\ r = Err e)).
Proof.
  destruct a; simpl; unfold ret, raise; intros H; inversion H; subst;
    split; auto; try (left; split; [reflexivity | intros; discriminate]).
  right. eauto.
Qed.

Lemma keeps_tree_bind {A B} (m : M A) (f : A -> M B) :
  (forall s, keeps_tree s (snd (m s))) ->
  (forall a s, keeps_tree s (snd (f a s))) ->
  forall s, keeps_tree s (snd (bind m f s)).
Proof.
  intros Hm Hf s. unfold bind. specialize (Hm s).
  destruct (m s) as [[a | e] s1]; simpl in *.
  - eapply keeps_tree_trans; [exact Hm | apply Hf].
  - exact Hm.
Qed.

Lemma keeps_tree_exchange r s : keeps_tree s (snd (exchange hw r s)).
Proof. repeat split. Qed.

Lemma keeps_tree_acknowledged a s : keeps_tree s (snd (acknowledged a s)).
Proof. destruct a; repeat split. Qed.

Lemma keeps_tree_for_each {A} (body : A -> M unit) :
  (forall x s, keeps_tree s (snd (body x s))) ->
  forall l s, keeps_tree s (snd (for_each l body s)).
Proof.
  intros H l s.
  apply (for_each_invariant body keeps_tree keeps_tree_refl keeps_tree_trans H).
Qed.

Lemma keeps_tree_send_command ip ref cmd args s :
  keeps_tree s (snd (send_command hw ip ref cmd args s)).
Proof.
  apply keeps_tree_bind; intros; [apply keeps_tree_exchange | apply keeps_tree_acknowledged].
Qed.

Lemma keeps_tree_port_command p op s :
  keeps_tree s (snd (port_command hw p op s)).
Proof.
  apply keeps_tree_bind; intros; [apply keeps_tree_exchange | apply keeps_tree_acknowledged].
Qed.

Lemma keeps_tree_get_attribute ip ref attr s :
  keeps_tree s (snd (get_attribute hw ip ref attr s)).
Proof.
  apply keeps_tree_bind; intros; [apply keeps_tree_exchange |].
  destruct a; repeat split.
Qed.

Lemma keeps_tree_get_attributes ip ref attr s :
  keeps_tree s (snd (get_attributes hw ip ref attr s)).
Proof.
  apply keeps_tree_bind; intros; [apply keeps_tree_exchange |].
  destruct a; repeat split.
Qed.

Lemma keeps_tree_poll p attr expected budget s :
  keeps_tree s (snd (poll hw p attr expected budget s)).
Proof.
  revert s. induction budget as [| n IH]; intros s; simpl.
  - repeat split.
  - apply keeps_tree_bind; intros; [apply keeps_tree_get_attribute |].
    destruct (existsb _ _); [repeat split | apply IH].
Qed.

Lemma port_command_inv p op s r s' :
  port_command hw p op s = (r, s') ->
  exists a, s' = set_log s (s_log s ++ [(PortCommand (p_chassis p) (p_ref p) op, a)])
            /\ ((r = Ok tt /\ accepted a) \/ (exists e, a = Fail e /\ r = Err e)).
Proof.
  unfold port_command. intros H.
  rewrite (bind_ok _ _ _ (exchange_run _ _)) in H.
  apply acknowledged_inv in H. destruct H as [-> H]. eauto.
Qed.

Lemma send_command_inv ip ref cmd args s r s' :
  send_command hw ip ref cmd args s = (r, s') ->
  exists a, s' = set_log s (s_log s ++ [(Command ip ref cmd args, a)])
            /\ ((r = Ok tt /\ accepted a) \/ (exists e, a = Fail e /\ r = Err e)).
Proof.
  unfold send_command. intros H.
  rewrite (bind_ok _ _ _ (exchange_run _ _)) in H.
  apply acknowledged_inv in H. destruct H as [-> H]. eauto.
Qed.

Lemma get_attribute_inv ip ref attr s r s' :
  get_attribute hw ip ref attr s = (r, s') ->
  exists a, s' = set_log s (s_log s ++ [(GetAttribute ip ref attr, a)])
            /\ ((exists v, a = Value v /\ r = Ok v) \/
                ((forall v, a <> Value v) /\ exists e, answer_error a e /\ r = Err e)).
Proof.
  unfold get_attribute. intros H.
  rewrite (bind_ok _ _ _ (exchange_run _ _)) in H.
  exists (hw (s_log s) (GetAttribute ip ref attr)).
  destruct (hw (s_log s) (GetAttribute ip ref attr)) eqn:E;
    unfold ret, raise in H; inversion H; subst; split; auto;
    try (right; split; [intros; discriminate |]).
  - exists ProtocolError. split; [right; split; [reflexivity | intros e0; discriminate] | reflexivity].
  - left. eauto.
  - exists ProtocolError. split; [right; split; [reflexivity | intros e0; discriminate] | reflexivity].
  - exists e. split; [now left | reflexivity].
Qed.


End Primitives.

(** ** The state poller *)

Definition query (p : XenaPort) (attr : string) : Request :=
  GetAttribute (p_chassis p) (p_ref p) attr.

Definition missed (p : XenaPort) (attr : string) (v' : string) : Event :=
  (query p attr, Value v').

(** The attribute of [p] was queried until it read [v]: every earlier answer
    was another value, and no more than [timeout] queries were made. *)
Definition observed (attr v : string) (timeout : Z) (p : XenaPort)
    (L : list Event) : Prop :=
  exists misses,
    L = map (missed p attr) misses ++ [(query p attr, Value v)]
    /\ Forall (fun v' => v' <> v) misses
    /\ (Z.of_nat (length L) <= timeout)%Z.

(** The wait on [p] raised [e]: either [Timeout], after as many queries as
    the timeout has units, none of which read [v], or the error of a query
    that was not answered by a value. *)
Definition gave_up (attr v : string) (timeout : Z) (p : XenaPort) (e : Error)
    (L : list Event) : Prop :=
  exists misses,
    Forall (fun v' => v' <> v) misses
    /\ ((e = Timeout /\ L = map (missed p attr) misses
         /\ Z.of_nat (length misses) = Z.max 0 timeout)
        \/ (exists a, (forall v', a <> Value v') /\ answer_error a e
                      /\ L = map (missed p attr) misses ++ [(query p attr, a)]
                      /\ (Z.of_nat (length L) <= timeout)%Z)).

Definition wait_trace (attr v : string) (timeout : Z) (p : XenaPort)
    (r : Result unit) (L : list Event) : Prop :=
  match r with
  | Ok _ => observed attr v timeout p L
  | Err e => gave_up attr v timeout p e L
  end.

Lemma set_log_app s L1 L2 :
  set_log (set_log s (s_log s ++ L1)) (s_log (set_log s (s_log s ++ L1)) ++ L2)
  = set_log s (s_log s ++ L1 ++ L2).
Proof. destruct s; unfold set_log; simpl. now rewrite <- app_assoc. Qed.

Lemma set_log_nil s : s = set_log s (s_log s ++ []).
Proof. destruct s; unfold set_log; simpl. now rewrite app_nil_r. Qed.

Section Poller.
Variable hw : Hardware.

Lemma poll_inv p attr v n s r s' :
  poll hw p attr [v] n s = (r, s') ->
  exists L, s' = set_log s (s_log s ++ L)
    /\ wait_trace attr v (Z.of_nat n) p r L.
Proof.
  revert s r s'. induction n as [| n IH]; intros s r s' H.
  - simpl in H. unfold raise in H. inversion H; subst.
    exists []. split; [apply set_log_nil |].
    exists []. split; [constructor |]. left. repeat split.
  - cbn [poll] in H. apply bind_inv in H.
    destruct H as [(v' & s1 & H1 & H2) | (e & H1 & ->)].
    + apply get_attribute_inv in H1.
      destruct H1 as (a & -> & [(v0 & -> & Ev) | (_ & e & _ & Ee)]); [| discriminate].
      injection Ev as <-. cbn [existsb] in H2. rewrite orb_false_r in H2.
      destruct (String.eqb_spec v' v) as [Heq | Hne].
      * subst v'. unfold ret in H2. inversion H2; subst.
        eexists. split; [reflexivity |].
        exists []. repeat split; [constructor | simpl; lia].
      * apply IH in H2. destruct H2 as (L & -> & HT).
        exists ((query p attr, Value v') :: L). split.
        { apply (set_log_app s [_] L). }
        destruct r as [[] | e]; simpl in *.
        -- destruct HT as (misses & -> & HF & Hlen).
           exists (v' :: misses). repeat split; [now constructor |].
           simpl in *. lia.
        -- destruct HT as (misses & HF & HT).
           exists (v' :: misses). split; [now constructor |].
           destruct HT as [(-> & -> & Hlen) | (a & Hnv & Ha & -> & Hlen)].
           ++ left. repeat split. simpl. lia.
           ++ right. exists a. repeat split; [exact Hnv | exact Ha | simpl in *; lia].
    + apply get_attribute_inv in H1.
      destruct H1 as (a & -> & [(v0 & -> & Ev) | (Hnv & e' & Ha & Ee)]); [discriminate |].
      injection Ee as <-.
      exists [(query p attr, a)]. split; [reflexivity |].
      exists []. split; [constructor |]. right. exists a.
      repeat split; [exact Hnv | exact Ha | simpl; lia].
Qed.

Lemma wait_trace_timeout attr v n T p r L :
  Z.of_nat n = Z.max 0 T ->
  wait_trace attr v (Z.of_nat n) p r L -> wait_trace attr v T p r L.
Proof.
  intros HT. destruct r as [[] | e]; simpl.
  - intros (misses & -> & HF & Hlen). exists misses. repeat split; auto.
    rewrite length_app in *. simpl in *. lia.
  - intros (misses & HF & [(-> & -> & Hlen) | (a & Hnv & Ha & -> & Hlen)]);
      exists misses; (split; [exact HF |]).
    + left. repeat split. lia.
    + right. exists a. repeat split; auto.
      rewrite length_app in *. simpl in *. lia.
Qed.

Lemma wait_for_states_inv p attr T v s r s' :
  wait_for_states hw p attr T [v] s = (r, s') ->
  exists L, s' = set_log s (s_log s ++ L) /\ wait_trace attr v T p r L.
Proof.
  unfold wait_for_states. intros H. apply poll_inv in H.
  destruct H as (L & -> & HT). exists L. split; [reflexivity |].
  eapply wait_trace_timeout; [| exact HT]. lia.
Qed.

(** Waiting on each port of a list in turn. *)
Lemma wait_each_inv attr T v ports s r s' :
  for_each ports (fun port => wait_for_states hw port attr T [v]) s = (r, s') ->
  exists L, s' = set_log s (s_log s ++ L)
    /\ each_trace (wait_trace attr v T) ports r L.
Proof.
  intros H.
  assert (K : keeps_tree s s').
  { pose proof (keeps_tree_for_each
                  (fun port => wait_for_states hw port attr T [v])) as K.
    specialize (K (fun x s0 => keeps_tree_poll hw x attr [v] (Z.to_nat T) s0) ports s).
    rewrite H in K. exact K. }
  eapply for_each_log in H.
  - destruct H as (L & E & HT). exists L. split; [| exact HT].
    now apply keeps_tree_set_log.
  - intros x s0 r0 s0' H0. simpl in H0. apply wait_for_states_inv in H0.
    destruct H0 as (L & -> & HT). exists L. split; [reflexivity | exact HT].
Qed.
End Poller.

(** ** Strings *)

Module PyStrFacts.
Import PyStr.

Lemma split_nonempty c s : split c s <> [].
Proof.
  destruct s as [| x s]; simpl; [discriminate |].
  destruct (Ascii.eqb x c); [discriminate |].
  destruct (split c s); discriminate.
Qed.

Lemma split_lacks c s : lacks c s = true -> split c s = [s].
Proof.
  induction s as [| x s IH]; simpl; [reflexivity |].
  intros H. apply andb_prop in H. destruct H as [Hx Hs].
  apply negb_true_iff in Hx. rewrite Hx, (IH Hs). reflexivity.
Qed.

(** Splitting at a separator that was put between two strings. *)
Lemma split_app_sep c a b :
  split c (a ++ String c b) = split c a ++ split c b.
Proof.
  induction a as [| x a IH]; simpl.
  - now rewrite Ascii.eqb_refl.
  - destruct (Ascii.eqb x c); [now rewrite IH |].
    rewrite IH. pose proof (split_nonempty c a) as Hne.
    destruct (split c a); [contradiction | reflexivity].
Qed.

Lemma split_head c a b :
  lacks c a = true -> split c (a ++ String c b) = a :: split c b.
Proof. intros H. now rewrite split_app_sep, (split_lacks _ _ H). Qed.

(** The three segments of a location. *)
Lemma split_location ip m p :
  no_slash ip -> no_slash m -> no_slash p ->
  split slash (ip ++ "/" ++ m ++ "/" ++ p) = [ip; m; p].
Proof.
  unfold no_slash. intros Hi Hm Hp.
  change ("/" ++ m ++ "/" ++ p)%string with (String slash (m ++ String slash p)).
  rewrite (split_head _ _ _ Hi), (split_head _ _ _ Hm), (split_lacks _ _ Hp).
  reflexivity.
Qed.

Lemma split_cons_inv c x s l :
  split c (String x s) = l ->
  (Ascii.eqb x c = true /\ l = EmptyString :: split c s)
  \/ (Ascii.eqb x c = false /\
      exists h t, split c s = h :: t /\ l = String x h :: t).
Proof.
  simpl. destruct (Ascii.eqb x c); intros <-; [now left | right].
  split; [reflexivity |]. pose proof (split_nonempty c s) as Hne.
  destruct (split c s) as [| h t]; [contradiction | eauto].
Qed.

Lemma lacks_sound c s : lacks c s = true -> forall a b, s <> (a ++ String c b)%string.
Proof.
  induction s as [| x s IH]; simpl; intros H a b E.
  - destruct a; discriminate.
  - apply andb_prop in H. destruct H as [Hx Hs]. apply negb_true_iff in Hx.
    destruct a as [| y a]; simpl in E; injection E as -> ->.
    + now rewrite Ascii.eqb_refl in Hx.
    + now apply (IH Hs a b).
Qed.

Lemma concat_cons sep x y l :
  String.concat sep (x :: y :: l) = (x ++ sep ++ String.concat sep (y :: l))%string.
Proof. reflexivity. Qed.

(** Joining the segments of a split with the separator gives the string
    back. *)
Lemma join_split c s : String.concat (String c EmptyString) (split c s) = s.
Proof.
  induction s as [| x s IH]; [reflexivity |].
  destruct (split_cons_inv c x s eq_refl) as [(Hx & E) | (Hx & h & t & Es & E)];
    rewrite E.
  - apply Ascii.eqb_eq in Hx. subst x.
    pose proof (split_nonempty c s) as Hne.
    destruct (split c s) as [| h t] eqn:Es; [contradiction |].
    rewrite concat_cons, IH. reflexivity.
  - rewrite Es in IH. destruct t as [| h' t].
    + simpl in *. now subst.
    + rewrite concat_cons in IH |- *. rewrite <- IH. reflexivity.
Qed.

Lemma split_three c s a b d :
  split c s = [a; b; d] ->
  s = (a ++ String c (b ++ String c d))%string.
Proof.
  intros H. rewrite <- (join_split c s), H. reflexivity.
Qed.

Lemma split_segments_lack c s : Forall (fun t => lacks c t = true) (split c s).
Proof.
  induction s as [| x s IH]; [repeat constructor |].
  destruct (split_cons_inv c x s eq_refl) as [(Hx & E) | (Hx & h & t & Es & E)];
    rewrite E.
  - constructor; [reflexivity | exact IH].
  - rewrite Es in IH. inversion IH; subst. constructor; [| assumption].
    simpl. now rewrite Hx.
Qed.

Lemma hd_split_lacks c s : lacks c (hd EmptyString (split c s)) = true.
Proof.
  pose proof (split_segments_lack c s) as H.
  destruct (split c s); [reflexivity | now inversion H].
Qed.

Lemma split_replace a b s :
  lacks b s = true -> split b (replace a b s) = split a s.
Proof.
  induction s as [| x s IH]; simpl; [reflexivity |].
  intros H. apply andb_prop in H. destruct H as [Hx Hs].
  apply negb_true_iff in Hx.
  destruct (Ascii.eqb x a) eqn:Exa.
  - now rewrite Ascii.eqb_refl, (IH Hs).
  - now rewrite Hx, (IH Hs).
Qed.

Lemma split_join c x l :
  split c (String.concat (String c EmptyString) (x :: l))
  = flat_map (split c) (x :: l).
Proof.
  revert x. induction l as [| y l IH]; intros x.
  - simpl. now rewrite app_nil_r.
  - rewrite concat_cons.
    change (String c EmptyString ++ String.concat (String c EmptyString) (y :: l))%string
      with (String c (String.concat (String c EmptyString) (y :: l))).
    rewrite split_app_sep, IH. reflexivity.
Qed.

End PyStrFacts.

(** ** A small test bench

    A hardware whose ports report [on] for the first three queries after a
    traffic-on command and [off] otherwise, which acknowledges every command
    and describes a chassis of three slots, the middle one empty. *)

Fixpoint bench_traffic (newest_first : list Event) (queries : nat) : string :=
  match newest_first with
  | [] => "off"
  | (Command _ _ cmd args, _) :: older =>
      if String.eqb cmd "c_traffic" then
        if String.eqb (hd EmptyString args) "on" && (queries <? 3) then "on" else "off"
      else bench_traffic older queries
  | (GetAttribute _ _ _, _) :: older => bench_traffic older (S queries)
  | _ :: older => bench_traffic older queries
  end.

Definition bench : Hardware :=
  fun log r =>
    match r with
    | GetAttribute _ _ attr =>
        if String.eqb attr "p_traffic" then Value (bench_traffic (rev log) 0)
        else if String.eqb attr "m_portcount" then Value "2"
        else Value "4 100G"
    | GetAttributes _ ref attr =>
        if String.eqb attr "c_info" then Mapping [("c_portcounts", "2 0 4")]
        else if String.eqb ref "0" then Mapping [("m_cfptype", "NOTCFP")]
        else Mapping [("m_cfptype", "CFP4")]
    | _ => Ack
    end.

Definition bench_chassis_a : string := "10.0.0.1".
Definition bench_chassis_b : string := "10.0.0.2".

(** A session with two chassis and no port yet. *)
Definition bench_connected : State :=
  Eval vm_compute in
    snd (add_chassis bench bench_chassis_b 22611 "xena"
           (snd (add_chassis bench bench_chassis_a 22611 "xena"
                   (XenaSession_init "tester")))).

Definition bench_locations : list string :=
  ["10.0.0.1/0/0"; "10.0.0.2/2/1"; "10.0.0.1/0/1"].

(** The same session once three ports are reserved. *)
Definition bench_reserved : State :=
  Eval vm_compute in
    snd (session_reserve_ports bench bench_locations false bench_connected).

Definition bench_a : XenaChassis :=
  Eval vm_compute in
    match s_chassis bench_reserved with
    | c :: _ => c
    | [] => mkChassis 0 EmptyString None []
    end.

(** ** Chassis traffic commands *)

Section TrafficCommand.
Variable hw : Hardware.

Lemma observed_queries attr v T p L :
  observed attr v T p L -> Forall (fun e => fst e = query p attr) L.
Proof.
  intros (misses & -> & _ & _). apply Forall_app. split.
  - apply Forall_forall. intros e He. apply in_map_iff in He.
    now destruct He as (v' & <- & _).
  - now repeat constructor.
Qed.

Lemma gave_up_queries attr v T p e L :
  gave_up attr v T p e L -> Forall (fun e => fst e = query p attr) L.
Proof.
  assert (Hm : forall misses, Forall (fun e => fst e = query p attr)
                                (map (missed p attr) misses)).
  { intros misses. apply Forall_forall. intros x Hx. apply in_map_iff in Hx.
    now destruct Hx as (v' & <- & _). }
  intros (misses & _ & [(_ & -> & _) | (a & _ & _ & -> & _)]).
  - apply Hm.
  - apply Forall_app. split; [apply Hm | now repeat constructor].
Qed.

Lemma each_wait_queries attr v T ports r L :
  each_trace (wait_trace attr v T) ports r L ->
  Forall (fun e => exists p, In p ports /\ fst e = query p attr) L.
Proof.
  induction 1 as [| p ps r L1 L2 H1 _ IH | p ps e L1 H1].
  - constructor.
  - apply Forall_app. split.
    + apply observed_queries in H1. eapply Forall_impl; [| exact H1].
      intros e He. exists p. split; [now left | exact He].
    + eapply Forall_impl; [| exact IH].
      intros e (q & Hq & He). exists q. split; [now right | exact He].
  - apply gave_up_queries in H1. eapply Forall_impl; [| exact H1].
    intros e' He. exists p. split; [now left | exact He].
Qed.

(** The tokens of the combined argument are the index pairs of the ports. *)
Lemma ports_str_tokens ports :
  ports <> [] ->
  Forall (fun p => PyStr.lacks PyStr.blank (p_ref p) = true) ports ->
  PyStr.split PyStr.blank (ports_str ports)
  = flat_map (fun p => PyStr.split PyStr.slash (p_ref p)) ports.
Proof.
  intros Hne HF.
  assert (G : flat_map (PyStr.split PyStr.blank)
                (map (fun p => PyStr.replace PyStr.slash PyStr.blank (p_ref p)) ports)
              = flat_map (fun p => PyStr.split PyStr.slash (p_ref p)) ports).
  { clear Hne. induction HF as [| p ps Hp _ IH]; [reflexivity |].
    cbn [map flat_map]. rewrite IH, (PyStrFacts.split_replace _ _ _ Hp). reflexivity. }
  rewrite <- G. unfold ports_str, PyStr.join.
  change " " with (String PyStr.blank EmptyString).
  destruct ports as [| x l]; [contradiction |].
  cbn [map]. apply PyStrFacts.split_join.
Qed.

Lemma chassis_traffic_command_inv self command ports s r s' :
  chassis_traffic_command hw self command ports s = (r, s') ->
  exists a polls,
    s' = set_log s
           (s_log s ++
            (Command (c_name self) EmptyString "c_traffic"
               [command; ports_str (chassis_get_operation_ports self ports)], a)
            :: polls)
    /\ ((exists e, a = Fail e /\ r = Err e /\ polls = [])
        \/ (accepted a
            /\ each_trace (wait_trace "p_traffic" command 40)
                 (chassis_get_operation_ports self ports) r polls)).
Proof.
  unfold chassis_traffic_command. intros H. apply bind_inv in H.
  destruct H as [([] & s1 & H1 & H2) | (e & H1 & ->)];
    apply send_command_inv in H1;
    destruct H1 as (a & E1 & [(Er & Ha) | (e' & Ha & Er)]); try discriminate.
  - subst s1. apply wait_each_inv in H2. destruct H2 as (L & -> & HT).
    exists a, L. split; [apply (set_log_app s [_] L) | right; now split].
  - injection Er as <-. subst. exists (Fail e), []. split; [reflexivity |].
    left. exists e. repeat split.
Qed.

Lemma chassis_wait_traffic_inv self ports s r s' :
  chassis_wait_traffic hw self ports s = (r, s') ->
  exists L, s' = set_log s (s_log s ++ L)
    /\ each_trace (wait_trace "p_traffic" "off" 2628000) ports r L.
Proof. apply wait_each_inv. Qed.

End TrafficCommand.

(** C4. A chassis traffic command ([on] for a start that does not block,
    [off] for a stop) over the ports [P] appends to the log one [c_traffic]
    command, whose second argument is the references of [P] with their
    slashes turned into blanks and joined by blanks (so its tokens are the
    module and port indices of [P] in order), followed by nothing but
    [p_traffic] queries: each port of [P] in turn is polled until it reads
    the commanded value, within 40 queries.  [wait_traffic] polls each port
    for [off] within 2628000 queries.  With no port given, [P] is every port
    of the chassis. *)
Theorem traffic_command_then_short_polls
    (hw : Hardware) (self : XenaChassis) (command : string)
    (ports wports : list XenaPort) (s s' sw sw' : State) (r rw : Result unit)
    (Hcmd : chassis_traffic_command hw self command ports s = (r, s'))
    (Hwait : chassis_wait_traffic hw self wports sw = (rw, sw')) :
  let P := chassis_get_operation_ports self ports in
  (ports <> [] -> P = ports)
  /\ (exists a polls,
         s' = set_log s
                (s_log s ++
                 (Command (c_name self) EmptyString "c_traffic"
                    [command; ports_str P], a) :: polls)
         /\ Forall (fun e => exists p, In p P /\ fst e = query p "p_traffic") polls
         /\ ((exists e, a = Fail e /\ r = Err e /\ polls = [])
             \/ (accepted a
                 /\ each_trace (wait_trace "p_traffic" command 40) P r polls)))
  /\ (P <> [] ->
      Forall (fun p => PyStr.lacks PyStr.blank (p_ref p) = true) P ->
      PyStr.split PyStr.blank (ports_str P)
      = flat_map (fun p => PyStr.split PyStr.slash (p_ref p)) P)
  /\ (exists L, sw' = set_log sw (s_log sw ++ L)
                /\ each_trace (wait_trace "p_traffic" "off" 2628000) wports rw L)
  /\ chassis_stop_traffic hw self ports = chassis_traffic_command hw self "off" ports
  /\ (forall t, chassis_start_traffic hw self false ports t
                = chassis_traffic_command hw self "on" ports t).
Proof.
  intros P. split; [| split; [| split; [| split; [| split]]]].
  - intros Hne. unfold P. destruct ports; [contradiction | reflexivity].
  - apply chassis_traffic_command_inv in Hcmd.
    destruct Hcmd as (a & polls & E & Hr). exists a, polls.
    split; [exact E | split; [| exact Hr]].
    destruct Hr as [(e & _ & _ & ->) | (_ & HT)]; [constructor |].
    eapply each_wait_queries; exact HT.
  - apply ports_str_tokens.
  - eapply chassis_wait_traffic_inv; exact Hwait.
  - reflexivity.
  - intros t. unfold chassis_start_traffic, bind.
    now destruct (chassis_traffic_command hw self "on" ports t) as [[[] | e] t1].
Qed.

(** On the test bench: a start over the two ports of the first chassis, then
    the wait for the end of the run. *)
Lemma traffic_command_then_short_polls_witness :
  exists s' sw',
    chassis_traffic_command bench bench_a "on" [] bench_reserved = (Ok tt, s')
    /\ chassis_wait_traffic bench bench_a
         (dict_values (chassis_ports bench_a)) s' = (Ok tt, sw')
    /\ (exists a polls,
           s' = set_log bench_reserved
                  (s_log bench_reserved ++
                   (Command bench_chassis_a EmptyString "c_traffic"
                      ["on"; "0 0 0 1"], a) :: polls)
           /\ Forall (fun e => exists p, In p (dict_values (chassis_ports bench_a))
                                        /\ fst e = query p "p_traffic") polls)
    /\ (exists L, sw' = set_log s' (s_log s' ++ L)
                  /\ each_trace (wait_trace "p_traffic" "off" 2628000)
                       (dict_values (chassis_ports bench_a)) (Ok tt) L).
Proof.
  eexists. eexists.
  assert (H1 : chassis_traffic_command bench bench_a "on" [] bench_reserved
               = (Ok tt, snd (chassis_traffic_command bench bench_a "on" [] bench_reserved)))
    by (vm_compute; reflexivity).
  assert (H2 : chassis_wait_traffic bench bench_a (dict_values (chassis_ports bench_a))
                 (snd (chassis_traffic_command bench bench_a "on" [] bench_reserved))
               = (Ok tt, snd (chassis_wait_traffic bench bench_a
                                (dict_values (chassis_ports bench_a))
                                (snd (chassis_traffic_command bench bench_a "on" []
                                        bench_reserved)))))
    by (vm_compute; reflexivity).
  split; [exact H1 | split; [exact H2 |]].
  destruct (@traffic_command_then_short_polls _ _ _ _ _ _ _ _ _ _ _ H1 H2)
    as (_ & (a & polls & E & F & _) & _ & W & _).
  split; [exists a, polls; split; [exact E | exact F] | exact W].
Defined.

(** ** Dictionaries *)

Section DictFacts.
Variables K V : Type.
Variable keq : K -> K -> bool.
Hypothesis keq_spec : forall a b, keq a b = true <-> a = b.

Lemma keq_refl (k : K) : keq k k = true.
Proof. now apply keq_spec. Qed.

Lemma keq_neq (a b : K) : a <> b -> keq a b = false.
Proof.
  intros H. destruct (keq a b) eqn:E; [| reflexivity].
  apply keq_spec in E. contradiction.
Qed.

Lemma dict_mem_keys k (d : dict K V) :
  dict_mem keq k d = true <-> In k (dict_keys d).
Proof.
  unfold dict_mem. induction d as [| [k0 v0] d IH]; simpl.
  - split; [discriminate | contradiction].
  - destruct (keq k0 k) eqn:E.
    + apply keq_spec in E. split; [now left | reflexivity].
    + rewrite IH. split; [now right |].
      intros [-> | H]; [now rewrite keq_refl in E | exact H].
Qed.

Lemma dict_keys_set k v (d : dict K V) :
  dict_keys (dict_set keq k v d)
  = if dict_mem keq k d then dict_keys d else dict_keys d ++ [k].
Proof.
  unfold dict_mem. induction d as [| [k0 v0] d IH]; simpl.
  - reflexivity.
  - destruct (keq k0 k) eqn:E; simpl; [reflexivity |].
    unfold dict_keys in *. rewrite IH.
    destruct (dict_get keq k d); reflexivity.
Qed.

Lemma dict_keys_set_in k v k' (d : dict K V) :
  In k' (dict_keys (dict_set keq k v d)) <-> k' = k \/ In k' (dict_keys d).
Proof.
  rewrite dict_keys_set. destruct (dict_mem keq k d) eqn:E.
  - apply dict_mem_keys in E. split; [now right |].
    intros [-> | H]; assumption.
  - rewrite in_app_iff. simpl. split.
    + intros [H | [<- | []]]; auto.
    + intros [-> | H]; auto.
Qed.

Lemma dict_keys_set_nodup k v (d : dict K V) :
  NoDup (dict_keys d) -> NoDup (dict_keys (dict_set keq k v d)).
Proof.
  intros H. rewrite dict_keys_set. destruct (dict_mem keq k d) eqn:E; [exact H |].
  apply NoDup_app; [exact H | repeat constructor; intros [] |].
  intros x Hx [<- | []].
  apply dict_mem_keys in Hx. congruence.
Qed.

Lemma dict_keys_update_in k (items : list (K * V)) (d : dict K V) :
  In k (dict_keys (dict_update keq d items))
  <-> In k (dict_keys d) \/ In k (map fst items).
Proof.
  unfold dict_update. revert d. induction items as [| [k0 v0] items IH]; intros d; simpl.
  - tauto.
  - rewrite IH, dict_keys_set_in. intuition auto.
Qed.

Lemma dict_keys_update_nodup (items : list (K * V)) (d : dict K V) :
  NoDup (dict_keys d) -> NoDup (dict_keys (dict_update keq d items)).
Proof.
  unfold dict_update. revert d. induction items as [| [k0 v0] items IH]; intros d H; simpl.
  - exact H.
  - apply IH. now apply dict_keys_set_nodup.
Qed.

Lemma dict_values_set_in k v x (d : dict K V) :
  In x (dict_values (dict_set keq k v d)) -> x = v \/ In x (dict_values d).
Proof.
  induction d as [| [k0 v0] d IH]; simpl.
  - intros [<- | []]. now left.
  - destruct (keq k0 k); simpl.
    + intros [<- | H]; auto.
    + intros [<- | H]; auto. destruct (IH H); auto.
Qed.

Lemma dict_values_update_in x (items : list (K * V)) (d : dict K V) :
  In x (dict_values (dict_update keq d items))
  -> In x (dict_values d) \/ In x (map snd items).
Proof.
  unfold dict_update. revert d. induction items as [| [k0 v0] items IH]; intros d; simpl.
  - now left.
  - intros H. apply IH in H. destruct H as [H | H]; [| auto].
    apply dict_values_set_in in H. destruct H as [-> | H]; auto.
Qed.

Lemma dict_get_in k v (d : dict K V) :
  dict_get keq k d = Some v -> In (k, v) d.
Proof.
  induction d as [| [k0 v0] d IH]; simpl; [discriminate |].
  destruct (keq k0 k) eqn:E.
  - apply keq_spec in E. subst k0. intros [= ->]. now left.
  - intros H. right. now apply IH.
Qed.

Lemma dict_in_get k v (d : dict K V) :
  NoDup (dict_keys d) -> In (k, v) d -> dict_get keq k d = Some v.
Proof.
  induction d as [| [k0 v0] d IH]; simpl; [contradiction |].
  intros Hnd [E | H].
  - injection E as -> ->. now rewrite keq_refl.
  - inversion Hnd as [| ? ? Hnot Hnd']; subst.
    destruct (keq k0 k) eqn:E.
    + apply keq_spec in E. subst k0. exfalso. apply Hnot.
      apply in_map_iff. now exists (k, v).
    + now apply IH.
Qed.

Lemma dict_get_set_same k v (d : dict K V) :
  dict_get keq k (dict_set keq k v d) = Some v.
Proof.
  induction d as [| [k0 v0] d IH]; simpl.
  - now rewrite keq_refl.
  - destruct (keq k0 k) eqn:E; simpl; rewrite E; [reflexivity | exact IH].
Qed.

Lemma dict_get_set_other k v k' (d : dict K V) :
  k' <> k -> dict_get keq k' (dict_set keq k v d) = dict_get keq k' d.
Proof.
  intros Hne. induction d as [| [k0 v0] d IH]; simpl.
  - rewrite keq_neq; [reflexivity | congruence].
  - destruct (keq k0 k) eqn:E; simpl.
    + apply keq_spec in E. subst k0. rewrite keq_neq; [reflexivity | congruence].
    + now rewrite IH.
Qed.

(** After an update the value of a key is the one of its last item. *)
Lemma dict_get_update_last k (items : list (K * V)) (d : dict K V) :
  ~ In k (map fst items) ->
  dict_get keq k (dict_update keq d (items)) = dict_get keq k d.
Proof.
  unfold dict_update. revert d. induction items as [| [k0 v0] items IH]; intros d H; simpl.
  - reflexivity.
  - simpl in H. rewrite IH by tauto. apply dict_get_set_other. intros ->. tauto.
Qed.

Lemma dict_get_update_app k v (before after : list (K * V)) (d : dict K V) :
  ~ In k (map fst after) ->
  dict_get keq k (dict_update keq d (before ++ (k, v) :: after)) = Some v.
Proof.
  intros H. unfold dict_update. rewrite fold_left_app. simpl.
  fold (dict_update keq
          (dict_set keq k v (fold_left (fun acc kv => dict_set keq (fst kv) (snd kv) acc) before d))
          after).
  rewrite (dict_get_update_last _ _ _ H). apply dict_get_set_same.
Qed.

(** Items with pairwise different keys, none of them in the dictionary, are
    added at its end as they come. *)
Lemma dict_update_fresh (items : list (K * V)) (d : dict K V) :
  NoDup (dict_keys d ++ map fst items) -> dict_update keq d items = d ++ items.
Proof.
  unfold dict_update. revert d. induction items as [| [k0 v0] items IH]; intros d H; simpl.
  - now rewrite app_nil_r.
  - assert (Hset : dict_set keq k0 v0 d = d ++ [(k0, v0)]).
    { apply NoDup_remove_2 in H. clear IH.
      assert (Hn : ~ In k0 (dict_keys d)) by (intros Hin; apply H, in_or_app; now left).
      clear H. induction d as [| [k1 v1] d IHd]; simpl; [reflexivity |].
      simpl in Hn. rewrite keq_neq by (intros ->; tauto).
      rewrite IHd by tauto. reflexivity. }
    rewrite Hset, IH.
    + now rewrite <- app_assoc.
    + unfold dict_keys in *. rewrite map_app. simpl. rewrite <- app_assoc. exact H.
Qed.

Lemma dict_set_in k v k0 v0 (d : dict K V) :
  In (k, v) (dict_set keq k0 v0 d) -> (k = k0 /\ v = v0) \/ In (k, v) d.
Proof.
  induction d as [| [k1 v1] d IH]; simpl.
  - intros [E | []]. injection E as <- <-. now left.
  - destruct (keq k1 k0) eqn:E1; simpl.
    + apply keq_spec in E1. subst k1. intros [E | H]; [| auto].
      injection E as <- <-. now left.
    + intros [E | H]; [auto |]. destruct (IH H); auto.
Qed.

(** A dictionary built from values keyed by a function of the value. *)
Lemma dict_update_keyed (f : V -> K) (l : list V) (d : dict K V) :
  (forall k v, In (k, v) d -> k = f v) ->
  forall k v, In (k, v) (dict_update keq d (map (fun x => (f x, x)) l)) -> k = f v.
Proof.
  unfold dict_update. revert d. induction l as [| x l IH]; intros d Hd k v; simpl.
  - apply Hd.
  - apply IH. intros k' v' H. apply dict_set_in in H.
    destruct H as [(-> & ->) | H]; [reflexivity | now apply Hd].
Qed.

(** The same for any items that are keyed by the function. *)
Lemma dict_update_keyed_items (f : V -> K) (items : list (K * V)) (d : dict K V) :
  (forall k v, In (k, v) d -> k = f v) ->
  (forall k v, In (k, v) items -> k = f v) ->
  forall k v, In (k, v) (dict_update keq d items) -> k = f v.
Proof.
  unfold dict_update. revert d. induction items as [| [k0 v0] items IH];
    intros d Hd Hi k v; simpl.
  - apply Hd.
  - apply IH.
    + intros k' v' H. apply dict_set_in in H.
      destruct H as [(-> & ->) | H]; [apply Hi; now left | now apply Hd].
    + intros k' v' H. apply Hi. now right.
Qed.

(** The values of a dictionary keyed by a function of the value, mapped by
    that function, are its keys. *)
Lemma dict_keyed_values (f : V -> K) (d : dict K V) :
  (forall k v, In (k, v) d -> k = f v) -> map f (dict_values d) = dict_keys d.
Proof.
  induction d as [| [k v] d IH]; intros H; [reflexivity |].
  simpl. rewrite IH by (intros k' v' Hin; apply H; now right).
  now rewrite <- (H k v (or_introl eq_refl)).
Qed.

End DictFacts.

(** ** Views of the tree *)

Lemma only_ports_app l1 l2 : only_ports (l1 ++ l2) = only_ports l1 ++ only_ports l2.
Proof. apply flat_map_app. Qed.

Lemma only_chassis_app l1 l2 :
  only_chassis (l1 ++ l2) = only_chassis l1 ++ only_chassis l2.
Proof. apply flat_map_app. Qed.


Lemma only_chassis_child ch : only_chassis (child_descendants ch) = [].
Proof.
  destruct ch as [m | p]; simpl; [| reflexivity].
  unfold module_descendants. induction (m_children m); simpl; auto.
Qed.

Lemma only_chassis_chassis c : only_chassis (chassis_descendants c) = [].
Proof.
  unfold chassis_descendants. induction (c_children c) as [| ch l IH]; simpl.
  - reflexivity.
  - now rewrite only_chassis_app, only_chassis_child, IH.
Qed.

(** The chassis of a session are the children of the session. *)
Lemma session_get_chassis_children s : session_get_chassis s = s_chassis s.
Proof.
  unfold session_get_chassis, session_descendants.
  induction (s_chassis s) as [| c l IH]; simpl.
  - reflexivity.
  - now rewrite only_chassis_app, only_chassis_chassis, IH.
Qed.

Lemma chassis_get_ports_add_port c p :
  chassis_get_ports (add_child (ChildPort p) c) = chassis_get_ports c ++ [p].
Proof.
  unfold chassis_get_ports, chassis_descendants, add_child. simpl.
  now rewrite flat_map_app, only_ports_app.
Qed.

Lemma chassis_list_mem name s :
  dict_mem String.eqb name (chassis_list s) = true
  <-> In name (map c_name (s_chassis s)).
Proof.
  rewrite (dict_mem_keys _ String.eqb_eq). unfold chassis_list.
  rewrite (dict_keys_update_in _ String.eqb_eq), session_get_chassis_children.
  rewrite map_map. simpl. tauto.
Qed.

Lemma chassis_list_get name c s :
  dict_get String.eqb name (chassis_list s) = Some c ->
  In c (s_chassis s) /\ c_name c = name.
Proof.
  intros H. pose proof H as Hk. apply (dict_get_in _ String.eqb_eq) in H.
  assert (Hv : In c (dict_values (chassis_list s))).
  { apply in_map_iff. now exists (name, c). }
  unfold chassis_list in Hv. apply dict_values_update_in in Hv.
  rewrite session_get_chassis_children, map_map in Hv. simpl in Hv.
  destruct Hv as [[] | Hv]. rewrite map_id in Hv. split; [exact Hv |].
  (* the value under a key has that key for name *)
  clear Hv H. unfold chassis_list in Hk. rewrite session_get_chassis_children in Hk.
  revert Hk. generalize (s_chassis s) as cs. intros cs.
  assert (G : forall d : dict string XenaChassis,
             (forall k v, dict_get String.eqb k d = Some v -> c_name v = k) ->
             forall k v,
               dict_get String.eqb k
                 (dict_update String.eqb d (map (fun c0 => (c_name c0, c0)) cs)) = Some v ->
               c_name v = k).
  { induction cs as [| c0 cs IH]; intros d Hd k v; simpl.
    - apply Hd.
    - apply IH. intros k' v' Hg.
      destruct (string_dec k' (c_name c0)) as [-> | Hne].
      + rewrite (dict_get_set_same _ String.eqb_eq) in Hg. now injection Hg as <-.
      + rewrite (dict_get_set_other _ String.eqb_eq) in Hg by exact Hne. now apply Hd. }
  apply G. intros k v. discriminate.
Qed.

(** ** Reserving ports on a chassis *)

(** The chassis list once [ch] is registered under the chassis [cid]. *)
Definition attach (cid : nat) (ch : Child) (cs : list XenaChassis)
  : list XenaChassis :=
  map (fun c => if Nat.eqb (c_id c) cid then add_child ch c else c) cs.

Lemma find_chassis_attach cid ch cs :
  find (fun c => Nat.eqb (c_id c) cid) (attach cid ch cs)
  = option_map (add_child ch) (find (fun c => Nat.eqb (c_id c) cid) cs).
Proof.
  induction cs as [| c cs IH]; simpl; [reflexivity |].
  destruct (Nat.eqb (c_id c) cid) eqn:E; simpl; rewrite E; [reflexivity | exact IH].
Qed.

Lemma attach_names cid ch cs : map c_name (attach cid ch cs) = map c_name cs.
Proof.
  unfold attach. rewrite map_map. apply map_ext. intros c.
  now destruct (Nat.eqb (c_id c) cid).
Qed.

Lemma attach_ids cid ch cs : map c_id (attach cid ch cs) = map c_id cs.
Proof.
  unfold attach. rewrite map_map. apply map_ext. intros c.
  now destruct (Nat.eqb (c_id c) cid).
Qed.

Definition reserve_request (self : XenaChassis) (force : bool) (loc : string)
  : Request := PortCommand (c_name self) loc (Reserve force).

Definition reset_request (self : XenaChassis) (loc : string) : Request :=
  PortCommand (c_name self) loc Reset.

(** What one round of the reservation loop leaves in the log: a reservation,
    and a reset only after the reservation was accepted. *)
Definition reserve_step (self : XenaChassis) (force : bool) (loc : string)
    (r : Result unit) (L : list Event) : Prop :=
  exists a1,
    (exists e, a1 = Fail e /\ r = Err e /\ L = [(reserve_request self force loc, a1)])
    \/ (accepted a1
        /\ exists a2,
             L = [(reserve_request self force loc, a1); (reset_request self loc, a2)]
             /\ ((accepted a2 /\ r = Ok tt) \/ (exists e, a2 = Fail e /\ r = Err e))).

Section ReservePorts.
Variable hw : Hardware.
Variable self : XenaChassis.
Variable force : bool.

Definition reserve_body (location : string) : M unit :=
  port <- XenaPort_under_chassis self location ;;
  port_reserve hw port force ;;
  port_reset hw port.

Lemma XenaPort_under_chassis_run index s :
  XenaPort_under_chassis self index s
  = (Ok (mkPort (s_next s) (c_name self) index),
     mkState (s_owner s)
       (attach (c_id self) (ChildPort (mkPort (s_next s) (c_name self) index))
          (s_chassis s))
       (S (s_next s)) (s_log s)).
Proof. reflexivity. Qed.

Lemma reserve_body_inv loc s r s' :
  reserve_body loc s = (r, s') ->
  (exists L, s_log s' = s_log s ++ L /\ reserve_step self force loc r L)
  /\ s_chassis s'
     = attach (c_id self) (ChildPort (mkPort (s_next s) (c_name self) loc)) (s_chassis s)
  /\ s_next s' = S (s_next s)
  /\ s_owner s' = s_owner s.
Proof.
  unfold reserve_body. intros H.
  rewrite (bind_ok _ _ _ (XenaPort_under_chassis_run loc s)) in H.
  apply bind_inv in H. destruct H as [([] & s1 & H1 & H2) | (e & H1 & ->)].
  - apply port_command_inv in H1.
    destruct H1 as (a1 & -> & [(_ & Ha1) | (e & _ & Ee)]); [| discriminate].
    apply port_command_inv in H2. destruct H2 as (a2 & -> & Hr).
    split; [| repeat split].
    exists [(reserve_request self force loc, a1); (reset_request self loc, a2)].
    split; [simpl; now rewrite <- app_assoc |].
    exists a1. right. split; [exact Ha1 |]. exists a2. split; [reflexivity |].
    destruct Hr as [(-> & Ha2) | (e & -> & ->)]; [left; now split | right; eauto].
  - apply port_command_inv in H1.
    destruct H1 as (a1 & -> & [(Er & _) | (e' & -> & Ee)]); [discriminate |].
    injection Ee as <-. split; [| repeat split].
    exists [(reserve_request self force loc, Fail e)]. split; [reflexivity |].
    exists (Fail e). left. exists e. repeat split.
Qed.

Lemma chassis_reserve_ports_unfold locations :
  chassis_reserve_ports hw self locations force
  = (for_each locations reserve_body ;;
     c <- live_chassis (c_id self) ;; ret (chassis_ports c)).
Proof. reflexivity. Qed.

(** The ports that the rounds of the loop construct, from the identity
    counter [n] on. *)
Fixpoint fresh_ports (n : nat) (locations : list string) : list XenaPort :=
  match locations with
  | [] => []
  | loc :: rest => mkPort n (c_name self) loc :: fresh_ports (S n) rest
  end.

Definition add_children (ps : list XenaPort) (c : XenaChassis) : XenaChassis :=
  mkChassis (c_id c) (c_name c) (c_info c) (c_children c ++ map ChildPort ps).


End ReservePorts.

Section ReserveTrace.
Variable self : XenaChassis.
Variable force : bool.

Lemma reserve_step_ok loc L :
  reserve_step self force loc (Ok tt) L ->
  exists a1 a2,
    L = [(reserve_request self force loc, a1); (reset_request self loc, a2)]
    /\ accepted a1 /\ accepted a2.
Proof.
  intros (a1 & [(e & _ & Er & _) | (Ha1 & a2 & -> & [(Ha2 & _) | (e & _ & Er)])]);
    try discriminate.
  exists a1, a2. repeat split; assumption.
Qed.

Lemma each_reserve_ok locations L :
  each_trace (reserve_step self force) locations (Ok tt) L ->
  map fst L
  = flat_map (fun loc => [reserve_request self force loc; reset_request self loc])
      locations
  /\ Forall accepted (map snd L).
Proof.
  intros H. remember (Ok tt) as r eqn:Er.
  induction H as [| loc l r L1 L2 H1 _ IH | loc l e L1 H1]; subst.
  - split; [reflexivity | constructor].
  - apply reserve_step_ok in H1. destruct H1 as (a1 & a2 & -> & Ha1 & Ha2).
    destruct (IH eq_refl) as (IH1 & IH2). simpl. rewrite IH1.
    split; [reflexivity | now repeat constructor].
  - discriminate.
Qed.

(** In the log of the loop a reset comes right after the accepted
    reservation of the same port, whether the loop ends well or not. *)
Lemma each_reserve_reset_after locations r L :
  each_trace (reserve_step self force) locations r L ->
  forall pre ip ref a post,
    L = pre ++ (PortCommand ip ref Reset, a) :: post ->
    exists pre' a',
      pre = pre' ++ [(PortCommand ip ref (Reserve force), a')] /\ accepted a'.
Proof.
  induction 1 as [| loc l r L1 L2 H1 _ IH | loc l e L1 H1];
    intros pre ip ref a post E.
  - destruct pre; discriminate.
  - apply reserve_step_ok in H1. destruct H1 as (a1 & a2 & -> & Ha1 & _).
    destruct pre as [| e1 [| e2 pre2]]; simpl in E.
    + discriminate.
    + unfold reset_request, reserve_request in *. inversion E; subst.
      exists [], a1. split; [reflexivity | exact Ha1].
    + inversion E as [[E1 E2 E3]]. destruct (IH _ _ _ _ _ E3) as (pre' & a' & -> & Ha').
      exists ((reserve_request self force loc, a1) :: (reset_request self loc, a2) :: pre'), a'.
      split; [reflexivity | exact Ha'].
  - destruct H1 as (a1 & [(e' & _ & _ & ->) | (Ha1 & a2 & -> & _)]).
    + destruct pre as [| e1 pre2]; simpl in E; [discriminate |].
      inversion E as [[E1 E2]]. destruct pre2; discriminate.
    + destruct pre as [| e1 [| e2 pre2]]; simpl in E.
      * discriminate.
      * unfold reset_request, reserve_request in *. inversion E; subst.
        exists [], a1. split; [reflexivity | exact Ha1].
      * inversion E as [[E1 E2 E3]]. destruct pre2; discriminate.
Qed.

End ReserveTrace.

Lemma chassis_reserve_ports_inv hw self locations force s r s' :
  chassis_reserve_ports hw self locations force s = (r, s') ->
  exists r0 s0,
    for_each locations (reserve_body hw self force) s = (r0, s0) /\ s' = s0
    /\ match r0 with
       | Ok _ => (exists c, find_chassis (c_id self) s0 = Some c
                            /\ r = Ok (chassis_ports c))
                 \/ (find_chassis (c_id self) s0 = None /\ r = Err Detached)
       | Err e => r = Err e
       end.
Proof.
  rewrite chassis_reserve_ports_unfold. intros H. apply bind_inv in H.
  destruct H as [([] & s1 & H1 & H2) | (e & H1 & ->)].
  - exists (Ok tt), s1. unfold bind, live_chassis, ret in H2.
    destruct (find_chassis (c_id self) s1) as [c |] eqn:Ef;
      injection H2 as <- <-; (split; [exact H1 | split; [reflexivity |]]).
    + left. eauto.
    + now right.
  - exists (Err e), s'. repeat split. exact H1.
Qed.

Lemma reserve_loop_log hw self locations force s r s' :
  chassis_reserve_ports hw self locations force s = (r, s') ->
  exists L,
    s_log s' = s_log s ++ L
    /\ (forall d, r = Ok d ->
          map fst L
          = flat_map (fun loc => [reserve_request self force loc;
                                  reset_request self loc]) locations
          /\ Forall accepted (map snd L)).
Proof.
  intros Hrun. apply chassis_reserve_ports_inv in Hrun.
  destruct Hrun as (r0 & s0 & Hloop & -> & Hr).
  eapply for_each_log with (T := reserve_step self force) in Hloop.
  - destruct Hloop as (L & E & HT). exists L. split; [exact E |].
    intros d ->. destruct r0 as [[] | e]; [| discriminate].
    now apply each_reserve_ok in HT.
  - intros loc s1 r1 s1' H1. now apply reserve_body_inv in H1.
Qed.

(** C5. The log of [XenaChassis.reserve_ports] grows by a reservation and a
    reset for each location in turn, and a reset is never sent but right
    after the accepted reservation of the same port.  When the call returns,
    every listed port was reserved and then reset, in the order of the list,
    and the result is the port dictionary of the chassis as it stands after
    the loop. *)
Theorem chassis_reserve_ports_reserve_then_reset
    (hw : Hardware) (self : XenaChassis) (locations : list string) (force : bool)
    (s s' : State) (r : Result (dict string XenaPort))
    (Hrun : chassis_reserve_ports hw self locations force s = (r, s')) :
  exists L,
    s_log s' = s_log s ++ L
    /\ (forall pre ip ref a post,
          L = pre ++ (PortCommand ip ref Reset, a) :: post ->
          exists pre' a',
            pre = pre' ++ [(PortCommand ip ref (Reserve force), a')] /\ accepted a')
    /\ (forall d, r = Ok d ->
          map fst L
          = flat_map (fun loc => [reserve_request self force loc;
                                  reset_request self loc]) locations
          /\ Forall accepted (map snd L)
          /\ exists c, find_chassis (c_id self) s' = Some c /\ d = chassis_ports c).
Proof.
  apply chassis_reserve_ports_inv in Hrun.
  destruct Hrun as (r0 & s0 & Hloop & -> & Hr).
  pose proof Hloop as Hlog.
  eapply for_each_log with (T := reserve_step self force) in Hlog.
  - destruct Hlog as (L & E & HT). exists L. split; [exact E | split].
    + eapply each_reserve_reset_after; exact HT.
    + intros d ->. destruct r0 as [[] | e]; [| discriminate].
      destruct Hr as [(c & Hc & Er) | (_ & Er)]; [| discriminate].
      injection Er as ->. apply each_reserve_ok in HT. destruct HT as (H1 & H2).
      split; [exact H1 | split; [exact H2 |]]. now exists c.
  - intros loc s1 r1 s1' H1. now apply reserve_body_inv in H1.
Qed.

(** On the test bench: two more ports reserved on the first chassis. *)
Lemma chassis_reserve_ports_reserve_then_reset_witness :
  exists d s' L,
    chassis_reserve_ports bench bench_a ["2/0"; "2/1"] true bench_reserved = (Ok d, s')
    /\ s_log s' = s_log bench_reserved ++ L
    /\ map fst L
       = [PortCommand bench_chassis_a "2/0" (Reserve true);
          PortCommand bench_chassis_a "2/0" Reset;
          PortCommand bench_chassis_a "2/1" (Reserve true);
          PortCommand bench_chassis_a "2/1" Reset].
Proof.
  eexists. eexists.
  assert (H : chassis_reserve_ports bench bench_a ["2/0"; "2/1"] true bench_reserved
              = (Ok (chassis_ports
                       (add_children
                          (fresh_ports bench_a (s_next bench_reserved) ["2/0"; "2/1"])
                          bench_a)),
                 snd (chassis_reserve_ports bench bench_a ["2/0"; "2/1"] true
                        bench_reserved)))
    by (vm_compute; reflexivity).
  destruct (chassis_reserve_ports_reserve_then_reset _ _ _ _ _ H) as (L & E & _ & Hok).
  exists L. split; [exact H | split; [exact E |]].
  destruct (Hok _ eq_refl) as (Hreq & _). exact Hreq.
Defined.

Lemma chassis_ports_keyed c k p :
  In (k, p) (chassis_ports c) -> k = port_name p.
Proof.
  unfold chassis_ports. apply (dict_update_keyed _ String.eqb_eq port_name).
  intros k' v' [].
Qed.


Lemma chassis_reserve_one_tree hw self loc force s r s' :
  chassis_reserve_ports hw self [loc] force s = (r, s') ->
  s_chassis s'
  = attach (c_id self) (ChildPort (mkPort (s_next s) (c_name self) loc)) (s_chassis s)
  /\ s_next s' = S (s_next s).
Proof.
  intros H. apply chassis_reserve_ports_inv in H.
  destruct H as (r0 & s0 & Hloop & -> & _). cbn [for_each] in Hloop.
  apply bind_inv in Hloop.
  destruct Hloop as [([] & s1 & H1 & H2) | (e & H1 & _)].
  - injection H2 as _ <-. apply reserve_body_inv in H1. tauto.
  - apply reserve_body_inv in H1. tauto.
Qed.



(** ** Adding a chassis *)

Section AddChassis.
Variable hw : Hardware.

Lemma keeps_tree_chassis_logon c password owner s :
  keeps_tree s (snd (chassis_logon hw c password owner s)).
Proof.
  apply keeps_tree_bind; intros; apply keeps_tree_send_command.
Qed.

(** The state once the new chassis node is registered, before its transport
    is opened. *)
Definition registered (ip : string) (s : State) : State :=
  mkState (s_owner s) (s_chassis s ++ [mkChassis (s_next s) ip None []])
          (S (s_next s)) (s_log s).

Lemma add_chassis_new_tree ip tcp password s :
  dict_mem String.eqb ip (chassis_list s) = false ->
  keeps_tree (registered ip s) (snd (add_chassis hw ip tcp password s)).
Proof.
  intros H. unfold add_chassis. rewrite H.
  change ((c <- XenaChassis_init hw ip tcp ;; chassis_logon hw c password (s_owner s)) s)
    with ((c <- (a <- exchange hw (Connect ip tcp) ;; acknowledged a ;;
                 ret (mkChassis (s_next s) ip None [])) ;;
           chassis_logon hw c password (s_owner s)) (registered ip s)).
  apply keeps_tree_bind; intros.
  - apply keeps_tree_bind; intros; [apply keeps_tree_exchange |].
    apply keeps_tree_bind; intros; [apply keeps_tree_acknowledged | apply keeps_tree_refl].
  - apply keeps_tree_chassis_logon.
Qed.

Lemma count_occ_names_app (l : list string) a :
  count_occ string_dec (l ++ [a]) a = S (count_occ string_dec l a).
Proof.
  rewrite count_occ_app. simpl. destruct (string_dec a a); [lia | contradiction].
Qed.

End AddChassis.

(** C3. [add_chassis] with an address that a chassis of the session has
    already leaves the whole state as it is (no node, no exchange with the
    hardware) and returns normally.  Hence, from a session with at most one
    chassis of that address, a second [add_chassis] with the address is such
    a call, and exactly one chassis has the address afterwards, whether the
    first call ended well or not. *)
Theorem add_chassis_known_address_noop
    (hw : Hardware) (s : State) (address : string) (tcp : Z) (password : string) :
  (In address (map c_name (s_chassis s)) ->
   add_chassis hw address tcp password s = (Ok tt, s))
  /\ (forall tcp' password',
        count_occ string_dec (map c_name (s_chassis s)) address <= 1 ->
        let s1 := snd (add_chassis hw address tcp password s) in
        add_chassis hw address tcp' password' s1 = (Ok tt, s1)
        /\ count_occ string_dec (map c_name (s_chassis s1)) address = 1).
Proof.
  assert (Known : forall t tcp0 pw0, In address (map c_name (s_chassis t)) ->
                    add_chassis hw address tcp0 pw0 t = (Ok tt, t)).
  { intros t tcp0 pw0 Hin. apply chassis_list_mem in Hin.
    unfold add_chassis. now rewrite Hin. }
  split; [apply Known |].
  intros tcp' password' Hcount s1.
  destruct (dict_mem String.eqb address (chassis_list s)) eqn:E.
  - apply chassis_list_mem in E.
    assert (Es : s1 = s) by (unfold s1; now rewrite (Known s tcp password E)).
    rewrite Es. split; [now apply Known |].
    apply (count_occ_In string_dec) in E. lia.
  - pose proof (add_chassis_new_tree hw address tcp password s E) as (_ & Hc & _).
    fold s1 in Hc. simpl in Hc.
    assert (Hnot : ~ In address (map c_name (s_chassis s))).
    { intros Hin. apply chassis_list_mem in Hin. congruence. }
    assert (Hone : count_occ string_dec (map c_name (s_chassis s1)) address = 1).
    { rewrite Hc, map_app. simpl. rewrite count_occ_names_app.
      apply (count_occ_not_In string_dec) in Hnot. now rewrite Hnot. }
    split; [| exact Hone].
    apply Known. apply (count_occ_In string_dec). lia.
Qed.

(** ** Reserving ports through the session *)

Definition same_chassis_names (s s' : State) : Prop :=
  map c_name (s_chassis s') = map c_name (s_chassis s).

(** The reservation of the port named [loc] was sent and accepted. *)
Definition reserved_in (force : bool) (L : list Event) (loc : string) : Prop :=
  exists ip ref a,
    loc = (ip ++ "/" ++ ref)%string
    /\ In (PortCommand ip ref (Reserve force), a) L
    /\ accepted a.

Section SessionReserve.
Variable hw : Hardware.
Variable force : bool.

Lemma session_reserve_location_inv loc s r s' :
  session_reserve_location hw force loc s = (r, s') ->
  (r = Err ValueError /\ s' = s
   /\ forall ip m p, PyStr.split PyStr.slash loc <> [ip; m; p])
  \/ (exists ip m p,
        PyStr.split PyStr.slash loc = [ip; m; p]
        /\ ((dict_get String.eqb ip (chassis_list s) = None
             /\ r = Err (KeyError ip) /\ s' = s)
            \/ (exists c r0,
                  dict_get String.eqb ip (chassis_list s) = Some c
                  /\ chassis_reserve_ports hw c [(m ++ "/" ++ p)%string] force s = (r0, s')
                  /\ r = match r0 with Ok _ => Ok tt | Err e => Err e end))).
Proof.
  unfold session_reserve_location.
  destruct (PyStr.split PyStr.slash loc) as [| ip [| m [| p [| x l]]]] eqn:Es;
    try (intros H; injection H as <- <-; left; repeat split; intros; discriminate).
  intros H. right. exists ip, m, p. split; [reflexivity |].
  unfold bind at 1 in H. unfold of_option in H.
  destruct (dict_get String.eqb ip (chassis_list s)) as [c |] eqn:Eg.
  - right. unfold ret, bind in H.
    destruct (chassis_reserve_ports hw c [(m ++ "/" ++ p)%string] force s)
      as [r0 s0] eqn:Er.
    exists c, r0. split; [reflexivity |].
    destruct r0; injection H as <- <-; (split; [exact Er | reflexivity]).
  - left. injection H as <- <-. repeat split.
Qed.

Lemma session_reserve_location_names loc s :
  same_chassis_names s (snd (session_reserve_location hw force loc s)).
Proof.
  destruct (session_reserve_location hw force loc s) as [r s'] eqn:E. simpl.
  apply session_reserve_location_inv in E.
  destruct E as [(_ & -> & _) | (ip & m & p & _ & [(_ & _ & ->) | (c & r0 & _ & Hr & _)])];
    try reflexivity.
  apply chassis_reserve_one_tree in Hr. destruct Hr as (Hc & _).
  unfold same_chassis_names. rewrite Hc. apply attach_names.
Qed.

Lemma session_reserve_loop_names locations s :
  same_chassis_names s (snd (for_each locations (session_reserve_location hw force) s)).
Proof.
  apply for_each_invariant.
  - reflexivity.
  - unfold same_chassis_names. intros. congruence.
  - apply session_reserve_location_names.
Qed.

Lemma session_reserve_location_log loc s r s' :
  session_reserve_location hw force loc s = (r, s') ->
  exists L, s_log s' = s_log s ++ L
            /\ (r = Ok tt -> reserved_in force L loc).
Proof.
  intros H. apply session_reserve_location_inv in H.
  destruct H as [(-> & -> & _) | (ip & m & p & Es & [(_ & -> & ->) | (c & r0 & Hg & Hr & ->)])].
  - exists []. split; [now rewrite app_nil_r | discriminate].
  - exists []. split; [now rewrite app_nil_r | discriminate].
  - apply chassis_list_get in Hg. destruct Hg as (_ & Hname).
    apply reserve_loop_log in Hr.
    destruct Hr as (L & E & Hok). exists L. split; [exact E |].
    intros Er. destruct r0 as [d |]; [| discriminate].
    destruct (Hok d eq_refl) as (Hreq & Hacc).
    destruct L as [| [q1 a1] L]; [discriminate |].
    simpl in Hreq. injection Hreq as Hq _. simpl in Hacc.
    inversion Hacc as [| ? ? Ha1 _].
    exists ip, (m ++ "/" ++ p)%string, a1. split; [| split].
    + now apply PyStrFacts.split_three in Es.
    + left. rewrite Hq. unfold reserve_request. now rewrite Hname.
    + exact Ha1.
Qed.

End SessionReserve.

Definition reserved_when_ok (force : bool) (loc : string) (r : Result unit)
    (L : list Event) : Prop :=
  r = Ok tt -> reserved_in force L loc.

Lemma each_reserved_in force locations L :
  each_trace (reserved_when_ok force) locations (Ok tt) L ->
  forall loc, In loc locations -> reserved_in force L loc.
Proof.
  intros H. remember (Ok tt) as r0 eqn:Er.
  induction H as [| x l r L1 L2 H1 _ IH | x l e L1 H1]; subst; intros loc Hin.
  - contradiction.
  - destruct Hin as [<- | Hin].
    + destruct (H1 eq_refl) as (ip & ref & a & E & Hi & Ha).
      exists ip, ref, a. repeat split; auto. apply in_or_app. now left.
    + destruct (IH eq_refl loc Hin) as (ip & ref & a & E & Hi & Ha).
      exists ip, ref, a. repeat split; auto. apply in_or_app. now right.
  - discriminate.
Qed.

Lemma session_reserve_ports_inv hw locations force s r s' :
  session_reserve_ports hw locations force s = (r, s') ->
  exists r0,
    for_each locations (session_reserve_location hw force) s = (r0, s')
    /\ r = match r0 with Ok _ => Ok (session_ports s') | Err e => Err e end.
Proof.
  unfold session_reserve_ports, bind.
  destruct (for_each locations (session_reserve_location hw force) s) as [[[] | e] s0];
    intros H; injection H as <- <-.
  - now exists (Ok tt).
  - now exists (Err e).
Qed.

(** C9. With a location [ip/m/p] whose address [ip] no chassis of the
    session has, [XenaSession.reserve_ports] never returns normally.  When
    the locations before it were all reserved, it raises the key error of
    the dictionary lookup (and not [NotFound]); the state it leaves is the
    very state reached by reserving the earlier locations, whose log has the
    accepted reservation of each of them: nothing is undone, and no later
    location is looked at. *)
Theorem session_reserve_unknown_chassis
    (hw : Hardware) (s : State) (pre post : list string) (ip m p : string)
    (force : bool)
    (Hip : PyStr.no_slash ip) (Hm : PyStr.no_slash m) (Hp : PyStr.no_slash p)
    (Hunknown : ~ In ip (map c_name (s_chassis s))) :
  let locations := pre ++ (ip ++ "/" ++ m ++ "/" ++ p)%string :: post in
  (exists e s', session_reserve_ports hw locations force s = (Err e, s'))
  /\ (forall d s1,
        session_reserve_ports hw pre force s = (Ok d, s1) ->
        session_reserve_ports hw locations force s = (Err (KeyError ip), s1)
        /\ exists L, s_log s1 = s_log s ++ L
                     /\ forall loc, In loc pre -> reserved_in force L loc)
  /\ KeyError ip <> NotFound.
Proof.
  intros locations.
  assert (Hkey : forall s1,
             for_each pre (session_reserve_location hw force) s = (Ok tt, s1) ->
             session_reserve_ports hw locations force s = (Err (KeyError ip), s1)).
  { intros s1 Hloop.
    assert (Hnames : same_chassis_names s s1).
    { pose proof (session_reserve_loop_names hw force pre s) as Hn.
      now rewrite Hloop in Hn. }
    unfold session_reserve_ports, locations.
    apply bind_err. rewrite for_each_app, Hloop. cbn [for_each].
    apply bind_err. unfold session_reserve_location.
    rewrite (PyStrFacts.split_location Hip Hm Hp).
    apply bind_err. unfold of_option.
    destruct (dict_get String.eqb ip (chassis_list s1)) as [c |] eqn:Eg; [| reflexivity].
    exfalso. apply Hunknown. rewrite <- Hnames.
    apply chassis_list_mem. unfold dict_mem. now rewrite Eg. }
  split; [| split; [| discriminate]].
  - destruct (for_each pre (session_reserve_location hw force) s)
      as [[[] | e] s1] eqn:Hloop.
    + exists (KeyError ip), s1. now apply Hkey.
    + exists e, s1. unfold session_reserve_ports, locations.
      apply bind_err. now rewrite for_each_app, Hloop.
  - intros d s1 Hpre.
    apply session_reserve_ports_inv in Hpre. destruct Hpre as (r0 & Hloop & Hr).
    destruct r0 as [[] | e]; [| discriminate].
    split; [now apply Hkey |].
    eapply for_each_log with (T := reserved_when_ok force) in Hloop.
    + destruct Hloop as (L & E & HT). exists L. split; [exact E |].
      eapply each_reserved_in. exact HT.
    + intros loc s0 r1 s0' H1.
      now apply session_reserve_location_log in H1.
Qed.

(** On the test bench: the third of four locations names no chassis. *)
Lemma session_reserve_unknown_chassis_witness :
  exists s1,
    session_reserve_ports bench
      ["10.0.0.1/2/0"; "10.0.0.2/0/0"; "10.0.0.9/0/0"; "10.0.0.1/2/1"] false
      bench_connected
    = (Err (KeyError "10.0.0.9"), s1)
    /\ exists L, s_log s1 = s_log bench_connected ++ L
                 /\ forall loc, In loc ["10.0.0.1/2/0"; "10.0.0.2/0/0"] ->
                                reserved_in false L loc.
Proof.
  exists (snd (session_reserve_ports bench ["10.0.0.1/2/0"; "10.0.0.2/0/0"] false
                 bench_connected)).
  assert (Hpre : session_reserve_ports bench ["10.0.0.1/2/0"; "10.0.0.2/0/0"] false
                   bench_connected
                 = (Ok (session_ports
                          (snd (session_reserve_ports bench
                                  ["10.0.0.1/2/0"; "10.0.0.2/0/0"] false bench_connected))),
                    snd (session_reserve_ports bench ["10.0.0.1/2/0"; "10.0.0.2/0/0"]
                           false bench_connected)))
    by (vm_compute; reflexivity).
  assert (Hunknown : ~ In "10.0.0.9" (map c_name (s_chassis bench_connected))).
  { simpl. intros [H | [H | []]]; discriminate. }
  destruct (@session_reserve_unknown_chassis bench bench_connected
              ["10.0.0.1/2/0"; "10.0.0.2/0/0"] ["10.0.0.1/2/1"]
              "10.0.0.9" "0" "0" false
              eq_refl eq_refl eq_refl Hunknown) as (_ & H & _).
  exact (H _ _ Hpre).
Defined.

(** ** Module inventory *)

(** The chassis list once every module object of identity [mid] is changed
    by [f]. *)
Definition modify_modules (mid : nat) (f : XenaModule -> XenaModule)
    (cs : list XenaChassis) : list XenaChassis :=
  map (fun c => mkChassis (c_id c) (c_name c) (c_info c)
                  (map (update_child_module mid f) (c_children c))) cs.

(** A module after its inventory: its attributes are stored, the ports [ps]
    are its last children. *)
Definition inventoried (info : list (string * string)) (ps : list XenaPort)
    (m : XenaModule) : XenaModule :=
  mkModule (m_id m) (m_chassis m) (m_index m) (Some info) (m_children m ++ ps).




Section ModuleInventory.
Variable hw : Hardware.
Variable self : XenaModule.

(** The ports that the inventory loop constructs, from the identity counter
    [next] and the port index [a] on. *)
Fixpoint module_fresh_ports (next a n : nat) : list XenaPort :=
  match n with
  | 0 => []
  | S n' =>
      mkPort next (m_chassis self) (module_ref self ++ "/" ++ PyStr.of_nat a)%string
      :: module_fresh_ports (S next) (S a) n'
  end.




Definition module_port_body (p_index : nat) : M unit :=
  p <- XenaPort_under_module self
         (module_ref self ++ "/" ++ PyStr.of_nat p_index)%string ;;
  port_inventory hw p.



Lemma XenaPort_under_module_run index s :
  XenaPort_under_module self index s
  = (Ok (mkPort (s_next s) (m_chassis self) index),
     mkState (s_owner s)
       (modify_modules (m_id self)
          (add_port (mkPort (s_next s) (m_chassis self) index)) (s_chassis s))
       (S (s_next s)) (s_log s)).
Proof. reflexivity. Qed.








End ModuleInventory.



(** ** Chassis inventory *)

(** The indices of the modules of a chassis, in tree order. *)
Definition module_indices (c : XenaChassis) : list nat :=
  map m_index (chassis_get_modules c).











Section ChassisInventory.
Variable hw : Hardware.
Variable self : XenaChassis.

Definition chassis_inventory_body (im : nat * string) : M unit :=
  n <- of_option ValueError (PyStr.int (snd im)) ;;
  if Z.eqb n 0 then ret tt
  else m <- XenaModule_init self (fst im) ;; module_inventory hw m.





End ChassisInventory.



(** ** Grouping ports by chassis *)

(** [port.name.split('/')[0]]. *)
Definition first_segment (p : XenaPort) : string :=
  hd EmptyString (PyStr.split PyStr.slash (port_name p)).

(** The chassis that [_per_chassis_ports] finds for a port. *)
Definition owner (cs : list XenaChassis) (p : XenaPort) : option XenaChassis :=
  find (fun c => String.eqb (c_name c) (first_segment p)) cs.

(** [per_chassis_ports[chassis].append(port)], after the key was added when
    it was missing. *)
Definition add_to_group (acc : dict Obj (list XenaPort)) (k : Obj) (p : XenaPort)
  : dict Obj (list XenaPort) :=
  let acc1 := if dict_mem obj_eqb k acc then acc else dict_set obj_eqb k [] acc in
  let l := match dict_get obj_eqb k acc1 with Some l => l | None => [] end in
  dict_set obj_eqb k (l ++ [p]) acc1.

Fixpoint group_from (cs : list XenaChassis) (acc : dict Obj (list XenaPort))
    (ports : list XenaPort) : option (dict Obj (list XenaPort)) :=
  match ports with
  | [] => Some acc
  | p :: rest =>
      match owner cs p with
      | Some c => group_from cs (add_to_group acc (OChassis c) p) rest
      | None => None
      end
  end.

Lemma name_with_slash_neq a b name :
  PyStr.lacks PyStr.slash name = true ->
  String.eqb (a ++ "/" ++ b) name = false.
Proof.
  intros H. apply String.eqb_neq. intros E.
  apply (PyStrFacts.lacks_sound _ H a b). now rewrite <- E.
Qed.

Lemma find_app_none {A} (f : A -> bool) l1 l2 :
  (forall x, In x l1 -> f x = false) -> find f (l1 ++ l2) = find f l2.
Proof.
  induction l1 as [| x l1 IH]; intros H; simpl; [reflexivity |].
  rewrite (H x) by now left. apply IH. intros y Hy. apply H. now right.
Qed.

Lemma chassis_descendants_named c x :
  In x (chassis_descendants c) -> exists a b, obj_name x = (a ++ "/" ++ b)%string.
Proof.
  unfold chassis_descendants. intros H. apply in_flat_map in H.
  destruct H as ([m | p] & _ & H); simpl in H.
  - destruct H as [<- | H]; [now exists (m_chassis m), (module_ref m) |].
    unfold module_descendants in H. apply in_map_iff in H.
    destruct H as (q & <- & _). now exists (p_chassis q), (p_ref q).
  - destruct H as [<- | []]. now exists (p_chassis p), (p_ref p).
Qed.

(** A name without a slash names a chassis or nothing. *)
Lemma get_object_by_name_chassis name s :
  PyStr.lacks PyStr.slash name = true ->
  get_object_by_name name s
  = (match find (fun c => String.eqb (c_name c) name) (s_chassis s) with
     | Some c => Ok (OChassis c)
     | None => Err NotFound
     end, s).
Proof.
  intros Hname. unfold get_object_by_name, session_descendants.
  assert (G : find (fun o => String.eqb (obj_name o) name)
                (flat_map (fun c => OChassis c :: chassis_descendants c) (s_chassis s))
              = option_map OChassis
                  (find (fun c => String.eqb (c_name c) name) (s_chassis s))).
  { induction (s_chassis s) as [| c cs IH]; [reflexivity |].
    cbn [flat_map find app obj_name].
    destruct (String.eqb (c_name c) name); [reflexivity |].
    rewrite find_app_none; [exact IH |].
    intros x Hx. apply chassis_descendants_named in Hx.
    destruct Hx as (a & b & ->). now apply name_with_slash_neq. }
  rewrite G. now destruct (find _ (s_chassis s)).
Qed.

Lemma first_segment_lacks p : PyStr.lacks PyStr.slash (first_segment p) = true.
Proof. apply PyStrFacts.hd_split_lacks. Qed.

Lemma first_segment_chassis p :
  PyStr.lacks PyStr.slash (p_chassis p) = true -> first_segment p = p_chassis p.
Proof.
  intros H. unfold first_segment, port_name.
  change ("/" ++ p_ref p)%string with (String PyStr.slash (p_ref p)).
  now rewrite (PyStrFacts.split_head _ _ _ H).
Qed.

(** [_per_chassis_ports] reads the tree and leaves the state as it is. *)
Lemma per_chassis_ports_from_run acc ports s :
  per_chassis_ports_from acc ports s
  = (match group_from (s_chassis s) acc ports with
     | Some d => Ok d
     | None => Err NotFound
     end, s).
Proof.
  revert acc. induction ports as [| p rest IH]; intros acc; [reflexivity |].
  cbn [per_chassis_ports_from group_from]. unfold bind.
  fold (first_segment p).
  rewrite (get_object_by_name_chassis _ _ (first_segment_lacks p)).
  unfold owner. destruct (find _ (s_chassis s)) as [c |]; [| reflexivity].
  apply IH.
Qed.

Lemma obj_eqb_refl k : obj_eqb k k = true.
Proof. apply Nat.eqb_refl. Qed.

(** Adding a port to the dictionary of groups: the port goes to the end of
    the group of the first key that is the same object, or to a new last
    group. *)
Fixpoint append_group (acc : dict Obj (list XenaPort)) (k : Obj) (p : XenaPort)
  : dict Obj (list XenaPort) :=
  match acc with
  | [] => [(k, [p])]
  | (k1, ps1) :: acc' =>
      if obj_eqb k1 k then (k1, ps1 ++ [p]) :: acc'
      else (k1, ps1) :: append_group acc' k p
  end.

Lemma add_to_group_append acc k p : add_to_group acc k p = append_group acc k p.
Proof.
  unfold add_to_group, dict_mem.
  induction acc as [| [k1 ps1] acc IH].
  - simpl. now rewrite obj_eqb_refl.
  - cbn [dict_get append_group]. destruct (obj_eqb k1 k) eqn:E1.
    + cbn [dict_get dict_set]. now rewrite E1.
    + destruct (dict_get obj_eqb k acc) as [l |] eqn:Eg.
      * cbn [dict_get dict_set]. rewrite E1, Eg. rewrite Eg in IH. now rewrite IH.
      * cbn [dict_get dict_set]. rewrite E1. cbn [dict_get dict_set]. rewrite E1.
        now rewrite IH.
Qed.

Definition group_id (kv : Obj * list XenaPort) : nat := obj_id (fst kv).

(** Every group is the group of a chassis of the session, is not empty, and
    holds ports for which that chassis is the one found by name. *)
Definition group_ok (cs : list XenaChassis) (kv : Obj * list XenaPort) : Prop :=
  exists c, fst kv = OChassis c /\ In c cs /\ snd kv <> []
            /\ Forall (fun p => owner cs p = Some c) (snd kv).

Lemma NoDup_map_inj {A B} (f : A -> B) l x y :
  NoDup (map f l) -> In x l -> In y l -> f x = f y -> x = y.
Proof.
  induction l as [| a l IH]; simpl; [contradiction |].
  intros Hnd Hx Hy E. inversion Hnd as [| ? ? Hnot Hnd']; subst.
  destruct Hx as [-> | Hx], Hy as [-> | Hy]; auto.
  - exfalso. apply Hnot. rewrite E. now apply in_map.
  - exfalso. apply Hnot. rewrite <- E. now apply in_map.
Qed.

Lemma append_group_ids d k p :
  map group_id (append_group d k p)
  = if existsb (fun kv => obj_eqb (fst kv) k) d
    then map group_id d else map group_id d ++ [obj_id k].
Proof.
  induction d as [| [k1 ps1] d IH]; [reflexivity |].
  cbn [append_group existsb fst]. destruct (obj_eqb k1 k) eqn:E; [reflexivity |].
  cbn [orb map]. rewrite IH. now destruct (existsb _ d).
Qed.

Lemma append_group_nodup d k p :
  NoDup (map group_id d) -> NoDup (map group_id (append_group d k p)).
Proof.
  intros H. rewrite append_group_ids.
  destruct (existsb (fun kv => obj_eqb (fst kv) k) d) eqn:E; [exact H |].
  apply NoDup_app; [exact H | repeat constructor; intros [] |].
  intros i Hi [<- | []]. apply in_map_iff in Hi. destruct Hi as (kv & Ei & Hkv).
  assert (Ht : existsb (fun kv0 => obj_eqb (fst kv0) k) d = true).
  { apply existsb_exists. exists kv. split; [exact Hkv |].
    unfold obj_eqb. unfold group_id in Ei. rewrite Ei. apply Nat.eqb_refl. }
  congruence.
Qed.

Lemma append_group_flat d k p :
  Permutation (flat_map snd (append_group d k p)) (flat_map snd d ++ [p]).
Proof.
  induction d as [| [k1 ps1] d IH]; [reflexivity |].
  cbn [append_group]. destruct (obj_eqb k1 k); cbn [flat_map snd].
  - rewrite <- !app_assoc. apply Permutation_app_head. apply Permutation_app_comm.
  - rewrite <- app_assoc. now apply Permutation_app_head.
Qed.

Lemma owner_in cs p c : owner cs p = Some c -> In c cs.
Proof. unfold owner. intros H. now apply find_some in H. Qed.

Lemma owner_name cs p c : owner cs p = Some c -> c_name c = first_segment p.
Proof.
  unfold owner. intros H. apply find_some in H. now apply String.eqb_eq.
Qed.

Lemma append_group_ok cs d c p :
  NoDup (map c_id cs) ->
  Forall (group_ok cs) d ->
  owner cs p = Some c ->
  Forall (group_ok cs) (append_group d (OChassis c) p).
Proof.
  intros Hids Hd Ho. induction Hd as [| [k1 ps1] d H1 Hd IH].
  - repeat constructor. exists c. simpl.
    repeat split; [eapply owner_in; eauto | discriminate | now repeat constructor].
  - cbn [append_group]. destruct (obj_eqb k1 (OChassis c)) eqn:E.
    + constructor; [| exact Hd].
      destruct H1 as (c1 & E1 & Hin & _ & HF). simpl in E1. subst k1.
      assert (c1 = c).
      { apply (NoDup_map_inj c_id cs); auto; [eapply owner_in; eauto |].
        now apply Nat.eqb_eq. }
      subst c1. exists c. simpl. repeat split; auto.
      * now destruct ps1.
      * apply Forall_app. split; [exact HF | now repeat constructor].
    + now constructor.
Qed.

Lemma group_from_ok cs ports acc d :
  NoDup (map c_id cs) ->
  group_from cs acc ports = Some d ->
  NoDup (map group_id acc) ->
  Forall (group_ok cs) acc ->
  NoDup (map group_id d) /\ Forall (group_ok cs) d.
Proof.
  intros Hids. revert acc. induction ports as [| p rest IH]; intros acc H Hn Hok.
  - injection H as <-. now split.
  - cbn [group_from] in H. destruct (owner cs p) as [c |] eqn:Eo; [| discriminate].
    apply IH in H; [exact H | |].
    + rewrite add_to_group_append. now apply append_group_nodup.
    + rewrite add_to_group_append. now apply append_group_ok.
Qed.

Lemma group_from_flat cs ports acc d :
  group_from cs acc ports = Some d ->
  Permutation (flat_map snd d) (flat_map snd acc ++ ports).
Proof.
  revert acc. induction ports as [| p rest IH]; intros acc H.
  - injection H as <-. now rewrite app_nil_r.
  - cbn [group_from] in H. destruct (owner cs p) as [c |]; [| discriminate].
    apply IH in H. rewrite H, add_to_group_append, append_group_flat.
    now rewrite <- app_assoc.
Qed.

(** The groups as pairs of a chassis and its ports. *)
Definition chassis_groups (d : dict Obj (list XenaPort))
  : list (XenaChassis * list XenaPort) :=
  flat_map (fun kv => match fst kv with
                      | OChassis c => [(c, snd kv)]
                      | _ => []
                      end) d.

(** ** Well-formed sessions *)

Fixpoint nodupb {A} (eqb : A -> A -> bool) (l : list A) : bool :=
  match l with
  | [] => true
  | x :: l' => negb (existsb (eqb x) l') && nodupb eqb l'
  end.

(** The chassis of the session are different objects with different
    addresses, no address has a slash, and every port below a chassis
    carries the address of that chassis. *)
Definition well_formed (s : State) : bool :=
  nodupb Nat.eqb (map c_id (s_chassis s))
  && nodupb String.eqb (map c_name (s_chassis s))
  && forallb (fun c =>
                PyStr.lacks PyStr.slash (c_name c)
                && forallb (fun p => String.eqb (p_chassis p) (c_name c))
                     (chassis_get_ports c))
       (s_chassis s).

Lemma nodupb_NoDup {A} (eqb : A -> A -> bool) l :
  (forall a b, eqb a b = true <-> a = b) -> nodupb eqb l = true -> NoDup l.
Proof.
  intros Hspec. induction l as [| x l IH]; simpl; intros H; [constructor |].
  apply andb_prop in H. destruct H as [Hx Hl]. constructor; [| now apply IH].
  intros Hin. apply negb_true_iff in Hx.
  assert (Ht : existsb (eqb x) l = true).
  { apply existsb_exists. exists x. split; [exact Hin | now apply Hspec]. }
  congruence.
Qed.

Record wf (cs : list XenaChassis) : Prop := mkWf {
  wf_ids : NoDup (map c_id cs);
  wf_names : NoDup (map c_name cs);
  wf_slash : forall c, In c cs -> PyStr.lacks PyStr.slash (c_name c) = true;
  wf_ports : forall c p, In c cs -> In p (chassis_get_ports c) -> p_chassis p = c_name c
}.

Lemma well_formed_wf s : well_formed s = true -> wf (s_chassis s).
Proof.
  unfold well_formed. intros H.
  apply andb_prop in H. destruct H as [H H3].
  apply andb_prop in H. destruct H as [H1 H2].
  rewrite forallb_forall in H3. constructor.
  - apply (nodupb_NoDup Nat.eqb); [apply Nat.eqb_eq | exact H1].
  - apply (nodupb_NoDup String.eqb); [apply String.eqb_eq | exact H2].
  - intros c Hc. apply H3 in Hc. now apply andb_prop in Hc.
  - intros c p Hc Hp. apply H3 in Hc. apply andb_prop in Hc. destruct Hc as [_ Hc].
    rewrite forallb_forall in Hc. apply String.eqb_eq. now apply Hc.
Qed.

Section SessionPorts.

Definition merge_ports (d : dict string XenaPort) (c : XenaChassis)
  : dict string XenaPort :=
  dict_update String.eqb d (chassis_ports c).

Lemma chassis_ports_keys c k :
  In k (dict_keys (chassis_ports c)) <-> In k (map port_name (chassis_get_ports c)).
Proof.
  unfold chassis_ports. rewrite (dict_keys_update_in _ String.eqb_eq).
  rewrite map_map. simpl. tauto.
Qed.

Lemma chassis_ports_values c p :
  In p (dict_values (chassis_ports c)) -> In p (chassis_get_ports c).
Proof.
  unfold chassis_ports. intros H. apply dict_values_update_in in H.
  rewrite map_map, map_id in H. now destruct H as [[] | H].
Qed.

Lemma merged_keys l d k :
  In k (dict_keys (fold_left merge_ports l d))
  <-> In k (dict_keys d)
      \/ exists c, In c l /\ In k (map port_name (chassis_get_ports c)).
Proof.
  revert d. induction l as [| c l IH]; intros d; simpl.
  - split; [now left | intros [H | (c & [] & _)]; exact H].
  - rewrite IH. unfold merge_ports.
    rewrite (dict_keys_update_in _ String.eqb_eq).
    fold (dict_keys (chassis_ports c)). rewrite chassis_ports_keys.
    split.
    + intros [[H | H] | (c' & Hc' & H)]; eauto.
    + intros [H | (c' & [<- | Hc'] & H)]; eauto.
Qed.

Lemma merged_nodup l d :
  NoDup (dict_keys d) -> NoDup (dict_keys (fold_left merge_ports l d)).
Proof.
  revert d. induction l as [| c l IH]; intros d H; simpl; [exact H |].
  apply IH. now apply (dict_keys_update_nodup _ String.eqb_eq).
Qed.

Lemma merged_values l d p :
  In p (dict_values (fold_left merge_ports l d)) ->
  In p (dict_values d) \/ exists c, In c l /\ In p (chassis_get_ports c).
Proof.
  revert d. induction l as [| c l IH]; intros d; simpl; [now left |].
  intros H. apply IH in H. destruct H as [H | (c' & Hc' & H)]; [| eauto].
  unfold merge_ports in H. apply dict_values_update_in in H.
  destruct H as [H | H]; [now left |].
  right. exists c. split; [now left | now apply chassis_ports_values].
Qed.

Lemma merged_keyed l d :
  (forall k v, In (k, v) d -> k = port_name v) ->
  forall k v, In (k, v) (fold_left merge_ports l d) -> k = port_name v.
Proof.
  revert d. induction l as [| c l IH]; intros d H; simpl; [exact H |].
  apply IH. unfold merge_ports.
  apply (dict_update_keyed_items _ String.eqb_eq port_name); [exact H |].
  apply chassis_ports_keyed.
Qed.

End SessionPorts.

Lemma chassis_list_values s :
  NoDup (map c_name (s_chassis s)) -> dict_values (chassis_list s) = s_chassis s.
Proof.
  intros H. unfold chassis_list. rewrite session_get_chassis_children.
  rewrite (dict_update_fresh _ String.eqb_eq).
  - unfold dict_values. simpl. rewrite map_map. apply map_id.
  - simpl. now rewrite map_map.
Qed.

Lemma session_ports_merged s :
  NoDup (map c_name (s_chassis s)) ->
  session_ports s = fold_left merge_ports (s_chassis s) [].
Proof. intros H. unfold session_ports. now rewrite chassis_list_values. Qed.

(** Names of ports with addresses without slashes tell the address and the
    reference. *)
Lemma port_name_inj p q :
  PyStr.lacks PyStr.slash (p_chassis p) = true ->
  PyStr.lacks PyStr.slash (p_chassis q) = true ->
  port_name p = port_name q -> p_chassis p = p_chassis q /\ p_ref p = p_ref q.
Proof.
  intros Hp Hq E.
  assert (Ec : p_chassis p = p_chassis q).
  { rewrite <- (first_segment_chassis _ Hp), <- (first_segment_chassis _ Hq).
    unfold first_segment. now rewrite E. }
  split; [exact Ec |].
  unfold port_name in E. rewrite Ec in E.
  revert E. generalize (p_chassis q). intros a. induction a as [| x a IH]; simpl.
  - now intros [= ->].
  - intros [= E]. now apply IH.
Qed.

Lemma NoDup_map_coarser {A B C} (f : A -> B) (g : A -> C) l :
  (forall x y, g x = g y -> f x = f y) -> NoDup (map f l) -> NoDup (map g l).
Proof.
  intros Hfg. induction l as [| a l IH]; simpl; intros H; [constructor |].
  inversion H as [| ? ? Hnot Hnd]; subst. constructor; [| now apply IH].
  intros Hin. apply in_map_iff in Hin. destruct Hin as (b & E & Hb).
  apply Hnot. apply Hfg in E. rewrite <- E. now apply in_map.
Qed.

(** ** Session operations over groups of ports *)

Definition port_request (op : PortOp) (p : XenaPort) : Request :=
  PortCommand (p_chassis p) (p_ref p) op.

(** The ports an operation of the session works on, as
    [_get_operation_ports] gives them. *)
Definition operation_ports (s : State) (ports : list XenaPort) : list XenaPort :=
  match ports with
  | [] => dict_values (session_ports s)
  | _ => ports
  end.

Section GroupLoops.
Variable hw : Hardware.

Lemma port_commands_inv op ports s s' :
  for_each ports (fun p => port_command hw p op) s = (Ok tt, s') ->
  exists L, s' = set_log s (s_log s ++ L)
            /\ map fst L = map (port_request op) ports
            /\ Forall accepted (map snd L).
Proof.
  revert s. induction ports as [| p ports IH]; intros s H; simpl in H.
  - injection H as <-. exists []. split; [apply set_log_nil | split; constructor].
  - apply bind_inv in H. destruct H as [([] & s1 & H1 & H2) | (e & _ & E)];
      [| discriminate].
    apply port_command_inv in H1.
    destruct H1 as (a & -> & [(_ & Ha) | (e & _ & Ee)]); [| discriminate].
    apply IH in H2. destruct H2 as (L & -> & Hq & Hacc).
    exists ((port_request op p, a) :: L).
    split; [apply (set_log_app s [_] L) |]. simpl. rewrite Hq.
    split; [reflexivity | now constructor].
Qed.

(** A loop over the groups whose body, on the chassis of the group, only
    talks to the hardware. *)
Lemma groups_loop_inv (body : XenaChassis -> list XenaPort -> M unit)
    (T : XenaChassis -> list XenaPort -> list Event -> Prop) :
  (forall c g s s', body c g s = (Ok tt, s') ->
     exists L, s' = set_log s (s_log s ++ L) /\ T c g L) ->
  forall (d : dict Obj (list XenaPort)) s s',
    for_each d (fun kv => c <- as_chassis (fst kv) ;; body c (snd kv)) s = (Ok tt, s') ->
    exists Ls, s' = set_log s (s_log s ++ concat Ls)
               /\ Forall2 (fun g L => T (fst g) (snd g) L) (chassis_groups d) Ls.
Proof.
  intros Hbody d. induction d as [| [k g] d IH]; intros s s' H; simpl in H.
  - injection H as <-. exists []. split; [apply set_log_nil | constructor].
  - apply bind_inv in H. destruct H as [([] & s1 & H1 & H2) | (e & _ & E)];
      [| discriminate].
    apply bind_inv in H1. destruct H1 as [(c & s0 & Hc & H1) | (e & _ & E)];
      [| discriminate].
    destruct k as [c0 | m | p]; simpl in Hc; try discriminate.
    injection Hc as <- <-.
    apply Hbody in H1. destruct H1 as (L1 & -> & HT).
    apply IH in H2. destruct H2 as (Ls & -> & HF).
    exists (L1 :: Ls). split; [apply set_log_app |].
    simpl. now constructor.
Qed.

Lemma session_operation_groups ports s :
  bind (session_get_operation_ports ports) per_chassis_ports s
  = (match group_from (s_chassis s) [] (operation_ports s ports) with
     | Some d => Ok d
     | None => Err NotFound
     end, s).
Proof.
  unfold bind, session_get_operation_ports, per_chassis_ports.
  apply per_chassis_ports_from_run.
Qed.

End GroupLoops.

Lemma flat_map_groups {A} (f : XenaPort -> A) (groups : list (XenaChassis * list XenaPort)) :
  flat_map (fun g => map f (snd g)) groups = map f (flat_map snd groups).
Proof.
  induction groups as [| g groups IH]; [reflexivity |].
  simpl. now rewrite map_app, IH.
Qed.

Lemma chassis_groups_flat cs d :
  Forall (group_ok cs) d -> flat_map snd (chassis_groups d) = flat_map snd d.
Proof.
  induction 1 as [| [k ps] d (c & E & _) _ IH]; [reflexivity |].
  simpl in E. subst k. simpl. now rewrite IH.
Qed.

Lemma chassis_groups_ids cs d :
  Forall (group_ok cs) d ->
  map (fun g => c_id (fst g)) (chassis_groups d) = map group_id d.
Proof.
  induction 1 as [| [k ps] d (c & E & _) _ IH]; [reflexivity |].
  simpl in E. subst k. simpl. now rewrite IH.
Qed.

Lemma chassis_groups_owned cs d :
  Forall (group_ok cs) d ->
  Forall (fun g => In (fst g) cs /\ snd g <> []
                   /\ Forall (fun p => owner cs p = Some (fst g)) (snd g))
         (chassis_groups d).
Proof.
  induction 1 as [| [k ps] d (c & E & Hin & Hne & HF) _ IH]; [constructor |].
  simpl in E. subst k. simpl. constructor; [| exact IH]. now repeat split.
Qed.

(** The groups that a session operation works on. *)
Lemma operation_groups s ports d :
  wf (s_chassis s) ->
  group_from (s_chassis s) [] (operation_ports s ports) = Some d ->
  Permutation (flat_map snd (chassis_groups d)) (operation_ports s ports)
  /\ NoDup (map (fun g => c_id (fst g)) (chassis_groups d))
  /\ Forall (fun g => In (fst g) (s_chassis s) /\ snd g <> []
                      /\ Forall (fun p => owner (s_chassis s) p = Some (fst g)) (snd g))
            (chassis_groups d).
Proof.
  intros Hwf Hd.
  destruct (@group_from_ok _ _ _ _ (wf_ids Hwf) Hd) as (Hn & Hok);
    [constructor | constructor |].
  split; [| split].
  - rewrite (chassis_groups_flat Hok). now apply group_from_flat in Hd.
  - now rewrite (chassis_groups_ids Hok).
  - now apply chassis_groups_owned.
Qed.

(** In a well-formed session the port dictionary of the session has every
    port name of the tree once, and its values are ports of the tree. *)
Lemma session_ports_cover s :
  wf (s_chassis s) ->
  NoDup (map port_name (dict_values (session_ports s)))
  /\ (forall p, In p (dict_values (session_ports s)) ->
        exists c, In c (s_chassis s) /\ In p (chassis_get_ports c))
  /\ (forall c p, In c (s_chassis s) -> In p (chassis_get_ports c) ->
        exists q, In q (dict_values (session_ports s))
                  /\ p_chassis q = p_chassis p /\ p_ref q = p_ref p).
Proof.
  intros Hwf. rewrite (session_ports_merged _ (wf_names Hwf)).
  assert (Hkeyed : forall k v, In (k, v) (fold_left merge_ports (s_chassis s) [])
                               -> k = port_name v).
  { apply merged_keyed. intros k v []. }
  assert (Hvals : forall p, In p (dict_values (fold_left merge_ports (s_chassis s) []))
                            -> exists c, In c (s_chassis s) /\ In p (chassis_get_ports c)).
  { intros p Hp. apply merged_values in Hp. now destruct Hp as [[] | Hp]. }
  split; [| split].
  - rewrite (dict_keyed_values port_name _ Hkeyed). apply merged_nodup. constructor.
  - exact Hvals.
  - intros c p Hc Hp.
    assert (Hk : In (port_name p) (dict_keys (fold_left merge_ports (s_chassis s) []))).
    { apply merged_keys. right. exists c. split; [exact Hc | now apply in_map]. }
    rewrite <- (dict_keyed_values port_name _ Hkeyed) in Hk.
    apply in_map_iff in Hk. destruct Hk as (q & Eq & Hq).
    exists q. split; [exact Hq |].
    destruct (Hvals q Hq) as (c' & Hc' & Hq').
    apply port_name_inj; [| | exact Eq].
    + rewrite (wf_ports Hwf _ _ Hc' Hq'). now apply (wf_slash Hwf).
    + rewrite (wf_ports Hwf _ _ Hc Hp). now apply (wf_slash Hwf).
Qed.

Lemma session_group_operation_inv {A} ports (k : dict Obj (list XenaPort) -> M A)
    s r s' :
  (ps <- session_get_operation_ports ports ;; d <- per_chassis_ports ps ;; k d) s
  = (r, s') ->
  (exists d, group_from (s_chassis s) [] (operation_ports s ports) = Some d
             /\ k d s = (r, s'))
  \/ (group_from (s_chassis s) [] (operation_ports s ports) = None
      /\ r = Err NotFound /\ s' = s).
Proof.
  unfold bind at 1. unfold session_get_operation_ports. cbv beta iota.
  fold (operation_ports s ports). unfold bind, per_chassis_ports.
  rewrite per_chassis_ports_from_run.
  destruct (group_from (s_chassis s) [] (operation_ports s ports)) as [d |].
  - intros H. left. now exists d.
  - intros H. injection H as <- <-. now right.
Qed.

Lemma concat_requests (T : XenaChassis -> list XenaPort -> list Event -> Prop)
    (f : XenaPort -> Request) groups Ls :
  (forall c g L, T c g L -> map fst L = map f g /\ Forall accepted (map snd L)) ->
  Forall2 (fun g L => T (fst g) (snd g) L) groups Ls ->
  map fst (concat Ls) = flat_map (fun g => map f (snd g)) groups
  /\ Forall accepted (map snd (concat Ls)).
Proof.
  intros HT. induction 1 as [| g L groups Ls H _ IH]; [split; constructor |].
  destruct IH as (IH1 & IH2). apply HT in H. destruct H as (H1 & H2).
  simpl. rewrite !map_app. split; [f_equal; assumption |].
  apply Forall_app. now split.
Qed.

Lemma port_request_name op p q :
  port_request op p = port_request op q -> port_name p = port_name q.
Proof. unfold port_request, port_name. now intros [= -> ->]. Qed.

(** C6. When [XenaSession.clear_stats] returns on a well-formed session, the
    log has grown by accepted clear-statistics commands only, one for each
    port the call works on (the listed ports, or with no port listed the
    values of the port dictionary of the session), grouped by chassis: the
    groups belong to different chassis of the session, each holding the
    ports whose name leads to that chassis.  With no port listed no command
    is sent twice and every port of every chassis of the session gets its
    command. *)
Theorem clear_stats_targets_each_port_once
    (hw : Hardware) (s s' : State) (ports : list XenaPort)
    (Hwf : well_formed s = true)
    (Hrun : session_clear_stats hw ports s = (Ok tt, s')) :
  exists groups L,
    s' = set_log s (s_log s ++ L)
    /\ map fst L = flat_map (fun g => map (port_request ClearStats) (snd g)) groups
    /\ Forall accepted (map snd L)
    /\ Permutation (flat_map snd groups) (operation_ports s ports)
    /\ NoDup (map (fun g => c_id (fst g)) groups)
    /\ Forall (fun g => In (fst g) (s_chassis s) /\ snd g <> []
                        /\ Forall (fun p => owner (s_chassis s) p = Some (fst g)) (snd g))
              groups
    /\ Permutation (map fst L)
         (map (port_request ClearStats) (operation_ports s ports))
    /\ (ports <> [] -> operation_ports s ports = ports)
    /\ (ports = [] ->
        NoDup (map fst L)
        /\ forall c p, In c (s_chassis s) -> In p (chassis_get_ports c) ->
                       In (port_request ClearStats p) (map fst L)).
Proof.
  apply well_formed_wf in Hwf. unfold session_clear_stats in Hrun.
  apply session_group_operation_inv in Hrun.
  destruct Hrun as [(d & Hd & Hloop) | (_ & E & _)]; [| discriminate].
  destruct (@operation_groups _ _ _ Hwf Hd) as (Hperm & Hids & Hown).
  eapply groups_loop_inv
    with (body := chassis_clear_stats hw)
         (T := fun _ g L => map fst L = map (port_request ClearStats) g
                            /\ Forall accepted (map snd L)) in Hloop.
  2:{ intros c g s0 s0' H0. unfold chassis_clear_stats in H0.
      apply (port_commands_inv hw ClearStats) in H0.
      destruct H0 as (L & -> & H1 & H2). now exists L. }
  destruct Hloop as (Ls & -> & HF).
  destruct (@concat_requests _ (port_request ClearStats) _ _ (fun c g L H => H) HF)
    as (Hreq & Hacc).
  assert (HP : Permutation (map fst (concat Ls))
                 (map (port_request ClearStats) (operation_ports s ports))).
  { rewrite Hreq, flat_map_groups. now apply Permutation_map. }
  exists (chassis_groups d), (concat Ls).
  repeat split; try assumption.
  - intros Hne. destruct ports; [contradiction | reflexivity].
  - subst ports. simpl in HP.
    apply (Permutation_NoDup (Permutation_sym HP)).
    apply (NoDup_map_coarser port_name); [apply port_request_name |].
    now apply session_ports_cover.
  - subst ports. intros c p Hc Hp.
    destruct (@session_ports_cover _ Hwf) as (_ & _ & Hcov).
    destruct (Hcov c p Hc Hp) as (q & Hq & E1 & E2).
    apply (Permutation_in _ (Permutation_sym HP)). simpl.
    apply in_map_iff. exists q. split; [| exact Hq].
    unfold port_request. now rewrite E1, E2.
Qed.

(** On the test bench: the statistics of the three reserved ports of the two
    chassis are cleared. *)
Lemma clear_stats_targets_each_port_once_witness :
  exists s' L,
    session_clear_stats bench [] bench_reserved = (Ok tt, s')
    /\ s' = set_log bench_reserved (s_log bench_reserved ++ L)
    /\ NoDup (map fst L)
    /\ forall c p, In c (s_chassis bench_reserved) -> In p (chassis_get_ports c) ->
                   In (port_request ClearStats p) (map fst L).
Proof.
  assert (H : session_clear_stats bench [] bench_reserved
              = (Ok tt, snd (session_clear_stats bench [] bench_reserved)))
    by (vm_compute; reflexivity).
  destruct (@clear_stats_targets_each_port_once bench bench_reserved _ [] eq_refl H)
    as (groups & L & E & _ & _ & _ & _ & _ & _ & _ & Hall).
  destruct (Hall eq_refl) as (Hnd & Hcov).
  exists (snd (session_clear_stats bench [] bench_reserved)), L.
  split; [exact H | split; [exact E | split; [exact Hnd | exact Hcov]]].
Defined.

(** ** Starting traffic through the session *)

Lemma each_wait_observed attr v T ports L :
  each_trace (wait_trace attr v T) ports (Ok tt) L ->
  forall p, In p ports -> In (query p attr, Value v) L.
Proof.
  intros H. remember (Ok tt) as r0 eqn:Er.
  induction H as [| q l r L1 L2 H1 _ IH | q l e L1 H1]; subst; intros p Hp.
  - contradiction.
  - apply in_or_app. destruct Hp as [<- | Hp].
    + left. destruct H1 as (misses & -> & _). apply in_or_app. right. now left.
    + right. now apply IH.
  - discriminate.
Qed.

Lemma groups_observed (e : XenaPort -> Event)
    (T : XenaChassis * list XenaPort -> list Event -> Prop) groups Ls :
  (forall g L, T g L -> forall p, In p (snd g) -> In (e p) L) ->
  Forall2 T groups Ls ->
  forall p, In p (flat_map snd groups) -> In (e p) (concat Ls).
Proof.
  intros HT. induction 1 as [| g L groups Ls H _ IH]; intros p Hp; [contradiction |].
  simpl in *. apply in_app_or in Hp. apply in_or_app.
  destruct Hp as [Hp | Hp]; [left; eapply HT; eauto | right; now apply IH].
Qed.



Section StartTraffic.
Variable hw : Hardware.


Lemma Forall2_weaken {A B} (P Q : A -> B -> Prop) (R : A -> Prop) l l' :
  (forall x y, R x -> P x y -> Q x y) ->
  Forall R l -> Forall2 P l l' -> Forall2 Q l l'.
Proof.
  intros H HR HF. induction HF as [| x y l l' Hxy _ IH]; [constructor |].
  inversion HR; subst. constructor; auto.
Qed.

End StartTraffic.




(** ** Releasing the ports of the session *)

Lemma for_each_map {A B} (f : A -> B) (body : B -> M unit) l s :
  for_each (map f l) body s = for_each l (fun x => body (f x)) s.
Proof.
  revert s. induction l as [| x l IH]; intros s; [reflexivity |].
  simpl. unfold bind. destruct (body (f x) s) as [[[] | e] s1]; [apply IH | reflexivity].
Qed.


(** The port names of the tree. *)
Definition tree_names (cs : list XenaChassis) : list string :=
  flat_map (fun c => map port_name (chassis_get_ports c)) cs.


Section Release.
Variable hw : Hardware.

Lemma chassis_release_ports_inv c s s' :
  chassis_release_ports hw c s = (Ok tt, s') ->
  exists L, s' = set_log s (s_log s ++ L)
            /\ map fst L = map (port_request Release) (dict_values (chassis_ports c))
            /\ Forall accepted (map snd L).
Proof. unfold chassis_release_ports. apply (port_commands_inv hw Release). Qed.




End Release.

(** ** Reserving, then releasing *)

Lemma in_attach cid ch cs c' :
  In c' (attach cid ch cs) <->
  exists c0, In c0 cs
             /\ c' = if Nat.eqb (c_id c0) cid then add_child ch c0 else c0.
Proof.
  unfold attach. rewrite in_map_iff. split; intros (c0 & H1 & H2).
  - exists c0. now split.
  - exists c0. now split.
Qed.

Lemma attach_port_wf cs c n ref :
  wf cs -> In c cs ->
  wf (attach (c_id c) (ChildPort (mkPort n (c_name c) ref)) cs).
Proof.
  intros Hwf Hc. constructor.
  - rewrite attach_ids. apply (wf_ids Hwf).
  - rewrite attach_names. apply (wf_names Hwf).
  - intros c' Hc'. apply in_attach in Hc'. destruct Hc' as (c0 & H0 & ->).
    destruct (Nat.eqb (c_id c0) (c_id c)); simpl; now apply (wf_slash Hwf).
  - intros c' q Hc' Hq. apply in_attach in Hc'. destruct Hc' as (c0 & H0 & ->).
    destruct (Nat.eqb (c_id c0) (c_id c)) eqn:E.
    + apply Nat.eqb_eq in E.
      assert (c0 = c) by (apply (NoDup_map_inj c_id cs); auto; apply (wf_ids Hwf)).
      subst c0. rewrite chassis_get_ports_add_port in Hq. apply in_app_or in Hq.
      destruct Hq as [Hq | [<- | []]]; [simpl; now apply (wf_ports Hwf) | reflexivity].
    + now apply (wf_ports Hwf).
Qed.

Lemma attach_port_names cs c p0 n :
  In c cs ->
  In n (tree_names (attach (c_id c) (ChildPort p0) cs))
  <-> n = port_name p0 \/ In n (tree_names cs).
Proof.
  intros Hc. unfold tree_names. rewrite !in_flat_map. split.
  - intros (c' & Hc' & Hn). apply in_attach in Hc'. destruct Hc' as (c0 & H0 & ->).
    destruct (Nat.eqb (c_id c0) (c_id c)).
    + rewrite chassis_get_ports_add_port, map_app in Hn. apply in_app_or in Hn.
      destruct Hn as [Hn | [<- | []]]; [right; now exists c0 | now left].
    + right. now exists c0.
  - intros [-> | (c0 & H0 & Hn)].
    + exists (add_child (ChildPort p0) c). split.
      * apply in_attach. exists c. split; [exact Hc |]. now rewrite Nat.eqb_refl.
      * rewrite chassis_get_ports_add_port, map_app. apply in_or_app. right. now left.
    + exists (if Nat.eqb (c_id c0) (c_id c) then add_child (ChildPort p0) c0 else c0).
      split; [apply in_attach; now exists c0 |].
      destruct (Nat.eqb (c_id c0) (c_id c)); [| exact Hn].
      rewrite chassis_get_ports_add_port, map_app. apply in_or_app. now left.
Qed.

Section ReserveThenRelease.
Variable hw : Hardware.
Variable force : bool.

Lemma session_reserve_location_wf loc s s' :
  wf (s_chassis s) ->
  session_reserve_location hw force loc s = (Ok tt, s') ->
  wf (s_chassis s')
  /\ forall n, In n (tree_names (s_chassis s'))
               <-> n = loc \/ In n (tree_names (s_chassis s)).
Proof.
  intros Hwf H. apply session_reserve_location_inv in H.
  destruct H as [(E & _) | (ip & m & p & Es & [(_ & E & _) | (c & r0 & Hg & Hr & Er)])];
    try discriminate.
  apply chassis_list_get in Hg. destruct Hg as (Hc & Hname).
  apply chassis_reserve_one_tree in Hr. destruct Hr as (Ht & _).
  rewrite Ht. split; [now apply attach_port_wf |].
  intros n. rewrite (@attach_port_names _ _ _ n Hc).
  apply PyStrFacts.split_three in Es.
  assert (El : port_name (mkPort (s_next s) (c_name c) (m ++ "/" ++ p)%string) = loc).
  { unfold port_name. simpl. now rewrite Hname, Es. }
  now rewrite El.
Qed.

Lemma session_reserve_loop_wf locations s s' :
  wf (s_chassis s) ->
  for_each locations (session_reserve_location hw force) s = (Ok tt, s') ->
  wf (s_chassis s')
  /\ forall n, In n (tree_names (s_chassis s'))
               <-> In n locations \/ In n (tree_names (s_chassis s)).
Proof.
  revert s. induction locations as [| loc rest IH]; intros s Hwf H; simpl in H.
  - injection H as <-. split; [exact Hwf |]. intros n. simpl. tauto.
  - apply bind_inv in H. destruct H as [([] & s1 & H1 & H2) | (e & _ & E)];
      [| discriminate].
    apply session_reserve_location_wf in H1; [| exact Hwf].
    destruct H1 as (Hwf1 & Hn1).
    apply IH in H2; [| exact Hwf1]. destruct H2 as (Hwf2 & Hn2).
    split; [exact Hwf2 |]. intros n. rewrite Hn2, Hn1. simpl.
    split; intros H; intuition auto.
Qed.

End ReserveThenRelease.






(** ** Sessions built through the interface are well formed *)

(** A child of the chassis named [name]: it carries that name, as do the
    ports of a module, and the identity of a module is below the counter. *)
Definition child_ok (name : string) (bound : nat) (ch : Child) : Prop :=
  match ch with
  | ChildPort p => p_chassis p = name
  | ChildModule m =>
      m_chassis m = name /\ m_id m < bound
      /\ Forall (fun p => p_chassis p = name) (m_children m)
  end.

Record tree_ok (bound : nat) (cs : list XenaChassis) : Prop := mkTreeOk {
  ok_bound : Forall (fun c => c_id c < bound) cs;
  ok_ids : NoDup (map c_id cs);
  ok_names : NoDup (map c_name cs);
  ok_slash : Forall (fun c => PyStr.lacks PyStr.slash (c_name c) = true) cs;
  ok_children : Forall (fun c => Forall (child_ok (c_name c) bound) (c_children c)) cs
}.

Definition session_ok (s : State) : Prop := tree_ok (s_next s) (s_chassis s).

(** The identities and addresses of the chassis: they never change. *)
Definition labels (cs : list XenaChassis) : list (nat * string) :=
  map (fun c => (c_id c, c_name c)) cs.

(** The reference [self] names a chassis of the tree. *)
Definition live (cs : list XenaChassis) (self : XenaChassis) : Prop :=
  In (c_id self, c_name self) (labels cs).

(** The modules of identity [mid] are under the chassis named [name]. *)
Definition module_home (mid : nat) (name : string) (cs : list XenaChassis) : Prop :=
  forall c m, In c cs -> In (ChildModule m) (c_children c) -> m_id m = mid ->
              c_name c = name.

Lemma child_ok_mono name n n' ch : n <= n' -> child_ok name n ch -> child_ok name n' ch.
Proof.
  intros Hle. destruct ch as [m | p]; simpl; [| auto].
  intros (H1 & H2 & H3). repeat split; auto. lia.
Qed.

Lemma tree_ok_mono n n' cs : n <= n' -> tree_ok n cs -> tree_ok n' cs.
Proof.
  intros Hle [H1 H2 H3 H4 H5]. constructor; auto.
  - eapply Forall_impl; [| exact H1]. intros c Hc. simpl in Hc. lia.
  - eapply Forall_impl; [| exact H5]. intros c Hc.
    eapply Forall_impl; [| exact Hc]. intros ch. now apply child_ok_mono.
Qed.

Lemma live_name n cs self c :
  tree_ok n cs -> live cs self -> In c cs -> c_id c = c_id self ->
  c_name c = c_name self.
Proof.
  intros Hok Hlive Hc Hid. unfold live, labels in Hlive.
  apply in_map_iff in Hlive. destruct Hlive as (c' & E & Hc').
  injection E as E1 E2.
  assert (c' = c).
  { apply (NoDup_map_inj c_id cs); auto; [apply (ok_ids Hok) | congruence]. }
  now subst c'.
Qed.

Lemma labels_attach cid ch cs : labels (attach cid ch cs) = labels cs.
Proof.
  unfold labels, attach. rewrite map_map. apply map_ext. intros c.
  now destruct (Nat.eqb (c_id c) cid).
Qed.

Lemma labels_modify mid f cs : labels (modify_modules mid f cs) = labels cs.
Proof. unfold labels, modify_modules. rewrite map_map. now apply map_ext. Qed.

Lemma labels_ids cs : map fst (labels cs) = map c_id cs.
Proof. unfold labels. rewrite map_map. now apply map_ext. Qed.

Lemma labels_names cs : map snd (labels cs) = map c_name cs.
Proof. unfold labels. rewrite map_map. now apply map_ext. Qed.

(** A new child of the right name under a live chassis. *)
Lemma tree_ok_attach n cs self ch :
  tree_ok n cs -> live cs self -> child_ok (c_name self) n ch ->
  tree_ok n (attach (c_id self) ch cs).
Proof.
  intros Hok Hlive Hch. pose proof Hok as [H1 H2 H3 H4 H5]. constructor.
  - apply Forall_forall. intros c Hc. apply in_attach in Hc.
    destruct Hc as (c0 & H0 & ->). rewrite Forall_forall in H1.
    destruct (Nat.eqb (c_id c0) (c_id self)); simpl; now apply H1.
  - now rewrite attach_ids.
  - now rewrite attach_names.
  - apply Forall_forall. intros c Hc. apply in_attach in Hc.
    destruct Hc as (c0 & H0 & ->). rewrite Forall_forall in H4.
    destruct (Nat.eqb (c_id c0) (c_id self)); simpl; now apply H4.
  - apply Forall_forall. intros c Hc. apply in_attach in Hc.
    destruct Hc as (c0 & H0 & ->). rewrite Forall_forall in H5.
    destruct (Nat.eqb (c_id c0) (c_id self)) eqn:E; [| now apply H5].
    apply Nat.eqb_eq in E. simpl. apply Forall_app. split; [now apply H5 |].
    constructor; [| constructor].
    now rewrite (@live_name n cs self c0 Hok Hlive H0 E).
Qed.

Lemma tree_ok_set_info n cid info cs :
  tree_ok n cs ->
  tree_ok n (map (fun c => if Nat.eqb (c_id c) cid then set_c_info info c else c) cs).
Proof.
  intros [H1 H2 H3 H4 H5].
  assert (G : forall (P : XenaChassis -> Prop),
             (forall c, P c -> P (set_c_info info c)) ->
             Forall P cs ->
             Forall P (map (fun c => if Nat.eqb (c_id c) cid
                                     then set_c_info info c else c) cs)).
  { intros P HP HF. apply Forall_forall. intros c Hc. apply in_map_iff in Hc.
    destruct Hc as (c0 & <- & H0). rewrite Forall_forall in HF.
    destruct (Nat.eqb (c_id c0) cid); [apply HP |]; now apply HF. }
  constructor.
  - apply G; auto.
  - rewrite map_map. erewrite map_ext; [exact H2 |].
    intros c. now destruct (Nat.eqb (c_id c) cid).
  - rewrite map_map. erewrite map_ext; [exact H3 |].
    intros c. now destruct (Nat.eqb (c_id c) cid).
  - apply G; auto.
  - apply G; auto.
Qed.

(** A change of the modules of identity [mid] that keeps their identity and
    address and gives them ports of the right name only. *)
Lemma tree_ok_modify n mid f cs :
  tree_ok n cs ->
  (forall m, m_id (f m) = m_id m /\ m_chassis (f m) = m_chassis m) ->
  (forall c m, In c cs -> In (ChildModule m) (c_children c) -> m_id m = mid ->
     Forall (fun p => p_chassis p = c_name c) (m_children (f m))) ->
  tree_ok n (modify_modules mid f cs).
Proof.
  intros [H1 H2 H3 H4 H5] Hf Hports. unfold modify_modules. constructor.
  - apply Forall_forall. intros c Hc. apply in_map_iff in Hc.
    destruct Hc as (c0 & <- & H0). rewrite Forall_forall in H1. simpl. now apply H1.
  - rewrite map_map. simpl. exact H2.
  - rewrite map_map. simpl. exact H3.
  - apply Forall_forall. intros c Hc. apply in_map_iff in Hc.
    destruct Hc as (c0 & <- & H0). rewrite Forall_forall in H4. simpl. now apply H4.
  - apply Forall_forall. intros c Hc. apply in_map_iff in Hc.
    destruct Hc as (c0 & <- & H0). rewrite Forall_forall in H5. simpl.
    specialize (H5 c0 H0). apply Forall_forall. intros ch Hch.
    apply in_map_iff in Hch. destruct Hch as (ch0 & <- & Hch0).
    rewrite Forall_forall in H5. specialize (H5 ch0 Hch0).
    destruct ch0 as [m | p]; simpl; [| exact H5].
    destruct (Nat.eqb (m_id m) mid) eqn:E; [| exact H5].
    apply Nat.eqb_eq in E. simpl in *. destruct H5 as (E1 & E2 & _).
    destruct (Hf m) as (Hid & Hch). rewrite Hid, Hch.
    repeat split; auto; now apply (Hports c0 m).
Qed.

Lemma module_home_modify mid name mid' f cs :
  (forall m, m_id (f m) = m_id m) ->
  module_home mid name cs -> module_home mid name (modify_modules mid' f cs).
Proof.
  intros Hf Hhome c m Hc Hm Hid. unfold modify_modules in Hc.
  apply in_map_iff in Hc. destruct Hc as (c0 & <- & H0). simpl in *.
  apply in_map_iff in Hm. destruct Hm as (ch0 & E & Hch0).
  destruct ch0 as [m0 | p0]; simpl in E; [| discriminate].
  apply (Hhome c0 m0 H0 Hch0).
  destruct (Nat.eqb (m_id m0) mid'); injection E as <-; [now rewrite Hf in Hid | exact Hid].
Qed.

(** A module with a new identity has its home under the chassis it was
    registered with. *)
Lemma module_home_attach n cs self idx :
  tree_ok n cs -> live cs self ->
  module_home n (c_name self)
    (attach (c_id self) (ChildModule (mkModule n (c_name self) idx None [])) cs).
Proof.
  intros Hok Hlive c m Hc Hm Hid. apply in_attach in Hc.
  destruct Hc as (c0 & H0 & ->).
  assert (Hold : forall m0, In (ChildModule m0) (c_children c0) -> m_id m0 < n).
  { intros m0 Hm0. pose proof (ok_children Hok) as H5.
    rewrite Forall_forall in H5. specialize (H5 c0 H0).
    rewrite Forall_forall in H5. apply H5 in Hm0. now destruct Hm0 as (_ & H & _). }
  destruct (Nat.eqb (c_id c0) (c_id self)) eqn:E.
  - apply Nat.eqb_eq in E. simpl. now apply (@live_name n cs self c0 Hok Hlive H0).
  - apply Hold in Hm. lia.
Qed.

(** What an operation keeps, whatever its result. *)
Definition preserves {A} (P : State -> Prop) (m : M A) : Prop :=
  forall s, P s -> P (snd (m s)).

(** A property of the tree and of the identity counter only. *)
Definition tree_pred (P : State -> Prop) : Prop :=
  forall s s', keeps_tree s s' -> P s -> P s'.

Lemma preserves_bind {A B} (P : State -> Prop) (m : M A) (f : A -> M B) :
  preserves P m -> (forall a, preserves P (f a)) -> preserves P (bind m f).
Proof.
  intros Hm Hf s Hs. unfold bind. specialize (Hm s Hs).
  destruct (m s) as [[a | e] s1]; simpl in *; [now apply Hf | exact Hm].
Qed.

Lemma preserves_for_each_in {A} (P : State -> Prop) (body : A -> M unit) l :
  (forall x, In x l -> preserves P (body x)) -> preserves P (for_each l body).
Proof.
  induction l as [| x l IH]; intros Hbody s Hs; [exact Hs |].
  simpl. apply preserves_bind; [apply Hbody; now left | | exact Hs].
  intros _. apply IH. intros y Hy. apply Hbody. now right.
Qed.

Lemma preserves_for_each {A} (P : State -> Prop) (body : A -> M unit) l :
  (forall x, preserves P (body x)) -> preserves P (for_each l body).
Proof. intros Hbody. apply preserves_for_each_in. intros x _. apply Hbody. Qed.

Lemma preserves_log {A} (P : State -> Prop) (m : M A) :
  tree_pred P -> (forall s, keeps_tree s (snd (m s))) -> preserves P m.
Proof. intros HP Hm s Hs. eapply HP; [apply Hm | exact Hs]. Qed.

Lemma preserves_read {A} (P : State -> Prop) (m : M A) :
  (forall s, snd (m s) = s) -> preserves P m.
Proof. intros Hm s Hs. now rewrite Hm. Qed.

(** The session is in order and its chassis are the ones labelled [L]. *)
Definition stable (L : list (nat * string)) (s : State) : Prop :=
  session_ok s /\ labels (s_chassis s) = L.

Lemma stable_tree_pred L : tree_pred (stable L).
Proof.
  intros s s' (_ & Hc & Hn) (Hok & Hl). unfold stable, session_ok.
  now rewrite Hc, Hn.
Qed.

Lemma stable_live L s self :
  stable L s -> In (c_id self, c_name self) L -> live (s_chassis s) self.
Proof. intros (_ & <-) H. exact H. Qed.

Section Reachable.
Variable hw : Hardware.

Lemma keeps_tree_of_option {A} e (o : option A) s :
  keeps_tree s (snd (of_option e o s)).
Proof. destruct o; apply keeps_tree_refl. Qed.

Lemma keeps_tree_module_port_count m info s :
  keeps_tree s (snd (module_port_count hw m info s)).
Proof.
  unfold module_port_count, subscript.
  apply keeps_tree_bind; intros; [apply keeps_tree_of_option |].
  destruct (PyStr.contains "NOTCFP" a).
  - apply keeps_tree_bind; intros; [apply keeps_tree_get_attribute |].
    apply keeps_tree_of_option.
  - apply keeps_tree_bind; intros; [apply keeps_tree_get_attribute |].
    apply keeps_tree_bind; intros; apply keeps_tree_of_option.
Qed.

Lemma preserves_reserve_body L self force loc :
  In (c_id self, c_name self) L ->
  preserves (stable L) (reserve_body hw self force loc).
Proof.
  intros Hself s Hs. destruct (reserve_body hw self force loc s) as [r s'] eqn:E.
  apply reserve_body_inv in E. destruct E as (_ & Hc & Hn & _). simpl.
  pose proof (@stable_live _ _ _ Hs Hself) as Hlive. destruct Hs as (Hok & Hl).
  split.
  - unfold session_ok. rewrite Hc, Hn.
    apply tree_ok_attach; [| exact Hlive | reflexivity].
    apply (tree_ok_mono (n := s_next s)); [lia | exact Hok].
  - now rewrite Hc, labels_attach.
Qed.

Lemma preserves_chassis_reserve_ports L self locations force :
  In (c_id self, c_name self) L ->
  preserves (stable L) (chassis_reserve_ports hw self locations force).
Proof.
  intros Hself. rewrite chassis_reserve_ports_unfold.
  apply preserves_bind.
  - apply preserves_for_each. intros loc. now apply preserves_reserve_body.
  - intros _. apply preserves_read. intros s. unfold bind, live_chassis, ret.
    now destruct (find_chassis (c_id self) s).
Qed.

Lemma chassis_list_label s ip c :
  dict_get String.eqb ip (chassis_list s) = Some c ->
  In (c_id c, c_name c) (labels (s_chassis s)).
Proof.
  intros H. apply chassis_list_get in H. destruct H as (Hc & _).
  unfold labels. apply in_map_iff. now exists c.
Qed.

Lemma preserves_session_reserve_location L force loc :
  preserves (stable L) (session_reserve_location hw force loc).
Proof.
  intros s Hs. destruct (session_reserve_location hw force loc s) as [r s'] eqn:E.
  simpl. apply session_reserve_location_inv in E.
  destruct E as [(_ & -> & _) | (ip & m & p & _ & [(_ & _ & ->) | (c & r0 & Hg & Hr & _)])];
    try exact Hs.
  apply chassis_list_label in Hg. destruct Hs as (Hok & Hl). rewrite Hl in Hg.
  pose proof (@preserves_chassis_reserve_ports L c [(m ++ "/" ++ p)%string] force Hg s
                (conj Hok Hl)) as H.
  now rewrite Hr in H.
Qed.

Lemma preserves_session_reserve_ports L locations force :
  preserves (stable L) (session_reserve_ports hw locations force).
Proof.
  unfold session_reserve_ports. apply preserves_bind.
  - apply preserves_for_each. intros loc. apply preserves_session_reserve_location.
  - intros _. now apply preserves_read.
Qed.

(** Ports are added to a module whose home is known. *)
Definition at_home (L : list (nat * string)) (m : XenaModule) (s : State) : Prop :=
  stable L s /\ module_home (m_id m) (m_chassis m) (s_chassis s).

Lemma at_home_tree_pred L m : tree_pred (at_home L m).
Proof.
  intros s s' Hk (Hs & Hh). split; [now apply (@stable_tree_pred _ _ _ Hk) |].
  destruct Hk as (_ & -> & _). exact Hh.
Qed.

Lemma child_ports_ok n cs c m :
  tree_ok n cs -> In c cs -> In (ChildModule m) (c_children c) ->
  Forall (fun p => p_chassis p = c_name c) (m_children m).
Proof.
  intros Hok Hc Hm. pose proof (ok_children Hok) as H5.
  rewrite Forall_forall in H5. specialize (H5 c Hc).
  rewrite Forall_forall in H5. apply H5 in Hm. now destruct Hm as (_ & _ & H).
Qed.

Lemma at_home_modify L m f s :
  (forall m', m_id (f m') = m_id m' /\ m_chassis (f m') = m_chassis m') ->
  (forall c m', In c (s_chassis s) -> In (ChildModule m') (c_children c) ->
     m_id m' = m_id m -> c_name c = m_chassis m ->
     Forall (fun p => p_chassis p = c_name c) (m_children m') ->
     Forall (fun p => p_chassis p = c_name c) (m_children (f m'))) ->
  forall n', s_next s <= n' ->
  at_home L m s ->
  at_home L m (mkState (s_owner s) (modify_modules (m_id m) f (s_chassis s)) n' (s_log s)).
Proof.
  intros Hf Hports n' Hle ((Hok & Hl) & Hhome). split; [split |]; simpl.
  - unfold session_ok. simpl. apply (tree_ok_mono (n := s_next s)); [exact Hle |].
    apply tree_ok_modify; [exact Hok | exact Hf |].
    intros c m' Hc Hm' Hid. apply Hports; auto.
    + now apply (Hhome c m').
    + now apply (@child_ports_ok _ _ _ _ Hok Hc).
  - now rewrite labels_modify.
  - apply module_home_modify; [| exact Hhome]. intros m'. now destruct (Hf m').
Qed.

Lemma preserves_module_port_body L m p_index :
  preserves (at_home L m) (module_port_body hw m p_index).
Proof.
  intros s Hs. unfold module_port_body.
  rewrite (bind_ok _ _ _ (XenaPort_under_module_run m _ s)).
  apply (@preserves_log _ _ _ (@at_home_tree_pred L m)
           (fun t => keeps_tree_port_command hw _ PortInventory t)).
  apply (@at_home_modify L m (add_port _)); [now split | | simpl; lia | exact Hs].
  intros c m' _ _ _ Hname Hold. simpl. apply Forall_app. split; [exact Hold |].
  now repeat constructor.
Qed.

Lemma preserves_module_inventory L m :
  preserves (at_home L m) (module_inventory hw m).
Proof.
  unfold module_inventory. apply preserves_bind.
  - apply (@preserves_log _ _ _ (@at_home_tree_pred L m)). intros s.
    apply keeps_tree_get_attributes.
  - intros info. apply preserves_bind.
    + intros s Hs. unfold update_module. simpl.
      apply (@at_home_modify L m (set_m_info info)) with (n' := s_next s) in Hs;
        [exact Hs | now split | | lia].
      intros c m' _ _ _ _ Hold. exact Hold.
    + intros _. apply preserves_bind.
      * apply (@preserves_log _ _ _ (@at_home_tree_pred L m)). intros s.
        apply keeps_tree_module_port_count.
      * intros count. apply preserves_for_each. intros i.
        apply preserves_module_port_body.
Qed.

Lemma preserves_chassis_inventory_body L self im :
  In (c_id self, c_name self) L ->
  preserves (stable L) (chassis_inventory_body hw self im).
Proof.
  intros Hself. unfold chassis_inventory_body. apply preserves_bind.
  - apply (@preserves_log _ _ _ (@stable_tree_pred L)). intros s. apply keeps_tree_of_option.
  - intros n. destruct (Z.eqb n 0); [now apply preserves_read |].
    intros s Hs.
    change ((m <- XenaModule_init self (fst im) ;; module_inventory hw m) s)
      with (module_inventory hw (mkModule (s_next s) (c_name self) (fst im) None [])
              (mkState (s_owner s)
                 (attach (c_id self)
                    (ChildModule (mkModule (s_next s) (c_name self) (fst im) None []))
                    (s_chassis s))
                 (S (s_next s)) (s_log s))).
    pose proof (@stable_live _ _ _ Hs Hself) as Hlive. destruct Hs as (Hok & Hl).
    eapply preserves_module_inventory with (L := L).
    split; [split |]; simpl.
    + unfold session_ok. simpl. apply tree_ok_attach; [| exact Hlive |].
      * apply (tree_ok_mono (n := s_next s)); [lia | exact Hok].
      * simpl. repeat split; [lia | constructor].
    + now rewrite labels_attach.
    + now apply module_home_attach.
Qed.

Lemma preserves_chassis_inventory L self :
  In (c_id self, c_name self) L ->
  preserves (stable L) (chassis_inventory hw self).
Proof.
  intros Hself. unfold chassis_inventory. apply preserves_bind.
  - apply (@preserves_log _ _ _ (@stable_tree_pred L)). intros s.
    apply keeps_tree_get_attributes.
  - intros info. apply preserves_bind.
    + intros s (Hok & Hl). unfold update_chassis. simpl. split.
      * unfold session_ok. simpl. now apply tree_ok_set_info.
      * simpl. rewrite <- Hl. unfold labels. rewrite map_map. apply map_ext.
        intros c. now destruct (Nat.eqb (c_id c) (c_id self)).
    + intros _. apply preserves_bind.
      * apply (@preserves_log _ _ _ (@stable_tree_pred L)). intros s.
        apply keeps_tree_of_option.
      * intros portcounts. apply preserves_for_each. intros im.
        now apply preserves_chassis_inventory_body.
Qed.

Lemma preserves_session_inventory L :
  preserves (stable L) (session_inventory hw).
Proof.
  intros s Hs. unfold session_inventory, bind.
  rewrite session_get_chassis_children.
  apply preserves_for_each_in; [| exact Hs].
  intros c Hc. apply preserves_chassis_inventory.
  destruct Hs as (_ & <-). unfold labels. apply in_map_iff. now exists c.
Qed.

(** A new chassis. *)
Lemma add_chassis_ok address tcp password s :
  PyStr.lacks PyStr.slash address = true ->
  session_ok s -> session_ok (snd (add_chassis hw address tcp password s)).
Proof.
  intros Hslash Hok.
  destruct (dict_mem String.eqb address (chassis_list s)) eqn:E.
  - unfold add_chassis. now rewrite E.
  - pose proof (add_chassis_new_tree hw address tcp password s E) as (_ & Hc & Hn).
    unfold session_ok. rewrite Hc, Hn. simpl.
    assert (Hnot : ~ In address (map c_name (s_chassis s))).
    { intros Hin. apply chassis_list_mem in Hin. congruence. }
    destruct Hok as [H1 H2 H3 H4 H5]. constructor.
    + apply Forall_app. split; [| repeat constructor].
      eapply Forall_impl; [| exact H1]. intros c Hc'. simpl in Hc'. lia.
    + rewrite map_app. simpl. apply NoDup_app; [exact H2 | repeat constructor; intros [] |].
      intros i Hi [<- | []]. apply in_map_iff in Hi. destruct Hi as (c & Ei & Hc').
      rewrite Forall_forall in H1. apply H1 in Hc'. lia.
    + rewrite map_app. simpl. apply NoDup_app; [exact H3 | repeat constructor; intros [] |].
      intros a Ha [<- | []]. contradiction.
    + apply Forall_app. split; [exact H4 | now repeat constructor].
    + apply Forall_app. split; [| now repeat constructor].
      eapply Forall_impl; [| exact H5]. intros c Hc'.
      eapply Forall_impl; [| exact Hc']. intros ch. apply child_ok_mono. lia.
Qed.

(** The sessions that the interface builds: from a new session, chassis
    are added at addresses without a slash, ports are reserved, inventories
    are taken, and any operation that only talks to the hardware runs. *)
Inductive reachable : State -> Prop :=
| reach_init owner : reachable (XenaSession_init owner)
| reach_add_chassis s address tcp password :
    reachable s -> PyStr.lacks PyStr.slash address = true ->
    reachable (snd (add_chassis hw address tcp password s))
| reach_reserve_ports s locations force :
    reachable s -> reachable (snd (session_reserve_ports hw locations force s))
| reach_inventory s :
    reachable s -> reachable (snd (session_inventory hw s))
| reach_log s s' :
    reachable s -> keeps_tree s s' -> reachable s'.

Lemma reachable_ok s : reachable s -> session_ok s.
Proof.
  induction 1 as [owner | s a tcp pw _ IH Hs | s locs force _ IH | s _ IH | s s' _ IH Hk].
  - constructor; constructor.
  - now apply add_chassis_ok.
  - now apply (@preserves_session_reserve_ports (labels (s_chassis s)) locs force s).
  - now apply (@preserves_session_inventory (labels (s_chassis s)) s).
  - destruct Hk as (_ & Hc & Hn). unfold session_ok. now rewrite Hc, Hn.
Qed.

End Reachable.

Lemma NoDup_nodupb {A} (eqb : A -> A -> bool) l :
  (forall a b, eqb a b = true <-> a = b) -> NoDup l -> nodupb eqb l = true.
Proof.
  intros Hspec. induction 1 as [| x l Hnot _ IH]; [reflexivity |].
  simpl. rewrite IH, andb_true_r. apply negb_true_iff.
  destruct (existsb (eqb x) l) eqn:E; [| reflexivity].
  apply existsb_exists in E. destruct E as (y & Hy & Exy).
  apply Hspec in Exy. subst y. contradiction.
Qed.

Lemma child_ok_ports n cs c p :
  tree_ok n cs -> In c cs -> In p (chassis_get_ports c) -> p_chassis p = c_name c.
Proof.
  intros Hok Hc Hp. pose proof (ok_children Hok) as H5.
  rewrite Forall_forall in H5. specialize (H5 c Hc).
  unfold chassis_get_ports, chassis_descendants, only_ports in Hp.
  apply in_flat_map in Hp. destruct Hp as (o & Ho & Hp).
  apply in_flat_map in Ho. destruct Ho as (ch & Hch & Ho).
  rewrite Forall_forall in H5. specialize (H5 ch Hch).
  destruct ch as [m | q]; simpl in Ho.
  - destruct Ho as [<- | Ho]; [contradiction |].
    unfold module_descendants in Ho. apply in_map_iff in Ho.
    destruct Ho as (q & <- & Hq). destruct Hp as [<- | []].
    destruct H5 as (_ & _ & H5). rewrite Forall_forall in H5. now apply H5.
  - destruct Ho as [<- | []]. destruct Hp as [<- | []]. exact H5.
Qed.

(** Every session the interface builds is well formed. *)
Lemma reachable_well_formed hw s : reachable hw s -> well_formed s = true.
Proof.
  intros H. apply reachable_ok in H. unfold well_formed.
  rewrite (@NoDup_nodupb _ Nat.eqb _ Nat.eqb_eq (ok_ids H)).
  rewrite (@NoDup_nodupb _ String.eqb _ String.eqb_eq (ok_names H)). simpl.
  apply forallb_forall. intros c Hc.
  pose proof (ok_slash H) as H4. rewrite Forall_forall in H4.
  rewrite (H4 c Hc). simpl. apply forallb_forall. intros p Hp.
  apply String.eqb_eq. now apply (@child_ok_ports _ _ _ _ H Hc).
Qed.

(** * Further properties of the session, the chassis and the module *)

(** ** Requests that wait for their acknowledgement *)

(** One request was sent and answered: accepted when the call returns, the
    rejection of the hardware when it raises. *)
Definition answered (req : Request) (r : Result unit) (L : list Event) : Prop :=
  exists a, L = [(req, a)]
            /\ match r with
               | Ok _ => accepted a
               | Err e => a = Fail e
               end.

Lemma answered_request req r L : answered req r L -> map fst L = [req].
Proof. now intros (a & -> & _). Qed.

Lemma each_answered_requests {A} (f : A -> Request) l r L :
  each_trace (fun x => answered (f x)) l r L ->
  exists done rest, l = done ++ rest /\ map fst L = map f done
                    /\ (r = Ok tt -> rest = []).
Proof.
  induction 1 as [| x l r L1 L2 H1 _ (done & rest & -> & E & Hr) | x l e L1 H1].
  - exists [], []. now repeat split.
  - exists (x :: done), rest. apply answered_request in H1.
    split; [reflexivity | split; [| exact Hr]].
    rewrite map_app. change (map f (x :: done)) with ([f x] ++ map f done).
    f_equal; assumption.
  - exists [x], l. apply answered_request in H1.
    split; [reflexivity | split; [exact H1 | discriminate]].
Qed.

Section Acknowledged.
Variable hw : Hardware.

Lemma request_ack_inv req s r s' :
  (a <- exchange hw req ;; acknowledged a) s = (r, s') ->
  exists L, s' = set_log s (s_log s ++ L) /\ answered req r L.
Proof.
  intros H. rewrite (bind_ok _ _ _ (exchange_run hw _ _)) in H.
  apply acknowledged_inv in H. destruct H as (-> & [(-> & Ha) | (e & Ha & ->)]).
  - exists [(req, hw (s_log s) req)]. split; [reflexivity |]. now eexists.
  - exists [(req, hw (s_log s) req)]. split; [reflexivity |]. now eexists.
Qed.

(** A loop of acknowledged requests, with the state it leaves. *)
Lemma request_loop_inv {A} (f : A -> Request) l s r s' :
  for_each l (fun x => a <- exchange hw (f x) ;; acknowledged a) s = (r, s') ->
  exists L, s' = set_log s (s_log s ++ L)
            /\ each_trace (fun x => answered (f x)) l r L.
Proof.
  revert s. induction l as [| x l IH]; intros s H; simpl in H.
  - injection H as <- <-. exists []. split; [apply set_log_nil | constructor].
  - apply bind_inv in H. destruct H as [([] & s1 & H1 & H2) | (e & H1 & ->)].
    + apply request_ack_inv in H1. destruct H1 as (L1 & -> & T1).
      apply IH in H2. destruct H2 as (L2 & -> & T2).
      exists (L1 ++ L2). split; [apply set_log_app | now constructor].
    + apply request_ack_inv in H1. destruct H1 as (L1 & -> & T1).
      exists L1. split; [reflexivity | now constructor].
Qed.

End Acknowledged.

(** ** A chassis at a new address *)

(** X1. [add_chassis] with an address that no chassis of the session has
    registers one new chassis node, last in the session, without inventory
    data and without children, whatever the hardware answers.  It opens the
    connection, then sends the logon with the quoted password, then the
    owner of the session, quoted: each is sent only when the one before was
    accepted, and the first rejection is the error raised. *)
Theorem add_chassis_new_address
    (hw : Hardware) (s s' : State) (address : string) (tcp : Z) (password : string)
    (r : Result unit)
    (Hnew : ~ In address (map c_name (s_chassis s)))
    (Hrun : add_chassis hw address tcp password s = (r, s')) :
  exists L,
    s' = mkState (s_owner s)
           (s_chassis s ++ [mkChassis (s_next s) address None []])
           (S (s_next s)) (s_log s ++ L)
    /\ each_trace (fun req => answered req)
         [Connect address tcp;
          Command address EmptyString "c_logon" [quoted password];
          Command address EmptyString "c_owner" [quoted (s_owner s)]] r L.
Proof.
  assert (E : dict_mem String.eqb address (chassis_list s) = false).
  { destruct (dict_mem String.eqb address (chassis_list s)) eqn:E; [| reflexivity].
    apply chassis_list_mem in E. contradiction. }
  unfold add_chassis in Hrun. rewrite E in Hrun.
  change ((c <- XenaChassis_init hw address tcp ;;
           chassis_logon hw c password (s_owner s)) s)
    with ((c <- (a <- exchange hw (Connect address tcp) ;; acknowledged a ;;
                 ret (mkChassis (s_next s) address None [])) ;;
           chassis_logon hw c password (s_owner s)) (registered address s)) in Hrun.
  assert (G : for_each [Connect address tcp;
                        Command address EmptyString "c_logon" [quoted password];
                        Command address EmptyString "c_owner" [quoted (s_owner s)]]
                (fun req => a <- exchange hw req ;; acknowledged a)
                (registered address s) = (r, s')).
  { rewrite <- Hrun.
    cbv [for_each chassis_logon send_command bind exchange acknowledged ret raise c_name].
    repeat match goal with
           | |- context [match hw ?l ?q with _ => _ end] => destruct (hw l q)
           end; reflexivity. }
  apply request_loop_inv in G. destruct G as (L & -> & HT).
  exists L. split; [reflexivity | exact HT].
Qed.

(** On the test bench: a third chassis. *)
Lemma add_chassis_new_address_witness :
  exists L,
    snd (add_chassis bench "10.0.0.3" 22611 "xena" bench_connected)
    = mkState "tester"
        (s_chassis bench_connected ++ [mkChassis 2 "10.0.0.3" None []])
        3 (s_log bench_connected ++ L)
    /\ each_trace (fun req => answered req)
         [Connect "10.0.0.3" 22611;
          Command "10.0.0.3" EmptyString "c_logon" [quoted "xena"];
          Command "10.0.0.3" EmptyString "c_owner" [quoted "tester"]] (Ok tt) L.
Proof.
  assert (Hnew : ~ In "10.0.0.3" (map c_name (s_chassis bench_connected))).
  { simpl. intros [H | [H | []]]; discriminate. }
  assert (Hrun : add_chassis bench "10.0.0.3" 22611 "xena" bench_connected
                 = (Ok tt, snd (add_chassis bench "10.0.0.3" 22611 "xena"
                                  bench_connected)))
    by (vm_compute; reflexivity).
  exact (@add_chassis_new_address bench bench_connected _ "10.0.0.3" 22611 "xena"
           (Ok tt) Hnew Hrun).
Defined.

(** ** Operations that leave the tree alone *)

Section Frame.
Variable hw : Hardware.

Lemma keeps_tree_grouping ports s :
  keeps_tree s (snd (bind (session_get_operation_ports ports) per_chassis_ports s)).
Proof. rewrite session_operation_groups. apply keeps_tree_refl. Qed.

Lemma keeps_tree_groups_loop {K} (key : K -> Obj) (body : XenaChassis -> K -> M unit) :
  (forall c k s, keeps_tree s (snd (body c k s))) ->
  forall (l : list K) s,
    keeps_tree s (snd (for_each l (fun k => c <- as_chassis (key k) ;; body c k) s)).
Proof.
  intros Hbody. apply keeps_tree_for_each. intros k.
  apply keeps_tree_bind.
  - intros s. destruct (key k); apply keeps_tree_refl.
  - intros c s. apply Hbody.
Qed.

Lemma keeps_tree_wait_each attr timeout expected ports s :
  keeps_tree s
    (snd (for_each ports (fun p => wait_for_states hw p attr timeout expected) s)).
Proof. apply keeps_tree_for_each. intros p t. apply keeps_tree_poll. Qed.

Lemma keeps_tree_chassis_traffic_command c command ports s :
  keeps_tree s (snd (chassis_traffic_command hw c command ports s)).
Proof.
  apply keeps_tree_bind; intros; [apply keeps_tree_send_command |].
  apply keeps_tree_wait_each.
Qed.

Lemma keeps_tree_chassis_wait_traffic c ports s :
  keeps_tree s (snd (chassis_wait_traffic hw c ports s)).
Proof. apply keeps_tree_wait_each. Qed.

Lemma keeps_tree_chassis_start_traffic c blocking ports s :
  keeps_tree s (snd (chassis_start_traffic hw c blocking ports s)).
Proof.
  apply keeps_tree_bind; intros; [apply keeps_tree_chassis_traffic_command |].
  destruct blocking; [apply keeps_tree_chassis_wait_traffic | apply keeps_tree_refl].
Qed.

Lemma keeps_tree_chassis_stop_traffic c ports s :
  keeps_tree s (snd (chassis_stop_traffic hw c ports s)).
Proof. apply keeps_tree_chassis_traffic_command. Qed.

Lemma keeps_tree_chassis_clear_stats c ports s :
  keeps_tree s (snd (chassis_clear_stats hw c ports s)).
Proof. apply keeps_tree_for_each. intros p t. apply keeps_tree_port_command. Qed.

Lemma keeps_tree_chassis_release_ports c s :
  keeps_tree s (snd (chassis_release_ports hw c s)).
Proof. apply keeps_tree_for_each. intros p t. apply keeps_tree_port_command. Qed.

Lemma keeps_tree_chassis_disconnect c s :
  keeps_tree s (snd (chassis_disconnect hw c s)).
Proof.
  apply keeps_tree_bind; intros; [apply keeps_tree_exchange | apply keeps_tree_acknowledged].
Qed.

Lemma keeps_tree_session_groups {A} ports (k : dict Obj (list XenaPort) -> M A) :
  (forall d s, keeps_tree s (snd (k d s))) ->
  forall s,
    keeps_tree s
      (snd ((ps <- session_get_operation_ports ports ;;
             d <- per_chassis_ports ps ;; k d) s)).
Proof.
  intros Hk s.
  destruct ((ps <- session_get_operation_ports ports ;;
             d <- per_chassis_ports ps ;; k d) s) as [r s'] eqn:E.
  apply session_group_operation_inv in E.
  destruct E as [(d & _ & E) | (_ & _ & ->)]; [| apply keeps_tree_refl].
  specialize (Hk d s). now rewrite E in Hk.
Qed.

Lemma keeps_tree_session_release_ports s :
  keeps_tree s (snd (session_release_ports hw s)).
Proof.
  apply keeps_tree_session_groups. intros d t.
  apply (keeps_tree_groups_loop (fun k => k) (fun c _ => chassis_release_ports hw c)).
  intros c k t'. apply keeps_tree_chassis_release_ports.
Qed.

Lemma keeps_tree_session_clear_stats ports s :
  keeps_tree s (snd (session_clear_stats hw ports s)).
Proof.
  apply keeps_tree_session_groups. intros d t.
  apply (keeps_tree_groups_loop (@fst Obj (list XenaPort))
           (fun c kv => chassis_clear_stats hw c (snd kv))).
  intros c k t'. apply keeps_tree_chassis_clear_stats.
Qed.

Lemma keeps_tree_session_stop_traffic ports s :
  keeps_tree s (snd (session_stop_traffic hw ports s)).
Proof.
  apply keeps_tree_session_groups. intros d t.
  apply (keeps_tree_groups_loop (@fst Obj (list XenaPort))
           (fun c kv => chassis_stop_traffic hw c (snd kv))).
  intros c k t'. apply keeps_tree_chassis_stop_traffic.
Qed.

Lemma keeps_tree_session_start_traffic blocking ports s :
  keeps_tree s (snd (session_start_traffic hw blocking ports s)).
Proof.
  apply keeps_tree_session_groups. intros d t.
  apply keeps_tree_bind.
  - apply (keeps_tree_groups_loop (@fst Obj (list XenaPort))
             (fun c kv => chassis_start_traffic hw c false (snd kv))).
    intros c k t'. apply keeps_tree_chassis_start_traffic.
  - intros _ t'. destruct blocking; [| apply keeps_tree_refl].
    apply keeps_tree_session_groups. intros d' t''.
    apply (keeps_tree_groups_loop (@fst Obj (list XenaPort))
             (fun c kv => chassis_wait_traffic hw c (snd kv))).
    intros c k u. apply keeps_tree_chassis_wait_traffic.
Qed.

Lemma keeps_tree_session_disconnect s :
  keeps_tree s (snd (session_disconnect hw s)).
Proof.
  apply keeps_tree_bind; [apply keeps_tree_session_release_ports |].
  intros _ t. apply keeps_tree_bind; [intros u; apply keeps_tree_refl |].
  intros cs u. apply keeps_tree_for_each. intros c v. apply keeps_tree_chassis_disconnect.
Qed.

End Frame.

Lemma keeps_tree_views s s' :
  keeps_tree s s' ->
  chassis_list s' = chassis_list s /\ session_ports s' = session_ports s.
Proof.
  intros (_ & Hc & _). unfold session_ports, chassis_list, session_get_chassis,
    session_descendants. now rewrite Hc.
Qed.

(** The tree and the dictionaries read off it are as before. *)
Definition untouched (s s' : State) : Prop :=
  keeps_tree s s'
  /\ chassis_list s' = chassis_list s
  /\ session_ports s' = session_ports s.

Lemma keeps_tree_untouched s s' : keeps_tree s s' -> untouched s s'.
Proof. intros H. split; [exact H | now apply keeps_tree_views]. Qed.

(** X2. Releasing ports, clearing statistics, starting and stopping traffic
    and disconnecting only talk to the hardware: whatever they return or
    raise, the chassis, modules and ports of the session, its owner and its
    identity counter are as before.  In particular no port leaves the tree
    when it is released and no chassis when it is disconnected: the chassis
    and port dictionaries of the session are the same afterwards. *)
Theorem session_operations_keep_the_tree
    (hw : Hardware) (s : State) (blocking : bool) (ports : list XenaPort) :
  untouched s (snd (session_release_ports hw s))
  /\ untouched s (snd (session_clear_stats hw ports s))
  /\ untouched s (snd (session_start_traffic hw blocking ports s))
  /\ untouched s (snd (session_stop_traffic hw ports s))
  /\ untouched s (snd (session_disconnect hw s)).
Proof.
  split; [| split; [| split; [| split]]]; apply keeps_tree_untouched.
  - apply keeps_tree_session_release_ports.
  - apply keeps_tree_session_clear_stats.
  - apply keeps_tree_session_start_traffic.
  - apply keeps_tree_session_stop_traffic.
  - apply keeps_tree_session_disconnect.
Qed.

(** ** Disconnecting the session *)

Definition is_release (e : Event) : Prop :=
  exists p, fst e = port_request Release p.

Section Disconnect.
Variable hw : Hardware.

Lemma chassis_release_ports_log c s r s' :
  chassis_release_ports hw c s = (r, s') ->
  exists L, s_log s' = s_log s ++ L /\ Forall is_release L.
Proof.
  unfold chassis_release_ports. intros H.
  eapply for_each_log with (T := fun p _ L => Forall is_release L) in H.
  - destruct H as (L & E & HT). exists L. split; [exact E |].
    clear E. induction HT as [| x l r L1 L2 H1 _ IH | x l e L1 H1]; auto.
    apply Forall_app. now split.
  - intros p t r1 t' H1. apply port_command_inv in H1.
    destruct H1 as (a & -> & _). eexists. split; [reflexivity |].
    repeat constructor. now exists p.
Qed.

Lemma session_release_ports_log s r s' :
  session_release_ports hw s = (r, s') ->
  exists L, s' = set_log s (s_log s ++ L) /\ Forall is_release L.
Proof.
  intros H.
  assert (Hk : keeps_tree s s').
  { pose proof (keeps_tree_session_release_ports hw s) as Hk. now rewrite H in Hk. }
  assert (G : exists L, s_log s' = s_log s ++ L /\ Forall is_release L).
  { unfold session_release_ports in H. apply session_group_operation_inv in H.
    destruct H as [(d & _ & H) | (_ & _ & ->)].
    - eapply for_each_log with (T := fun k _ L => Forall is_release L) in H.
      + destruct H as (L & E & HT). exists L. split; [exact E |].
        clear E. induction HT as [| x l r0 L1 L2 H1 _ IH | x l e L1 H1]; auto.
        apply Forall_app. now split.
      + intros k t r1 t' H1. apply bind_inv in H1.
        destruct H1 as [(c & t1 & Hc & H1) | (e & Hc & _)].
        * destruct k; simpl in Hc; try discriminate. injection Hc as <- <-.
          now apply chassis_release_ports_log in H1.
        * destruct k; simpl in Hc; try discriminate;
            injection Hc as <- <-; exists []; now rewrite app_nil_r.
    - exists []. now rewrite app_nil_r. }
  destruct G as (L & E & HF). exists L. split; [| exact HF].
  now apply keeps_tree_set_log.
Qed.

End Disconnect.

(** X3. [XenaSession.disconnect] first releases the ports of the session:
    the log grows by release commands only.  When the release raises, that
    error is raised and no connection is closed.  When the release returns,
    the chassis of the session are disconnected one by one in the order of
    the tree, chassis without ports included; a refused disconnect raises
    and leaves the later chassis connected. *)
Theorem session_disconnect_releases_then_disconnects
    (hw : Hardware) (s s' : State) (r : Result unit)
    (Hrun : session_disconnect hw s = (r, s')) :
  exists L1 L2,
    s' = set_log s (s_log s ++ L1 ++ L2)
    /\ Forall is_release L1
    /\ ((exists e, session_release_ports hw s = (Err e, set_log s (s_log s ++ L1))
                   /\ r = Err e /\ L2 = [])
        \/ (session_release_ports hw s = (Ok tt, set_log s (s_log s ++ L1))
            /\ each_trace (fun c => answered (Disconnect (c_name c)))
                 (s_chassis s) r L2
            /\ (r = Ok tt ->
                map fst L2 = map (fun c => Disconnect (c_name c)) (s_chassis s)))).
Proof.
  unfold session_disconnect in Hrun. apply bind_inv in Hrun.
  destruct Hrun as [([] & s1 & H1 & H2) | (e & H1 & ->)].
  - pose proof H1 as Hlog. apply session_release_ports_log in Hlog.
    destruct Hlog as (L1 & -> & HF).
    unfold bind at 1 in H2. rewrite session_get_chassis_children in H2.
    cbn [s_chassis set_log] in H2.
    apply (request_loop_inv hw (fun c => Disconnect (c_name c))) in H2.
    destruct H2 as (L2 & -> & HT).
    exists L1, L2. split; [apply set_log_app | split; [exact HF |]].
    right. split; [exact H1 | split; [exact HT |]].
    intros ->. apply each_answered_requests in HT.
    destruct HT as (done & rest & E & Hreq & Hrest).
    rewrite (Hrest eq_refl), app_nil_r in E. now subst done.
  - pose proof H1 as Hlog. apply session_release_ports_log in Hlog.
    destruct Hlog as (L1 & -> & HF).
    exists L1, []. rewrite app_nil_r. split; [reflexivity | split; [exact HF |]].
    left. now exists e.
Qed.

(** On the test bench: three releases, then the two chassis. *)
Lemma session_disconnect_releases_then_disconnects_witness :
  exists L1 L2,
    snd (session_disconnect bench bench_reserved)
    = set_log bench_reserved (s_log bench_reserved ++ L1 ++ L2)
    /\ Forall is_release L1
    /\ map fst L2 = [Disconnect bench_chassis_a; Disconnect bench_chassis_b].
Proof.
  assert (Hrun : session_disconnect bench bench_reserved
                 = (Ok tt, snd (session_disconnect bench bench_reserved)))
    by (vm_compute; reflexivity).
  destruct (@session_disconnect_releases_then_disconnects bench bench_reserved _ _ Hrun)
    as (L1 & L2 & E & HF & [(e & _ & He & _) | (_ & _ & Hreq)]); [discriminate |].
  exists L1, L2. split; [exact E | split; [exact HF | exact (Hreq eq_refl)]].
Defined.

(** X4. A chassis stays in the session when the session is disconnected, so
    [add_chassis] with the address of a chassis that was disconnected does
    nothing: the connection that [disconnect] closed is not opened again and
    no logon is sent. *)
Theorem add_chassis_after_disconnect_noop
    (hw : Hardware) (s s1 : State) (address : string) (tcp : Z) (password : string)
    (Hknown : In address (map c_name (s_chassis s)))
    (Hrun : session_disconnect hw s = (Ok tt, s1)) :
  (exists a, In (Disconnect address, a) (s_log s1))
  /\ add_chassis hw address tcp password s1 = (Ok tt, s1).
Proof.
  pose proof (keeps_tree_session_disconnect hw s) as Hk. rewrite Hrun in Hk.
  destruct Hk as (_ & Hc & _). simpl in Hc. split.
  - pose proof Hrun as Hd. unfold session_disconnect in Hd.
    apply bind_inv in Hd. destruct Hd as [([] & t & H1 & H2) | (e & _ & E)];
      [| discriminate].
    unfold bind at 1 in H2. rewrite session_get_chassis_children in H2.
    assert (Ht : s_chassis t = s_chassis s).
    { pose proof (keeps_tree_session_release_ports hw s) as Hk. rewrite H1 in Hk.
      now destruct Hk as (_ & Hk & _). }
    rewrite Ht in H2.
    apply (request_loop_inv hw (fun c => Disconnect (c_name c))) in H2.
    destruct H2 as (L2 & -> & HT).
    assert (G : forall cs r L,
               each_trace (fun c => answered (Disconnect (c_name c))) cs r L ->
               r = Ok tt -> In address (map c_name cs) ->
               exists a, In (Disconnect address, a) L).
    { clear. induction 1 as [| x l r L1 L2 H1 _ IH | x l e L1 H1]; intros Er Hin.
      - contradiction.
      - destruct Hin as [<- | Hin].
        + destruct H1 as (a & -> & _). exists a. now left.
        + destruct (IH Er Hin) as (a & Ha). exists a. apply in_or_app. now right.
      - discriminate. }
    destruct (G _ _ _ HT eq_refl Hknown) as (a & Ha).
    exists a. simpl. apply in_or_app. now right.
  - unfold add_chassis.
    assert (Hm : dict_mem String.eqb address (chassis_list s1) = true).
    { apply chassis_list_mem. now rewrite Hc. }
    now rewrite Hm.
Qed.

(** On the test bench. *)
Lemma add_chassis_after_disconnect_noop_witness :
  add_chassis bench bench_chassis_a 22611 "xena"
    (snd (session_disconnect bench bench_reserved))
  = (Ok tt, snd (session_disconnect bench bench_reserved)).
Proof.
  assert (Hrun : session_disconnect bench bench_reserved
                 = (Ok tt, snd (session_disconnect bench bench_reserved)))
    by (vm_compute; reflexivity).
  assert (Hknown : In bench_chassis_a (map c_name (s_chassis bench_reserved)))
    by (now left).
  exact (proj2 (@add_chassis_after_disconnect_noop bench bench_reserved _
                  bench_chassis_a 22611 "xena" Hknown Hrun)).
Defined.

(** ** Ports of a chassis that the session does not have *)

Lemma owner_none cs p :
  ~ In (first_segment p) (map c_name cs) -> owner cs p = None.
Proof.
  intros H. unfold owner.
  destruct (find (fun c => String.eqb (c_name c) (first_segment p)) cs) as [c |] eqn:E;
    [| reflexivity].
  apply find_some in E. destruct E as (Hc & E). apply String.eqb_eq in E.
  exfalso. apply H. rewrite <- E. now apply in_map.
Qed.

Lemma group_from_none cs acc ports p :
  In p ports -> owner cs p = None -> group_from cs acc ports = None.
Proof.
  revert acc. induction ports as [| q rest IH]; intros acc Hp Ho; [contradiction |].
  cbn [group_from]. destruct Hp as [-> | Hp]; [now rewrite Ho |].
  destruct (owner cs q); [now apply IH | reflexivity].
Qed.

Lemma session_groups_not_found {A} ports (k : dict Obj (list XenaPort) -> M A) s p :
  In p (operation_ports s ports) ->
  ~ In (first_segment p) (map c_name (s_chassis s)) ->
  (ps <- session_get_operation_ports ports ;; d <- per_chassis_ports ps ;; k d) s
  = (Err NotFound, s).
Proof.
  intros Hp Hforeign.
  destruct ((ps <- session_get_operation_ports ports ;;
             d <- per_chassis_ports ps ;; k d) s) as [r s'] eqn:E.
  apply session_group_operation_inv in E.
  destruct E as [(d & Hd & _) | (_ & -> & ->)]; [| reflexivity].
  rewrite (@group_from_none _ [] _ p Hp (owner_none _ _ Hforeign)) in Hd. discriminate.
Qed.

(** X5. The ports an operation of the session works on are grouped before
    anything is sent.  When the first segment of the name of one of them is
    the address of no chassis of the session, [clear_stats], [start_traffic]
    and [stop_traffic] raise [NotFound] and leave the session and the log as
    they were: no command is sent, not even for the ports listed before the
    foreign one. *)
Theorem foreign_port_stops_the_operation
    (hw : Hardware) (s : State) (ports : list XenaPort) (p : XenaPort)
    (blocking : bool)
    (Hp : In p (operation_ports s ports))
    (Hforeign : ~ In (first_segment p) (map c_name (s_chassis s))) :
  session_clear_stats hw ports s = (Err NotFound, s)
  /\ session_start_traffic hw blocking ports s = (Err NotFound, s)
  /\ session_stop_traffic hw ports s = (Err NotFound, s).
Proof.
  repeat split; now apply session_groups_not_found with (p := p).
Qed.

(** On the test bench: a port of the session, then a port of another
    chassis. *)
Lemma foreign_port_stops_the_operation_witness :
  session_clear_stats bench
    [mkPort 2 "10.0.0.1" "0/0"; mkPort 99 "10.9.9.9" "0/0"] bench_reserved
  = (Err NotFound, bench_reserved).
Proof.
  assert (Hp : In (mkPort 99 "10.9.9.9" "0/0")
                 (operation_ports bench_reserved
                    [mkPort 2 "10.0.0.1" "0/0"; mkPort 99 "10.9.9.9" "0/0"]))
    by (right; now left).
  assert (Hforeign : ~ In (first_segment (mkPort 99 "10.9.9.9" "0/0"))
                         (map c_name (s_chassis bench_reserved))).
  { intros H. vm_compute in H. destruct H as [H | [H | []]]; discriminate. }
  exact (proj1 (@foreign_port_stops_the_operation bench bench_reserved _ _ false
                  Hp Hforeign)).
Defined.

(** ** Stopping traffic through the session *)

(** A traffic command of a group: the command of its chassis, accepted, then
    each port of the group polled until it reads the commanded state. *)
Definition commanded (command : string) (g : XenaChassis * list XenaPort)
    (L : list Event) : Prop :=
  exists a polls,
    L = (Command (c_name (fst g)) EmptyString "c_traffic"
           [command; ports_str (snd g)], a) :: polls
    /\ accepted a
    /\ each_trace (wait_trace "p_traffic" command 40) (snd g) (Ok tt) polls.

Lemma chassis_traffic_command_ok hw c command g s s' :
  chassis_traffic_command hw c command g s = (Ok tt, s') ->
  exists L, s' = set_log s (s_log s ++ L)
            /\ (g <> [] -> commanded command (c, g) L).
Proof.
  intros H. apply chassis_traffic_command_inv in H.
  destruct H as (a & polls & -> & [(e & _ & E & _) | (Ha & HT)]); [discriminate |].
  eexists. split; [reflexivity |].
  intros Hne. exists a, polls. simpl.
  destruct g; [contradiction |]. now repeat split.
Qed.

(** X6. When [XenaSession.stop_traffic] returns on a well-formed session,
    the ports it works on were grouped by chassis, the groups belonging to
    different chassis of the session, and for each group in turn the log has
    grown by one traffic-off command of the chassis, accepted, carrying the
    indices of the ports of the group, followed by the polling of each port
    of the group until [p_traffic] read [off], within the short timeout.
    Every port worked on was observed [off]. *)
Theorem session_stop_traffic_confirms_each_group
    (hw : Hardware) (s s' : State) (ports : list XenaPort)
    (Hwf : well_formed s = true)
    (Hrun : session_stop_traffic hw ports s = (Ok tt, s')) :
  exists groups stops,
    Permutation (flat_map snd groups) (operation_ports s ports)
    /\ NoDup (map (fun g => c_id (fst g)) groups)
    /\ Forall (fun g => In (fst g) (s_chassis s) /\ snd g <> []
                        /\ Forall (fun p => owner (s_chassis s) p = Some (fst g)) (snd g))
              groups
    /\ s' = set_log s (s_log s ++ concat stops)
    /\ Forall2 (commanded "off") groups stops
    /\ (forall p, In p (operation_ports s ports) ->
          In (query p "p_traffic", Value "off") (concat stops)).
Proof.
  apply well_formed_wf in Hwf. unfold session_stop_traffic in Hrun.
  apply session_group_operation_inv in Hrun.
  destruct Hrun as [(d & Hd & Hrun) | (_ & E & _)]; [| discriminate].
  destruct (@operation_groups _ _ _ Hwf Hd) as (Hperm & Hids & Hown).
  eapply groups_loop_inv
    with (body := fun c g => chassis_stop_traffic hw c g)
         (T := fun c g L => g <> [] -> commanded "off" (c, g) L) in Hrun.
  2:{ intros c g s0 s0' H0. now apply chassis_traffic_command_ok in H0. }
  destruct Hrun as (stops & -> & Hstops).
  assert (Hstopped : Forall2 (commanded "off") (chassis_groups d) stops).
  { eapply Forall2_weaken; [| exact Hown | exact Hstops].
    intros [c g] L (_ & Hne & _) H. simpl in *. now apply H. }
  exists (chassis_groups d), stops.
  split; [exact Hperm |]. split; [exact Hids |]. split; [exact Hown |].
  split; [reflexivity |]. split; [exact Hstopped |].
  intros p Hp. apply (Permutation_in _ (Permutation_sym Hperm)) in Hp.
  revert p Hp. eapply groups_observed; [| exact Hstopped].
  intros g L (a & polls & -> & _ & HT) p Hp. right.
  eapply each_wait_observed; eauto.
Qed.

(** On the test bench: a stop over all the ports of the session. *)
Lemma session_stop_traffic_confirms_each_group_witness :
  exists s' stops,
    session_stop_traffic bench [] bench_reserved = (Ok tt, s')
    /\ s' = set_log bench_reserved (s_log bench_reserved ++ concat stops)
    /\ (forall p, In p (dict_values (session_ports bench_reserved)) ->
          In (query p "p_traffic", Value "off") (concat stops)).
Proof.
  assert (H : session_stop_traffic bench [] bench_reserved
              = (Ok tt, snd (session_stop_traffic bench [] bench_reserved)))
    by (vm_compute; reflexivity).
  destruct (@session_stop_traffic_confirms_each_group bench bench_reserved _ []
              eq_refl H)
    as (groups & stops & _ & _ & _ & E & _ & Hoff).
  exists (snd (session_stop_traffic bench [] bench_reserved)), stops.
  split; [exact H | split; [exact E | exact Hoff]].
Defined.

(** ** Chassis operations and their default ports *)

(** X7. [XenaChassis.start_traffic] with [blocking] commands the ports and
    then waits for the ports that were listed, not for the ports that were
    commanded: with no port listed the command goes to every port of the
    chassis and the call returns as the call that does not block, without
    waiting for any port to read [off].  With ports listed, the wait runs
    over them after a traffic command that returned, and not at all after
    one that raised. *)
Theorem chassis_blocking_start_waits_for_listed_ports
    (hw : Hardware) (self : XenaChassis) (ports : list XenaPort) (s : State) :
  chassis_start_traffic hw self true [] s = chassis_start_traffic hw self false [] s
  /\ (forall t, chassis_wait_traffic hw self [] t = (Ok tt, t))
  /\ (forall r s',
        chassis_start_traffic hw self true ports s = (r, s') ->
        exists r1 L1 L2,
          chassis_traffic_command hw self "on" ports s
          = (r1, set_log s (s_log s ++ L1))
          /\ s' = set_log s (s_log s ++ L1 ++ L2)
          /\ match r1 with
             | Err e => r = Err e /\ L2 = []
             | Ok _ => each_trace (wait_trace "p_traffic" "off" 2628000) ports r L2
             end).
Proof.
  split; [| split].
  - unfold chassis_start_traffic, bind.
    now destruct (chassis_traffic_command hw self "on" [] s) as [[[] | e] s1].
  - reflexivity.
  - intros r s' H. unfold chassis_start_traffic in H. apply bind_inv in H.
    destruct H as [([] & s1 & H1 & H2) | (e & H1 & ->)].
    + pose proof H1 as Hc. apply chassis_traffic_command_inv in Hc.
      destruct Hc as (a & polls & -> & _).
      apply chassis_wait_traffic_inv in H2. destruct H2 as (L2 & -> & HT).
      eexists (Ok tt), _, L2.
      split; [exact H1 | split; [apply set_log_app | exact HT]].
    + pose proof H1 as Hc. apply chassis_traffic_command_inv in Hc.
      destruct Hc as (a & polls & -> & _).
      eexists (Err e), _, [].
      split; [exact H1 | split; [now rewrite app_nil_r | now split]].
Qed.

(** X8. [XenaChassis.clear_stats] sends one clear-statistics command to each
    listed port in the order of the list and stops at the first one that
    the hardware rejects, whose error it raises.  It has no default: with no
    port listed it sends nothing, whatever ports the chassis holds. *)
Theorem chassis_clear_stats_listed_ports_only
    (hw : Hardware) (self : XenaChassis) (ports : list XenaPort) (s s' : State)
    (r : Result unit)
    (Hrun : chassis_clear_stats hw self ports s = (r, s')) :
  exists L,
    s' = set_log s (s_log s ++ L)
    /\ each_trace (fun p => answered (port_request ClearStats p)) ports r L
    /\ (exists done rest, ports = done ++ rest
                          /\ map fst L = map (port_request ClearStats) done
                          /\ (r = Ok tt -> rest = []))
    /\ (ports = [] -> r = Ok tt /\ s' = s).
Proof.
  pose proof Hrun as H. apply (request_loop_inv hw (port_request ClearStats)) in H.
  destruct H as (L & -> & HT). exists L.
  split; [reflexivity | split; [exact HT | split]].
  - now apply each_answered_requests in HT.
  - intros ->. now injection Hrun as <- <-.
Qed.

(** On the test bench: two ports of the first chassis. *)
Lemma chassis_clear_stats_listed_ports_only_witness :
  exists L,
    snd (chassis_clear_stats bench bench_a
           [mkPort 2 "10.0.0.1" "0/0"; mkPort 4 "10.0.0.1" "0/1"] bench_reserved)
    = set_log bench_reserved (s_log bench_reserved ++ L)
    /\ each_trace (fun p => answered (port_request ClearStats p))
         [mkPort 2 "10.0.0.1" "0/0"; mkPort 4 "10.0.0.1" "0/1"] (Ok tt) L.
Proof.
  assert (H : chassis_clear_stats bench bench_a
                [mkPort 2 "10.0.0.1" "0/0"; mkPort 4 "10.0.0.1" "0/1"] bench_reserved
              = (Ok tt,
                 snd (chassis_clear_stats bench bench_a
                        [mkPort 2 "10.0.0.1" "0/0"; mkPort 4 "10.0.0.1" "0/1"]
                        bench_reserved)))
    by (vm_compute; reflexivity).
  destruct (@chassis_clear_stats_listed_ports_only bench bench_a _ bench_reserved _ _ H)
    as (L & E & HT & _).
  exists L. split; [exact E | exact HT].
Defined.

(** ** The dictionaries of the session *)

Lemma chassis_list_items s :
  NoDup (map c_name (s_chassis s)) ->
  chassis_list s = map (fun c => (c_name c, c)) (s_chassis s).
Proof.
  intros H. unfold chassis_list. rewrite session_get_chassis_children.
  rewrite (dict_update_fresh _ String.eqb_eq); [reflexivity |].
  simpl. now rewrite map_map.
Qed.

Lemma session_ports_keyed s k p :
  NoDup (map c_name (s_chassis s)) -> In (k, p) (session_ports s) -> k = port_name p.
Proof.
  intros H. rewrite (session_ports_merged _ H). apply merged_keyed. intros k' v' [].
Qed.

Lemma session_ports_keys s name :
  wf (s_chassis s) ->
  In name (dict_keys (session_ports s)) <-> In name (tree_names (s_chassis s)).
Proof.
  intros Hwf. rewrite (session_ports_merged _ (wf_names Hwf)), merged_keys.
  unfold tree_names. rewrite in_flat_map. simpl. tauto.
Qed.

Lemma session_ports_nodup s :
  wf (s_chassis s) -> NoDup (dict_keys (session_ports s)).
Proof.
  intros Hwf. rewrite (session_ports_merged _ (wf_names Hwf)).
  apply merged_nodup. constructor.
Qed.

Lemma session_ports_lookup s name :
  wf (s_chassis s) ->
  In name (tree_names (s_chassis s)) ->
  exists p, dict_get String.eqb name (session_ports s) = Some p
            /\ port_name p = name
            /\ exists c, In c (s_chassis s) /\ In p (chassis_get_ports c).
Proof.
  intros Hwf Hn. apply session_ports_keys in Hn; [| exact Hwf].
  unfold dict_keys in Hn. apply in_map_iff in Hn. destruct Hn as ([k p] & <- & Hkp).
  exists p. simpl. split; [| split].
  - apply (dict_in_get _ String.eqb_eq); [now apply session_ports_nodup | exact Hkp].
  - symmetry. eapply session_ports_keyed; [apply (wf_names Hwf) | exact Hkp].
  - destruct (@session_ports_cover _ Hwf) as (_ & Hvals & _).
    apply Hvals. apply in_map_iff. now exists (k, p).
Qed.

(** X9. In a well-formed session the chassis dictionary gives, for a name,
    the chassis of the session with that name, and only for such names; the
    port dictionary has every port name of the tree once as a key, and the
    value under a name is a port of the tree with that name, below the
    chassis whose address starts the name. *)
Theorem session_dictionaries_read_the_tree
    (s : State) (Hwf : well_formed s = true) :
  (forall name c, dict_get String.eqb name (chassis_list s) = Some c
                  <-> In c (s_chassis s) /\ c_name c = name)
  /\ dict_values (chassis_list s) = s_chassis s
  /\ NoDup (dict_keys (session_ports s))
  /\ (forall name, In name (dict_keys (session_ports s))
                   <-> In name (tree_names (s_chassis s)))
  /\ (forall name p,
        dict_get String.eqb name (session_ports s) = Some p ->
        port_name p = name
        /\ exists c, In c (s_chassis s) /\ In p (chassis_get_ports c)
                     /\ c_name c = first_segment p).
Proof.
  apply well_formed_wf in Hwf. split; [| split; [| split; [| split]]].
  - intros name c. split; [apply chassis_list_get |].
    intros (Hc & <-). apply (dict_in_get _ String.eqb_eq).
    + rewrite (chassis_list_items _ (wf_names Hwf)). unfold dict_keys.
      rewrite map_map. apply (wf_names Hwf).
    + rewrite (chassis_list_items _ (wf_names Hwf)). apply in_map_iff. now exists c.
  - apply chassis_list_values, (wf_names Hwf).
  - now apply session_ports_nodup.
  - intros name. now apply session_ports_keys.
  - intros name p Hget. apply (dict_get_in _ String.eqb_eq) in Hget.
    split; [symmetry; eapply session_ports_keyed; [apply (wf_names Hwf) | exact Hget] |].
    destruct (@session_ports_cover _ Hwf) as (_ & Hvals & _).
    destruct (Hvals p) as (c & Hc & Hp); [apply in_map_iff; now exists (name, p) |].
    exists c. split; [exact Hc | split; [exact Hp |]].
    rewrite first_segment_chassis; rewrite (wf_ports Hwf _ _ Hc Hp);
      [reflexivity | now apply (wf_slash Hwf)].
Qed.

(** On the test bench, with its three reserved ports. *)
Lemma session_dictionaries_read_the_tree_witness :
  dict_values (chassis_list bench_reserved) = s_chassis bench_reserved
  /\ NoDup (dict_keys (session_ports bench_reserved)).
Proof.
  destruct (@session_dictionaries_read_the_tree bench_reserved eq_refl)
    as (_ & H1 & H2 & _).
  split; [exact H1 | exact H2].
Defined.

(** X10. When [XenaSession.reserve_ports] returns on a well-formed session,
    the dictionary it returns is the port dictionary of the session as it
    stands then, and every location that was asked for is one of its keys:
    looking a location up gives a port of the tree whose name is the
    location. *)
Theorem session_reserve_ports_returns_locations
    (hw : Hardware) (s s' : State) (locations : list string) (force : bool)
    (d : dict string XenaPort)
    (Hwf : well_formed s = true)
    (Hrun : session_reserve_ports hw locations force s = (Ok d, s')) :
  d = session_ports s'
  /\ NoDup (dict_keys d)
  /\ (forall name, In name (dict_keys d)
                   <-> In name locations \/ In name (tree_names (s_chassis s)))
  /\ (forall loc, In loc locations ->
        exists p, dict_get String.eqb loc d = Some p
                  /\ port_name p = loc
                  /\ exists c, In c (s_chassis s') /\ In p (chassis_get_ports c)).
Proof.
  apply well_formed_wf in Hwf.
  apply session_reserve_ports_inv in Hrun. destruct Hrun as (r0 & Hloop & Hr).
  destruct r0 as [[] | e]; [| discriminate]. injection Hr as ->.
  apply session_reserve_loop_wf in Hloop; [| exact Hwf].
  destruct Hloop as (Hwf' & Hnames).
  split; [reflexivity | split; [now apply session_ports_nodup | split]].
  - intros name. now rewrite session_ports_keys, Hnames.
  - intros loc Hloc. apply session_ports_lookup; [exact Hwf' |].
    apply Hnames. now left.
Qed.

(** On the test bench: the three locations of the reservation. *)
Lemma session_reserve_ports_returns_locations_witness :
  forallb (fun loc => dict_mem String.eqb loc (session_ports bench_reserved))
    bench_locations = true
  /\ exists p, dict_get String.eqb "10.0.0.2/2/1" (session_ports bench_reserved) = Some p
               /\ port_name p = "10.0.0.2/2/1".
Proof.
  assert (H : session_reserve_ports bench bench_locations false bench_connected
              = (Ok (session_ports bench_reserved), bench_reserved))
    by (vm_compute; reflexivity).
  destruct (@session_reserve_ports_returns_locations bench bench_connected _
              bench_locations false _ eq_refl H) as (_ & _ & _ & Hget).
  split; [reflexivity |].
  destruct (Hget "10.0.0.2/2/1") as (p & Hp & Hn & _); [right; now left |].
  now exists p.
Defined.

(** ** Locations that are not of the form ip/module/port *)

Lemma session_reserve_location_malformed hw force loc s :
  length (PyStr.split PyStr.slash loc) <> 3 ->
  session_reserve_location hw force loc s = (Err ValueError, s).
Proof.
  intros H. unfold session_reserve_location.
  destruct (PyStr.split PyStr.slash loc) as [| a [| b [| c [| x l]]]];
    try reflexivity.
  now contradiction H.
Qed.

(** X11. A location that does not split at its slashes into exactly three
    parts makes [XenaSession.reserve_ports] fail: the call never returns
    normally, and once the locations before it were reserved it raises
    [ValueError] before any chassis is looked up, leaving the session as
    the earlier reservations left it; the later locations are not looked
    at. *)
Theorem session_reserve_malformed_location
    (hw : Hardware) (s : State) (pre post : list string) (loc : string)
    (force : bool)
    (Hbad : length (PyStr.split PyStr.slash loc) <> 3) :
  let locations := pre ++ loc :: post in
  (exists e s', session_reserve_ports hw locations force s = (Err e, s'))
  /\ (forall d s1,
        session_reserve_ports hw pre force s = (Ok d, s1) ->
        session_reserve_ports hw locations force s = (Err ValueError, s1)).
Proof.
  intros locations.
  assert (Hkey : forall s1,
             for_each pre (session_reserve_location hw force) s = (Ok tt, s1) ->
             session_reserve_ports hw locations force s = (Err ValueError, s1)).
  { intros s1 Hloop. unfold session_reserve_ports, locations.
    apply bind_err. rewrite for_each_app, Hloop. cbn [for_each].
    apply bind_err. now apply session_reserve_location_malformed. }
  split.
  - destruct (for_each pre (session_reserve_location hw force) s)
      as [[[] | e] s1] eqn:Hloop.
    + exists ValueError, s1. now apply Hkey.
    + exists e, s1. unfold session_reserve_ports, locations.
      apply bind_err. now rewrite for_each_app, Hloop.
  - intros d s1 Hpre.
    apply session_reserve_ports_inv in Hpre. destruct Hpre as (r0 & Hloop & Hr).
    destruct r0 as [[] | e]; [| discriminate]. now apply Hkey.
Qed.

(** On the test bench: a location without its port index, after a good
    one. *)
Lemma session_reserve_malformed_location_witness :
  session_reserve_ports bench ["10.0.0.1/0/0"; "10.0.0.2/0"; "10.0.0.2/2/1"] false
    bench_connected
  = (Err ValueError,
     snd (session_reserve_ports bench ["10.0.0.1/0/0"] false bench_connected)).
Proof.
  assert (Hpre : session_reserve_ports bench ["10.0.0.1/0/0"] false bench_connected
                 = (Ok (session_ports
                          (snd (session_reserve_ports bench ["10.0.0.1/0/0"] false
                                  bench_connected))),
                    snd (session_reserve_ports bench ["10.0.0.1/0/0"] false
                           bench_connected)))
    by (vm_compute; reflexivity).
  assert (Hbad : length (PyStr.split PyStr.slash "10.0.0.2/0") <> 3)
    by (vm_compute; discriminate).
  exact (proj2 (@session_reserve_malformed_location bench bench_connected
                  ["10.0.0.1/0/0"] ["10.0.0.2/2/1"] "10.0.0.2/0" false Hbad)
           _ _ Hpre).
Defined.

(** ** Sessions that the interface builds *)

(** X12. Every session built from a new session by [add_chassis] with
    addresses without a slash, by [reserve_ports] and by [inventory],
    whether these calls return or raise, and by the operations that leave
    the tree alone, is well formed: its chassis are different objects with
    different addresses, and every port of the tree, reserved or found by
    the inventory, carries the address of the chassis it is below.  The
    identities of its chassis are below the identity counter. *)
Theorem built_sessions_are_well_formed
    (hw : Hardware) (s : State) (Hbuilt : reachable hw s) :
  well_formed s = true
  /\ NoDup (map c_name (s_chassis s))
  /\ Forall (fun c => c_id c < s_next s) (s_chassis s)
  /\ (forall c p, In c (s_chassis s) -> In p (chassis_get_ports c) ->
        first_segment p = c_name c).
Proof.
  pose proof (reachable_well_formed Hbuilt) as Hwf.
  pose proof (reachable_ok Hbuilt) as Hok.
  pose proof (well_formed_wf _ Hwf) as W.
  split; [exact Hwf | split; [apply (wf_names W) | split; [apply (ok_bound Hok) |]]].
  intros c p Hc Hp. rewrite first_segment_chassis; rewrite (wf_ports W _ _ Hc Hp);
    [reflexivity | now apply (wf_slash W)].
Qed.

(** On the test bench: two chassis added, an inventory, three ports
    reserved. *)
Lemma built_sessions_are_well_formed_witness :
  well_formed
    (snd (session_reserve_ports bench bench_locations false
            (snd (session_inventory bench
                    (snd (add_chassis bench bench_chassis_b 22611 "xena"
                            (snd (add_chassis bench bench_chassis_a 22611 "xena"
                                    (XenaSession_init "tester"))))))))) = true.
Proof.
  apply (@built_sessions_are_well_formed bench).
  apply reach_reserve_ports, reach_inventory.
  apply reach_add_chassis; [| reflexivity].
  apply reach_add_chassis; [| reflexivity].
  apply reach_init.
Defined.

(** ** Releasing twice *)

(** The release commands of a session with the tree [cs], when its ports
    can be grouped. *)
Definition release_requests (s : State) : list Request :=
  match group_from (s_chassis s) [] (operation_ports s []) with
  | Some d =>
      flat_map (fun g => map (port_request Release)
                           (dict_values (chassis_ports (fst g))))
        (chassis_groups d)
  | None => []
  end.

Lemma release_requests_tree s s' :
  keeps_tree s s' -> release_requests s' = release_requests s.
Proof.
  intros Hk. pose proof (keeps_tree_views Hk) as (_ & Hp).
  destruct Hk as (_ & Hc & _). unfold release_requests, operation_ports.
  now rewrite Hc, Hp.
Qed.

Lemma session_release_ports_requests hw s s' :
  session_release_ports hw s = (Ok tt, s') ->
  exists L, s' = set_log s (s_log s ++ L)
            /\ map fst L = release_requests s
            /\ Forall accepted (map snd L).
Proof.
  intros Hrun. unfold session_release_ports in Hrun.
  apply session_group_operation_inv in Hrun.
  destruct Hrun as [(d & Hd & Hloop) | (_ & E & _)]; [| discriminate].
  unfold dict_keys in Hloop. rewrite for_each_map in Hloop.
  eapply groups_loop_inv
    with (body := fun c _ => chassis_release_ports hw c)
         (T := fun c _ L =>
                 map fst L = map (port_request Release) (dict_values (chassis_ports c))
                 /\ Forall accepted (map snd L)) in Hloop.
  2:{ intros c g s0 s0' H0. now apply chassis_release_ports_inv in H0. }
  destruct Hloop as (Ls & -> & HF).
  exists (concat Ls). split; [reflexivity |].
  unfold release_requests. rewrite Hd.
  clear - HF. induction HF as [| g L gs Ls (H1 & H2) _ (IH1 & IH2)];
    [split; constructor |].
  simpl. rewrite !map_app. split; [f_equal; assumption |].
  apply Forall_app. now split.
Qed.

(** X13. A released port stays in the tree, and nothing in the session
    tells a released port from a reserved one: when [release_ports] returns
    and is called again, the second call sends the very release commands of
    the first, in the same order. *)
Theorem release_ports_twice_repeats_the_commands
    (hw : Hardware) (s s1 s2 : State)
    (Hfirst : session_release_ports hw s = (Ok tt, s1))
    (Hsecond : session_release_ports hw s1 = (Ok tt, s2)) :
  exists L1 L2,
    s1 = set_log s (s_log s ++ L1)
    /\ s2 = set_log s (s_log s ++ L1 ++ L2)
    /\ map fst L2 = map fst L1
    /\ session_ports s2 = session_ports s.
Proof.
  assert (Hk : keeps_tree s s1).
  { pose proof (keeps_tree_session_release_ports hw s) as Hk. now rewrite Hfirst in Hk. }
  assert (Hk2 : keeps_tree s1 s2).
  { pose proof (keeps_tree_session_release_ports hw s1) as Hk2.
    now rewrite Hsecond in Hk2. }
  apply session_release_ports_requests in Hfirst, Hsecond.
  destruct Hfirst as (L1 & E1 & Hq1 & _). destruct Hsecond as (L2 & E2 & Hq2 & _).
  exists L1, L2. split; [exact E1 | split; [| split]].
  - rewrite E2, E1. apply set_log_app.
  - rewrite (release_requests_tree Hk) in Hq2.
    transitivity (release_requests s); [exact Hq2 | symmetry; exact Hq1].
  - apply (keeps_tree_views (keeps_tree_trans Hk Hk2)).
Qed.

(** On the test bench. *)
Lemma release_ports_twice_repeats_the_commands_witness :
  exists L1 L2,
    snd (session_release_ports bench (snd (session_release_ports bench bench_reserved)))
    = set_log bench_reserved (s_log bench_reserved ++ L1 ++ L2)
    /\ map fst L2 = map fst L1.
Proof.
  assert (H1 : session_release_ports bench bench_reserved
               = (Ok tt, snd (session_release_ports bench bench_reserved)))
    by (vm_compute; reflexivity).
  assert (H2 : session_release_ports bench
                 (snd (session_release_ports bench bench_reserved))
               = (Ok tt,
                  snd (session_release_ports bench
                         (snd (session_release_ports bench bench_reserved)))))
    by (vm_compute; reflexivity).
  destruct (@release_ports_twice_repeats_the_commands bench bench_reserved _ _ H1 H2)
    as (L1 & L2 & E1 & E2 & Hq & _).
  exists L1, L2. split; [exact E2 | exact Hq].
Defined.

(** ** Indices written and read back *)

Module PyIntFacts.
Import PyStr.

(** The value of a row of decimal digits read after the value [acc]. *)
Fixpoint digits_value (acc : Z) (d : Decimal.uint) : Z :=
  match d with
  | Decimal.Nil => acc
  | Decimal.D0 d => digits_value (10 * acc + 0) d
  | Decimal.D1 d => digits_value (10 * acc + 1) d
  | Decimal.D2 d => digits_value (10 * acc + 2) d
  | Decimal.D3 d => digits_value (10 * acc + 3) d
  | Decimal.D4 d => digits_value (10 * acc + 4) d
  | Decimal.D5 d => digits_value (10 * acc + 5) d
  | Decimal.D6 d => digits_value (10 * acc + 6) d
  | Decimal.D7 d => digits_value (10 * acc + 7) d
  | Decimal.D8 d => digits_value (10 * acc + 8) d
  | Decimal.D9 d => digits_value (10 * acc + 9) d
  end%Z.

Lemma digits_value_nat d acc :
  digits_value (Z.of_nat acc) d = Z.of_nat (Nat.of_uint_acc d acc).
Proof.
  revert acc. induction d; intros acc; cbn [digits_value Nat.of_uint_acc];
    [reflexivity | ..];
    rewrite <- IHd; f_equal; rewrite Nat.tail_mul_spec; lia.
Qed.

(** Every character is a decimal digit. *)
Fixpoint all_digits (s : string) : bool :=
  match s with
  | EmptyString => true
  | String c s' =>
      match digit_of c with Some _ => true | None => false end && all_digits s'
  end.

Lemma string_of_uint_digits d : all_digits (NilEmpty.string_of_uint d) = true.
Proof. induction d; simpl; auto. Qed.

Lemma int_digits_uint d acc b :
  (d <> Decimal.Nil \/ b = true) ->
  int_digits acc b (NilEmpty.string_of_uint d) = Some (digits_value acc d).
Proof.
  revert acc b. induction d; intros acc b H; simpl;
    try (apply IHd; now right).
  destruct H as [H | ->]; [contradiction | reflexivity].
Qed.

Lemma digit_not_space c : digit_of c <> None -> is_space c = false.
Proof.
  unfold digit_of, is_space. intros H.
  destruct ((48 <=? nat_of_ascii c) && (nat_of_ascii c <=? 57)) eqn:E;
    [| contradiction].
  apply andb_prop in E. destruct E as [E1 E2].
  apply Nat.leb_le in E1. apply Nat.leb_le in E2.
  apply orb_false_iff. split; apply andb_false_iff.
  - right. apply Nat.leb_gt. lia.
  - right. apply Nat.leb_gt. lia.
Qed.

Lemma append_nil_r (s : string) : (s ++ EmptyString)%string = s.
Proof. induction s as [| c s IH]; simpl; [reflexivity | now rewrite IH]. Qed.

Lemma append_assoc (a b c : string) : ((a ++ b) ++ c)%string = (a ++ b ++ c)%string.
Proof. induction a as [| x a IH]; simpl; [reflexivity | now rewrite IH]. Qed.

Lemma split_ws_digits cur s :
  all_digits s = true ->
  split_ws_from cur s
  = match (cur ++ s)%string with EmptyString => [] | t => [t] end.
Proof.
  revert cur. induction s as [| c s IH]; intros cur H; simpl.
  - rewrite append_nil_r. now destruct cur.
  - simpl in H. apply andb_prop in H. destruct H as [Hc Hs].
    rewrite digit_not_space by (destruct (digit_of c); discriminate).
    rewrite (IH _ Hs). now rewrite append_assoc.
Qed.
Lemma digit_not_sign c :
  digit_of c <> None -> Ascii.eqb c "-" = false /\ Ascii.eqb c "+" = false.
Proof.
  intros H. split.
  - destruct (Ascii.eqb c "-") eqn:E; [| reflexivity].
    apply Ascii.eqb_eq in E. subst c. now contradiction H.
  - destruct (Ascii.eqb c "+") eqn:E; [| reflexivity].
    apply Ascii.eqb_eq in E. subst c. now contradiction H.
Qed.

Lemma int_uint d :
  d <> Decimal.Nil ->
  int (NilEmpty.string_of_uint d) = Some (digits_value 0 d).
Proof.
  intros Hd. unfold int, split_ws.
  rewrite split_ws_digits by apply string_of_uint_digits.
  cbn [append].
  pose proof (string_of_uint_digits d) as Hdig.
  pose proof (@int_digits_uint d 0%Z false (or_introl Hd)) as Hval.
  destruct (NilEmpty.string_of_uint d) as [| c s] eqn:Es.
  - destruct d; simpl in Es; discriminate || contradiction.
  - unfold int_signed. simpl in Hdig. apply andb_prop in Hdig.
    destruct Hdig as [Hc _].
    assert (Hc' : digit_of c <> None) by (destruct (digit_of c); discriminate).
    destruct (@digit_not_sign c Hc') as (-> & ->). exact Hval.
Qed.

(** [int('{}'.format(n))] is [n]. *)
Lemma int_of_nat n : int (of_nat n) = Some (Z.of_nat n).
Proof.
  unfold of_nat, NilZero.string_of_uint.
  pose proof (DecimalNat.Unsigned.of_to n) as Hn. unfold Nat.of_uint in Hn.
  destruct (Nat.to_uint n) as [| d | d | d | d | d | d | d | d | d | d] eqn:E;
    try (rewrite <- Hn, <- digits_value_nat; apply int_uint; discriminate).
  simpl in Hn. now subst n.
Qed.

Lemma digits_lack_slash s : all_digits s = true -> lacks slash s = true.
Proof.
  induction s as [| c s IH]; simpl; [reflexivity |].
  intros H. apply andb_prop in H. destruct H as [Hc Hs].
  rewrite (IH Hs), andb_true_r. apply negb_true_iff.
  destruct (Ascii.eqb c slash) eqn:E; [| reflexivity].
  apply Ascii.eqb_eq in E. subst c. discriminate.
Qed.

Lemma of_nat_lacks_slash n : lacks slash (of_nat n) = true.
Proof.
  unfold of_nat, NilZero.string_of_uint.
  destruct (Nat.to_uint n) eqn:E; try reflexivity;
    rewrite <- E; apply digits_lack_slash, string_of_uint_digits.
Qed.

(** The reference of a port found by the inventory splits into the index of
    its module and its own index. *)
Lemma split_port_ref i j :
  split slash (of_nat i ++ "/" ++ of_nat j) = [of_nat i; of_nat j].
Proof.
  change ("/" ++ of_nat j)%string with (String slash (of_nat j)).
  rewrite (PyStrFacts.split_head _ _ _ (of_nat_lacks_slash i)).
  now rewrite (PyStrFacts.split_lacks _ _ (of_nat_lacks_slash j)).
Qed.

End PyIntFacts.

(** ** The index dictionaries of a chassis and of a module *)

(** [XenaModule.ports]: the loop of the dictionary comprehension, whose key
    is [int(p.ref.split('/')[1])]; a reference without a second segment
    raises [IndexError], a second segment that is no integer [ValueError]. *)
Fixpoint ports_by_index (acc : dict Z XenaPort) (ports : list XenaPort)
  : Result (dict Z XenaPort) :=
  match ports with
  | [] => Ok acc
  | p :: rest =>
      match nth_error (PyStr.split PyStr.slash (p_ref p)) 1 with
      | None => Err IndexError
      | Some t =>
          match PyStr.int t with
          | None => Err ValueError
          | Some k => ports_by_index (dict_set Z.eqb k p acc) rest
          end
      end
  end.

Definition module_ports (self : XenaModule) : Result (dict Z XenaPort) :=
  ports_by_index [] (module_get_ports self).

Lemma module_get_ports_children m : module_get_ports m = m_children m.
Proof.
  unfold module_get_ports, module_descendants, only_ports.
  induction (m_children m) as [| p l IH]; [reflexivity |]. simpl. now rewrite IH.
Qed.

Lemma ports_by_index_app acc l1 l2 d :
  ports_by_index acc l1 = Ok d ->
  ports_by_index acc (l1 ++ l2) = ports_by_index d l2.
Proof.
  revert acc. induction l1 as [| p l1 IH]; intros acc H;
    cbn [ports_by_index app] in *.
  - now injection H as ->.
  - destruct (nth_error (PyStr.split PyStr.slash (p_ref p)) 1) as [t |];
      [| discriminate].
    destruct (PyStr.int t) as [k |]; [| discriminate]. now apply IH.
Qed.

Section ModulePorts.
Variable self : XenaModule.

(** The items that the ports of an inventory add to the dictionary. *)
Definition indexed (next a n : nat) : list (Z * XenaPort) :=
  combine (map Z.of_nat (seq a n)) (module_fresh_ports self next a n).

Lemma ports_by_index_fresh acc next a n :
  ports_by_index acc (module_fresh_ports self next a n)
  = Ok (dict_update Z.eqb acc (indexed next a n)).
Proof.
  revert acc next a. induction n as [| n IH]; intros acc next a; [reflexivity |].
  cbn [module_fresh_ports ports_by_index p_ref]. unfold module_ref.
  rewrite PyIntFacts.split_port_ref. cbn [nth_error].
  rewrite PyIntFacts.int_of_nat, IH. reflexivity.
Qed.

Lemma indexed_keys next a n : map fst (indexed next a n) = map Z.of_nat (seq a n).
Proof.
  unfold indexed. revert next a. induction n as [| n IH]; intros next a; [reflexivity |].
  simpl. now rewrite IH.
Qed.

Lemma dict_get_indexed acc next a n i :
  a <= i < a + n ->
  dict_get Z.eqb (Z.of_nat i) (dict_update Z.eqb acc (indexed next a n))
  = Some (mkPort (next + (i - a)) (m_chassis self)
            (module_ref self ++ "/" ++ PyStr.of_nat i)%string).
Proof.
  revert acc next a. induction n as [| n IH]; intros acc next a Hi; [lia |].
  unfold indexed. cbn [seq map module_fresh_ports combine].
  fold (indexed (S next) (S a) n). unfold dict_update. cbn [fold_left fst snd].
  fold (dict_update Z.eqb
          (dict_set Z.eqb (Z.of_nat a)
             (mkPort next (m_chassis self)
                (module_ref self ++ "/" ++ PyStr.of_nat a)%string) acc)
          (indexed (S next) (S a) n)).
  destruct (Nat.eq_dec i a) as [-> | Hne].
  - rewrite (dict_get_update_last _ Z.eqb_eq).
    + rewrite (dict_get_set_same _ Z.eqb_eq). now rewrite Nat.sub_diag, Nat.add_0_r.
    + rewrite indexed_keys. intros H. apply in_map_iff in H.
      destruct H as (j & Ej & Hj). apply in_seq in Hj. lia.
  - rewrite IH by lia. do 2 f_equal. lia.
Qed.

Lemma module_fresh_port_in next a n i :
  a <= i < a + n ->
  In (mkPort (next + (i - a)) (m_chassis self)
        (module_ref self ++ "/" ++ PyStr.of_nat i)%string)
     (module_fresh_ports self next a n).
Proof.
  revert next a. induction n as [| n IH]; intros next a H; [lia |]. simpl.
  destruct (Nat.eq_dec i a) as [-> | Hne].
  - left. now rewrite Nat.sub_diag, Nat.add_0_r.
  - right. replace (next + (i - a)) with (S next + (i - S a)) by lia.
    apply IH; lia.
Qed.

End ModulePorts.

(** X14. [XenaModule.ports] reads back the indices that
    [XenaModule.inventory] wrote into the references of the ports.  For a
    module whose port dictionary can be built, the dictionary of the module
    after an inventory that found [n] ports is the earlier dictionary
    updated with the new ports under the keys 0 to [n] less one, in order:
    no reference of the inventory fails to parse, and the key [i] gives the
    new port of index [i], whatever port had that key before. *)
Theorem module_ports_reads_the_indices_back
    (self : XenaModule) (info : list (string * string)) (next n : nat)
    (d0 : dict Z XenaPort)
    (Hbefore : module_ports self = Ok d0) :
  let ports := module_fresh_ports self next 0 n in
  module_ports (inventoried info ports self)
  = Ok (dict_update Z.eqb d0 (combine (map Z.of_nat (seq 0 n)) ports))
  /\ (forall i, i < n ->
        exists d p, module_ports (inventoried info ports self) = Ok d
                    /\ dict_get Z.eqb (Z.of_nat i) d = Some p
                    /\ In p ports
                    /\ port_name p
                       = (m_chassis self ++ "/" ++ PyStr.of_nat (m_index self)
                          ++ "/" ++ PyStr.of_nat i)%string)
  /\ (forall i, PyStr.int (PyStr.of_nat i) = Some (Z.of_nat i)).
Proof.
  intros ports.
  assert (E : module_ports (inventoried info ports self)
              = Ok (dict_update Z.eqb d0 (indexed self next 0 n))).
  { unfold module_ports in *. rewrite module_get_ports_children in *.
    cbn [inventoried m_children].
    rewrite (@ports_by_index_app _ _ _ _ Hbefore). apply ports_by_index_fresh. }
  split; [exact E | split; [| apply PyIntFacts.int_of_nat]].
  intros i Hi. eexists. eexists. split; [exact E |].
  split; [apply dict_get_indexed; lia |]. split; [| reflexivity].
  apply module_fresh_port_in. lia.
Qed.

(** A module in slot 2 whose inventory found four ports. *)
Lemma module_ports_reads_the_indices_back_witness :
  option_map (@dict_keys Z XenaPort)
    (match module_ports
             (inventoried []
                (module_fresh_ports (mkModule 7 "10.0.0.1" 2 None []) 8 0 4)
                (mkModule 7 "10.0.0.1" 2 None [])) with
     | Ok d => Some d
     | Err _ => None
     end)
  = Some [0; 1; 2; 3]%Z.
Proof.
  assert (Hbefore : module_ports (mkModule 7 "10.0.0.1" 2 None []) = Ok [])
    by reflexivity.
  rewrite (proj1 (@module_ports_reads_the_indices_back
                    (mkModule 7 "10.0.0.1" 2 None []) [] 8 4 [] Hbefore)).
  reflexivity.
Defined.

(** X15. [XenaChassis.modules] never raises: the reference of every module
    reads back as its index.  The dictionary has every module index of the
    chassis once; of several modules with the same index, as a second
    inventory creates them, it keeps the last in tree order. *)
Theorem chassis_modules_keeps_the_last_module (c : XenaChassis) :
  (forall m, In m (chassis_get_modules c) ->
     PyStr.int (module_ref m) = Some (Z.of_nat (m_index m)))
  /\ NoDup (dict_keys (chassis_modules c))
  /\ (forall i, In i (dict_keys (chassis_modules c)) <-> In i (module_indices c))
  /\ (forall before m after,
        chassis_get_modules c = before ++ m :: after ->
        ~ In (m_index m) (map m_index after) ->
        dict_get Nat.eqb (m_index m) (chassis_modules c) = Some m).
Proof.
  split; [| split; [| split]].
  - intros m _. apply PyIntFacts.int_of_nat.
  - unfold chassis_modules. apply (dict_keys_update_nodup _ Nat.eqb_eq). constructor.
  - intros i. unfold chassis_modules, module_indices.
    rewrite (dict_keys_update_in _ Nat.eqb_eq), map_map. simpl. tauto.
  - intros before m after E Hlast. unfold chassis_modules. rewrite E, map_app.
    cbn [map]. apply (dict_get_update_app _ Nat.eqb_eq).
    now rewrite map_map.
Qed.

(** ** Taking the inventory again *)






(** ** A reservation that the hardware refuses *)

(** X17. [XenaChassis.reserve_ports] registers the port object before it
    asks for the reservation.  When the hardware refuses the reservation of
    the first location, the error is raised at once: no reset is sent and
    the later locations are not touched; but the port object stays the last
    child of the chassis, and the port dictionary of the chassis lists it
    under its name, as a port of the session that [release_ports] will
    release. *)
Theorem refused_reservation_leaves_the_port
    (hw : Hardware) (self c0 : XenaChassis) (loc : string) (rest : list string)
    (force : bool) (s : State) (e : Error)
    (Hlive : find_chassis (c_id self) s = Some c0)
    (Hrefused : hw (s_log s) (PortCommand (c_name self) loc (Reserve force)) = Fail e) :
  let p := mkPort (s_next s) (c_name self) loc in
  exists s',
    chassis_reserve_ports hw self (loc :: rest) force s = (Err e, s')
    /\ s_log s' = s_log s ++ [(PortCommand (c_name self) loc (Reserve force), Fail e)]
    /\ find_chassis (c_id self) s' = Some (add_child (ChildPort p) c0)
    /\ dict_get String.eqb (port_name p)
         (chassis_ports (add_child (ChildPort p) c0)) = Some p.
Proof.
  intros p.
  assert (Hbody : reserve_body hw self force loc s
                  = (Err e,
                     mkState (s_owner s)
                       (attach (c_id self) (ChildPort p) (s_chassis s))
                       (S (s_next s))
                       (s_log s ++ [(PortCommand (c_name self) loc (Reserve force),
                                     Fail e)]))).
  { unfold reserve_body.
    rewrite (bind_ok _ _ _ (XenaPort_under_chassis_run self loc s)).
    unfold port_reserve, port_command, bind, exchange. cbn [s_log p_chassis p_ref].
    now rewrite Hrefused. }
  eexists. split; [| split; [| split]].
  - rewrite chassis_reserve_ports_unfold. apply bind_err. cbn [for_each].
    apply bind_err. exact Hbody.
  - reflexivity.
  - unfold find_chassis. cbn [s_chassis]. rewrite find_chassis_attach.
    unfold find_chassis in Hlive. now rewrite Hlive.
  - unfold chassis_ports. rewrite chassis_get_ports_add_port, map_app. cbn [map].
    apply (dict_get_update_app _ String.eqb_eq). intros [].
Qed.

(** On the test bench, with a chassis that refuses every reservation. *)
Lemma refused_reservation_leaves_the_port_witness :
  exists s',
    chassis_reserve_ports
      (fun _ r => match r with
                  | PortCommand _ _ (Reserve _) => Fail ReservationConflict
                  | _ => Ack
                  end)
      bench_a ["2/0"; "2/1"] false bench_reserved
    = (Err ReservationConflict, s')
    /\ s_log s'
       = s_log bench_reserved
         ++ [(PortCommand bench_chassis_a "2/0" (Reserve false), Fail ReservationConflict)].
Proof.
  destruct (@refused_reservation_leaves_the_port
              (fun _ r => match r with
                          | PortCommand _ _ (Reserve _) => Fail ReservationConflict
                          | _ => Ack
                          end)
              bench_a bench_a "2/0" ["2/1"] false bench_reserved ReservationConflict
              eq_refl eq_refl) as (s' & H1 & H2 & _).
  exists s'. split; [exact H1 | exact H2].
Defined.

(** ** The chassis of the session under inventory and reservation *)

(** X18. In a session built through the interface, [XenaSession.inventory]
    and [XenaSession.reserve_ports] work below the chassis only: whether
    they return or raise, the session has the same chassis objects with the
    same addresses in the same order, its chassis dictionary has the same
    keys, and it is still well formed. *)
Theorem inventory_and_reservation_keep_the_chassis
    (hw : Hardware) (s : State) (locations : list string) (force : bool)
    (Hbuilt : reachable hw s) :
  let kept s' :=
    map c_id (s_chassis s') = map c_id (s_chassis s)
    /\ map c_name (s_chassis s') = map c_name (s_chassis s)
    /\ dict_keys (chassis_list s') = dict_keys (chassis_list s)
    /\ well_formed s' = true in
  kept (snd (session_inventory hw s))
  /\ kept (snd (session_reserve_ports hw locations force s)).
Proof.
  assert (G : forall s', reachable hw s' ->
                labels (s_chassis s') = labels (s_chassis s) ->
                map c_id (s_chassis s') = map c_id (s_chassis s)
                /\ map c_name (s_chassis s') = map c_name (s_chassis s)
                /\ dict_keys (chassis_list s') = dict_keys (chassis_list s)
                /\ well_formed s' = true).
  { intros s' Hr Hl.
    pose proof (reachable_well_formed Hr) as Hwf'.
    pose proof (reachable_well_formed Hbuilt) as Hwf.
    pose proof (wf_names (well_formed_wf _ Hwf')) as Hn'.
    pose proof (wf_names (well_formed_wf _ Hwf)) as Hn.
    assert (Hids : map c_id (s_chassis s') = map c_id (s_chassis s))
      by (now rewrite <- !labels_ids, Hl).
    assert (Hnames : map c_name (s_chassis s') = map c_name (s_chassis s))
      by (now rewrite <- !labels_names, Hl).
    split; [exact Hids | split; [exact Hnames | split; [| exact Hwf']]].
    rewrite (chassis_list_items _ Hn'), (chassis_list_items _ Hn).
    unfold dict_keys. rewrite !map_map. exact Hnames. }
  pose proof (reachable_ok Hbuilt) as Hok.
  intros kept. split.
  - apply G; [now apply reach_inventory |].
    apply (@preserves_session_inventory hw (labels (s_chassis s)) s). now split.
  - apply G; [now apply reach_reserve_ports |].
    apply (@preserves_session_reserve_ports hw (labels (s_chassis s)) locations force s).
    now split.
Qed.

(** On the test bench: the inventory of the two chassis. *)
Lemma inventory_and_reservation_keep_the_chassis_witness :
  map c_name (s_chassis (snd (session_inventory bench
                                (snd (add_chassis bench bench_chassis_b 22611 "xena"
                                        (snd (add_chassis bench bench_chassis_a 22611
                                                "xena" (XenaSession_init "tester"))))))))
  = map c_name (s_chassis (snd (add_chassis bench bench_chassis_b 22611 "xena"
                                  (snd (add_chassis bench bench_chassis_a 22611
                                          "xena" (XenaSession_init "tester")))))).
Proof.
  assert (Hbuilt : reachable bench
                     (snd (add_chassis bench bench_chassis_b 22611 "xena"
                             (snd (add_chassis bench bench_chassis_a 22611
                                     "xena" (XenaSession_init "tester")))))).
  { apply reach_add_chassis; [| reflexivity].
    apply reach_add_chassis; [| reflexivity]. apply reach_init. }
  destruct (@inventory_and_reservation_keep_the_chassis bench _ [] false Hbuilt)
    as ((_ & H & _) & _).
  exact H.
Defined.

(** ** The order of the ports in a group *)

(** The group of a key in a dictionary of groups, empty when the key is
    missing. *)
Definition group_of (k : Obj) (d : dict Obj (list XenaPort)) : list XenaPort :=
  match dict_get obj_eqb k d with
  | Some g => g
  | None => []
  end.

Lemma obj_eqb_sym a b : obj_eqb a b = obj_eqb b a.
Proof. apply Nat.eqb_sym. Qed.

Lemma obj_eqb_trans a b c : obj_eqb a b = true -> obj_eqb b c = obj_eqb a c.
Proof.
  unfold obj_eqb. intros H. apply Nat.eqb_eq in H. now rewrite H.
Qed.

Lemma group_of_append acc k' p k :
  group_of k (append_group acc k' p)
  = if obj_eqb k' k then group_of k acc ++ [p] else group_of k acc.
Proof.
  unfold group_of. induction acc as [| [k1 g1] acc IH].
  - cbn [append_group dict_get]. now destruct (obj_eqb k' k).
  - cbn [append_group]. destruct (obj_eqb k1 k') eqn:E1.
    + cbn [dict_get]. rewrite <- (obj_eqb_trans _ _ k E1).
      now destruct (obj_eqb k' k).
    + cbn [dict_get]. destruct (obj_eqb k1 k) eqn:E2; [| exact IH].
      destruct (obj_eqb k' k) eqn:E3; [| reflexivity].
      rewrite obj_eqb_sym in E3. rewrite (obj_eqb_trans _ _ k' E2) in E3.
      congruence.
Qed.

Lemma group_from_members cs acc ports d k :
  group_from cs acc ports = Some d ->
  group_of k d
  = group_of k acc
    ++ filter (fun p => match owner cs p with
                        | Some c => obj_eqb (OChassis c) k
                        | None => false
                        end) ports.
Proof.
  revert acc. induction ports as [| p rest IH]; intros acc H.
  - injection H as <-. now rewrite app_nil_r.
  - cbn [group_from] in H. cbn [filter].
    destruct (owner cs p) as [c |] eqn:Eo; [| discriminate].
    rewrite (IH _ H), add_to_group_append, group_of_append.
    destruct (obj_eqb (OChassis c) k); [now rewrite <- app_assoc | reflexivity].
Qed.

Lemma owner_by_name cs p c :
  wf cs -> In c cs ->
  (match owner cs p with
   | Some c' => obj_eqb (OChassis c') (OChassis c)
   | None => false
   end) = String.eqb (first_segment p) (c_name c).
Proof.
  intros Hwf Hc. destruct (owner cs p) as [c' |] eqn:Eo.
  - pose proof (owner_in _ _ Eo) as Hc'. pose proof (owner_name _ _ Eo) as Hn.
    unfold obj_eqb. cbn [obj_id].
    destruct (String.eqb (first_segment p) (c_name c)) eqn:E.
    + apply String.eqb_eq in E.
      assert (c' = c)
        by (apply (NoDup_map_inj c_name cs); auto; [apply (wf_names Hwf) | congruence]).
      subst c'. apply Nat.eqb_refl.
    + destruct (Nat.eqb (c_id c') (c_id c)) eqn:Ei; [| reflexivity].
      apply Nat.eqb_eq in Ei.
      assert (c' = c) by (apply (NoDup_map_inj c_id cs); auto; apply (wf_ids Hwf)).
      subst c'. apply String.eqb_neq in E. now symmetry in Hn.
  - symmetry. unfold owner in Eo.
    pose proof (find_none _ _ Eo c Hc) as H. cbv beta in H.
    now rewrite String.eqb_sym.
Qed.

(** X19. [XenaSession._per_chassis_ports] keeps the order of the ports: in
    a well-formed session, when the grouping succeeds, the group of a
    chassis is made of the ports whose name starts with the address of
    that chassis, in the order in which they were given, and a chassis has
    a group exactly when there is such a port.  The session is left as it
    was. *)
Theorem per_chassis_ports_keeps_the_order
    (s s' : State) (ports : list XenaPort) (d : dict Obj (list XenaPort))
    (Hwf : well_formed s = true)
    (Hrun : per_chassis_ports ports s = (Ok d, s')) :
  s' = s
  /\ (forall c, In c (s_chassis s) ->
        group_of (OChassis c) d
        = filter (fun p => String.eqb (first_segment p) (c_name c)) ports)
  /\ (forall c, In c (s_chassis s) ->
        (dict_mem obj_eqb (OChassis c) d = true
         <-> exists p, In p ports /\ first_segment p = c_name c))
  /\ Permutation (flat_map snd d) ports.
Proof.
  apply well_formed_wf in Hwf. unfold per_chassis_ports in Hrun.
  rewrite per_chassis_ports_from_run in Hrun.
  destruct (group_from (s_chassis s) [] ports) as [d0 |] eqn:Hd; [| discriminate].
  injection Hrun as <- <-.
  assert (Hgroup : forall c, In c (s_chassis s) ->
            group_of (OChassis c) d0
            = filter (fun p => String.eqb (first_segment p) (c_name c)) ports).
  { intros c Hc. rewrite (group_from_members _ _ _ (OChassis c) Hd).
    cbn [group_of dict_get app]. apply filter_ext. intros p.
    now apply owner_by_name. }
  destruct (@group_from_ok _ _ _ _ (wf_ids Hwf) Hd) as (Hn & Hok);
    [constructor | constructor |].
  split; [reflexivity | split; [exact Hgroup | split]].
  - intros c Hc. specialize (Hgroup c Hc). unfold group_of, dict_mem in *.
    destruct (dict_get obj_eqb (OChassis c) d0) as [g |] eqn:Eg.
    + split; [intros _ | reflexivity].
      assert (Hg : g <> []).
      { assert (G : forall d1, Forall (group_ok (s_chassis s)) d1 ->
                      dict_get obj_eqb (OChassis c) d1 = Some g -> g <> []).
        { clear. induction 1 as [| [k1 g1] d1 (c1 & _ & _ & Hne & _) _ IH];
            cbn [dict_get]; [discriminate |].
          destruct (obj_eqb k1 (OChassis c)); [| exact IH].
          intros [= <-]. exact Hne. }
        exact (G _ Hok Eg). }
      destruct g as [| p g]; [contradiction |].
      assert (Hp : In p (filter (fun p => String.eqb (first_segment p) (c_name c)) ports))
        by (rewrite <- Hgroup; now left).
      apply filter_In in Hp. destruct Hp as (Hp & E). apply String.eqb_eq in E.
      now exists p.
    + split; [discriminate |]. intros (p & Hp & E).
      assert (Hin : In p (filter (fun p => String.eqb (first_segment p) (c_name c)) ports)).
      { apply filter_In. split; [exact Hp | now apply String.eqb_eq]. }
      rewrite <- Hgroup in Hin. contradiction.
  - apply group_from_flat in Hd. exact Hd.
Qed.

(** On the test bench: the three ports of the session, the second of
    which is on the second chassis. *)
Lemma per_chassis_ports_keeps_the_order_witness :
  map p_ref
    (group_of (OChassis bench_a)
       (match fst (per_chassis_ports (dict_values (session_ports bench_reserved))
                     bench_reserved) with
        | Ok d => d
        | Err _ => []
        end))
  = ["0/0"; "0/1"].
Proof.
  set (d := match fst (per_chassis_ports (dict_values (session_ports bench_reserved))
                         bench_reserved) with
            | Ok d => d
            | Err _ => []
            end).
  assert (Hrun : per_chassis_ports (dict_values (session_ports bench_reserved))
                   bench_reserved
                 = (Ok d, bench_reserved))
    by (vm_compute; reflexivity).
  rewrite (proj1 (proj2 (@per_chassis_ports_keeps_the_order bench_reserved
                           bench_reserved
                           (dict_values (session_ports bench_reserved)) d
                           eq_refl Hrun))
             bench_a (or_introl eq_refl)).
  reflexivity.
Defined.
